(** * excelite: column model, type registry and SQL synthesis

    A shallow embedding of the schema engine of excelite (package [main]:
    types.go, culmnbuilder.go, typeparser.go, generator.go and the helper
    files; package [exporter]: types.go, sqlite types, tags.go, excel.go,
    sqlite.go, relation.go, registry.go), followed by the properties the
    specification states about it and by further properties of the code.

    Go strings are byte sequences and are embedded as [string].  The
    functions of Go's [strings] package are embedded on ASCII text, the path
    Go's own implementation takes when every byte is below 0x80: case mapping
    touches the letters A-Z / a-z only and white space is the set
    tab, line feed, vertical tab, form feed, carriage return and space.
    Go maps are [gmap]s; where the source ranges over a map, whose order Go
    leaves unspecified, the order is an explicit argument. *)

From Stdlib Require Import Ascii String List Bool Arith Lia.
From stdpp Require Import base option list gmap strings pretty sorting.

(** ** The [strings] package *)

Definition isUpperByte (c : ascii) : bool :=
  (65 <=? nat_of_ascii c) && (nat_of_ascii c <=? 90).

Definition isLowerByte (c : ascii) : bool :=
  (97 <=? nat_of_ascii c) && (nat_of_ascii c <=? 122).

Definition toLowerByte (c : ascii) : ascii :=
  if isUpperByte c then ascii_of_nat (nat_of_ascii c + 32) else c.

Definition toUpperByte (c : ascii) : ascii :=
  if isLowerByte c then ascii_of_nat (nat_of_ascii c - 32) else c.

(** [asciiSpace] of the Go library. *)
Definition isSpaceByte (c : ascii) : bool :=
  match nat_of_ascii c with
  | 9 | 10 | 11 | 12 | 13 | 32 => true
  | _ => false
  end.

Definition isASCIIByte (c : ascii) : bool := nat_of_ascii c <? 128.

Fixpoint isASCII (s : string) : bool :=
  match s with
  | EmptyString => true
  | String c r => isASCIIByte c && isASCII r
  end.

Fixpoint mapBytes (f : ascii → ascii) (s : string) : string :=
  match s with
  | EmptyString => EmptyString
  | String c r => String (f c) (mapBytes f r)
  end.

Definition ToLower (s : string) : string := mapBytes toLowerByte s.
Definition ToUpper (s : string) : string := mapBytes toUpperByte s.

Definition isEmpty (s : string) : bool :=
  match s with EmptyString => true | _ => false end.

Fixpoint trimLeft (s : string) : string :=
  match s with
  | EmptyString => EmptyString
  | String c r => if isSpaceByte c then trimLeft r else s
  end.

Fixpoint trimRight (s : string) : string :=
  match s with
  | EmptyString => EmptyString
  | String c r =>
      let r' := trimRight r in
      if isSpaceByte c && isEmpty r' then EmptyString else String c r'
  end.

Definition TrimSpace (s : string) : string := trimRight (trimLeft s).

Fixpoint HasPrefix (s prefix : string) : bool :=
  match prefix, s with
  | EmptyString, _ => true
  | String p ps, String c r => if Ascii.eqb c p then HasPrefix r ps else false
  | String _ _, EmptyString => false
  end.

Fixpoint dropBytes (n : nat) (s : string) : string :=
  match n, s with
  | S n', String _ r => dropBytes n' r
  | _, _ => s
  end.

Fixpoint takeBytes (n : nat) (s : string) : string :=
  match n, s with
  | S n', String c r => String c (takeBytes n' r)
  | _, _ => EmptyString
  end.

Definition HasSuffix (s suffix : string) : bool :=
  (String.length suffix <=? String.length s) &&
  String.eqb (dropBytes (String.length s - String.length suffix) s) suffix.

Definition TrimPrefix (s prefix : string) : string :=
  if HasPrefix s prefix then dropBytes (String.length prefix) s else s.

Definition TrimSuffix (s suffix : string) : string :=
  if HasSuffix s suffix
  then takeBytes (String.length s - String.length suffix) s else s.

Fixpoint Contains (s substr : string) : bool :=
  HasPrefix s substr ||
  match s with
  | EmptyString => false
  | String _ r => Contains r substr
  end.

Fixpoint containsByte (chars : string) (c : ascii) : bool :=
  match chars with
  | EmptyString => false
  | String d r => Ascii.eqb c d || containsByte r c
  end.

Fixpoint ContainsAny (s chars : string) : bool :=
  match s with
  | EmptyString => false
  | String c r => containsByte chars c || ContainsAny r chars
  end.

(** [strings.Index]: byte offset of the first occurrence. *)
Fixpoint Index (s substr : string) : option nat :=
  if HasPrefix s substr then Some 0
  else match s with
       | EmptyString => None
       | String _ r => S <$> Index r substr
       end.

Definition consField (w : string) (ws : list string) : list string :=
  if isEmpty w then ws else w :: ws.

(** The word being read at the head of the string, and the words after it. *)
Fixpoint fieldsFrom (s : string) : string * list string :=
  match s with
  | EmptyString => (EmptyString, [])
  | String c r =>
      let '(w, ws) := fieldsFrom r in
      if isSpaceByte c then (EmptyString, consField w ws) else (String c w, ws)
  end.

Definition Fields (s : string) : list string :=
  let '(w, ws) := fieldsFrom s in consField w ws.

Fixpoint Join (elems : list string) (sep : string) : string :=
  match elems with
  | [] => EmptyString
  | [x] => x
  | x :: r => x +:+ sep +:+ Join r sep
  end.

(** [strings.Split] on a one-byte separator: the piece at the head and the
    pieces after it. *)
Fixpoint splitFrom (sep : ascii) (s : string) : string * list string :=
  match s with
  | EmptyString => (EmptyString, [])
  | String c r =>
      let '(w, ws) := splitFrom sep r in
      if Ascii.eqb c sep then (EmptyString, w :: ws) else (String c w, ws)
  end.

Definition Split (s : string) (sep : ascii) : list string :=
  let '(w, ws) := splitFrom sep s in w :: ws.

(** [strings.SplitN(s, sep, 2)]. *)
Fixpoint SplitN2 (s : string) (sep : ascii) : list string :=
  match s with
  | EmptyString => [EmptyString]
  | String c r =>
      if Ascii.eqb c sep then [EmptyString; r]
      else match SplitN2 r sep with
           | w :: ws => String c w :: ws
           | [] => [String c EmptyString]
           end
  end.

Fixpoint ReplaceAllByte (s : string) (old : ascii) : string :=
  match s with
  | EmptyString => EmptyString
  | String c r =>
      if Ascii.eqb c old then ReplaceAllByte r old
      else String c (ReplaceAllByte r old)
  end.

(** The verb [%d] of [fmt.Sprintf] on a non-negative integer: its decimal
    numeral. *)
Definition Itoa (n : nat) : string := pretty n.

(** The double-quote byte, and [fmt.Sprintf] with the format ["%s"] between
    two of them. *)
Definition dquote : ascii := ascii_of_nat 34.

Definition quoted (name : string) : string :=
  String dquote (name +:+ String dquote EmptyString).


(** ** types.go: the type registry *)

(** The [reflect.Type] values the program handles. *)
Inductive GoType : Type :=
  | TInt32 | TInt64 | TFloat64 | TBool | TString | TTime | TUint8
  | TSliceOf (elem : GoType).

(** [ColumnType]; the pointer [BaseType] is [None] when nil. *)
#[warnings="-register-all"]
Inductive ColumnType : Type := mkColumnType {
  ctType : GoType;
  SQLType : string;
  IsArray : bool;
  BaseType : option ColumnType
}.

Definition Int32Type : ColumnType := mkColumnType TInt32 "INTEGER" false None.
Definition Int64Type : ColumnType := mkColumnType TInt64 "BIGINT" false None.
Definition Float64Type : ColumnType := mkColumnType TFloat64 "REAL" false None.
Definition BoolType : ColumnType := mkColumnType TBool "BOOLEAN" false None.
Definition StringType : ColumnType := mkColumnType TString "TEXT" false None.
Definition DateTimeType : ColumnType := mkColumnType TTime "DATETIME" false None.
Definition BytesType : ColumnType :=
  mkColumnType (TSliceOf TUint8) "BLOB" false None.

Definition inList (x : string) (l : list string) : bool :=
  existsb (String.eqb x) l.

(** The [switch] of [ParseColumnType] on an already normalized token. *)
Definition parseScalarType (typeStr : string) : ColumnType :=
  if inList typeStr ["int"; "int32"; "integer"] then Int32Type
  else if inList typeStr ["int64"; "bigint"] then Int64Type
  else if inList typeStr ["float"; "float64"; "double"] then Float64Type
  else if inList typeStr ["bool"; "boolean"] then BoolType
  else if inList typeStr ["time"; "datetime"; "timestamp"; "date"]
  then DateTimeType
  else if inList typeStr ["[]byte"; "blob"] then BytesType
  else if inList typeStr ["string"; "text"; "varchar"] then StringType
  else StringType.

(** [ParseColumnType] calls itself on the text between [array<] and [>];
    [fuel] bounds the depth of that recursion and [None] means it ran out. *)
Fixpoint parseColumnTypeFuel (fuel : nat) (typeStr : string)
  : option ColumnType :=
  match fuel with
  | 0 => None
  | S fuel' =>
      let typeStr := TrimSpace (ToLower typeStr) in
      if HasPrefix typeStr "array<" && HasSuffix typeStr ">" then
        let baseTypeStr := TrimSuffix (TrimPrefix typeStr "array<") ">" in
        match parseColumnTypeFuel fuel' baseTypeStr with
        | Some baseType =>
            Some (mkColumnType (TSliceOf (ctType baseType)) "TEXT" true
                    (Some baseType))
        | None => None
        end
      else Some (parseScalarType typeStr)
  end.

(** A declared type of [n] bytes nests fewer than [n + 1] arrays. *)
Definition ParseColumnType (typeStr : string) : ColumnType :=
  default StringType
    (parseColumnTypeFuel (S (String.length typeStr)) typeStr).

Definition SQLTypeString (ct : ColumnType) : string :=
  if IsArray ct then "TEXT" else SQLType ct.

Definition reservedColumnNames : list string :=
  ["id"; "created_at"; "updated_at"; "deleted_at"].

Definition IsReservedColumnName (name : string) : bool :=
  inList (ToLower name) reservedColumnNames.

(** [Column] of package main; [Tags] is the GORM tag text. *)
Record Column : Type := mkColumn {
  Name : string;
  Type_ : ColumnType;
  Tags : string;
  IsUnique : bool
}.

Record Table : Type := mkTable {
  TableName : string;
  Columns : list Column
}.

(** ** Helper file of package main: quoting and name formatting *)

Definition sqliteReservedWords : list string :=
  ["abort"; "action"; "add"; "after"; "all";
   "alter"; "analyze"; "and"; "as"; "asc";
   "attach"; "autoincrement"; "before"; "begin";
   "between"; "by"; "cascade"; "case"; "cast";
   "check"; "collate"; "column"; "commit"; "conflict";
   "constraint"; "create"; "cross"; "current";
   "current_date"; "current_time"; "current_timestamp";
   "database"; "default"; "deferrable"; "deferred";
   "delete"; "desc"; "detach"; "distinct"; "drop";
   "each"; "else"; "end"; "escape"; "except";
   "exclusive"; "exists"; "explain"; "fail"; "for";
   "foreign"; "from"; "full"; "glob"; "group";
   "having"; "if"; "ignore"; "immediate"; "in";
   "index"; "indexed"; "initially"; "inner"; "insert";
   "instead"; "intersect"; "into"; "is"; "isnull";
   "join"; "key"; "left"; "like"; "limit";
   "match"; "natural"; "no"; "not"; "notnull";
   "null"; "of"; "offset"; "on"; "or"; "order";
   "outer"; "plan"; "pragma"; "primary"; "query";
   "raise"; "recursive"; "references"; "regexp";
   "reindex"; "release"; "rename"; "replace";
   "restrict"; "right"; "rollback"; "row"; "savepoint";
   "select"; "set"; "table"; "temp"; "temporary";
   "then"; "to"; "transaction"; "trigger"; "union";
   "unique"; "update"; "using"; "vacuum"; "values";
   "view"; "virtual"; "when"; "where"; "with";
   "without"].

Definition QuoteIdentifier (name : string) : string :=
  if inList (ToLower name) sqliteReservedWords then quoted name else name.

(** [strings.ToUpper(string(part[0])) + part[1:]], for a first byte below
    0x80. *)
Definition upperFirst (part : string) : string :=
  match part with
  | EmptyString => EmptyString
  | String c r => String (toUpperByte c) r
  end.

Definition FormatColumnName (name : string) : string :=
  let name := TrimSpace name in
  if isEmpty name then EmptyString
  else Join (map upperFirst (Fields name)) EmptyString.

(** [extractDefaultValue]: the text after [default:] up to the next [;]. *)
Definition extractDefaultValue (tags : string) : string :=
  match Index tags "default:" with
  | Some idx =>
      let rest := dropBytes (idx + String.length "default:") tags in
      match Index rest ";" with
      | Some e => takeBytes e rest
      | None => rest
      end
  | None => EmptyString
  end.

(** ** Tag text of package main: [parseTagToGORMTag] *)

Definition TagPrimaryKey : string := "pk".
Definition TagUnique : string := "unique".
Definition TagIndex : string := "index".
Definition TagNotNull : string := "notnull".
Definition TagAutoInc : string := "autoinc".
Definition TagDefault : string := "default".
Definition TagSize : string := "size".
Definition TagForeignKey : string := "fk".

(** The GORM fragment one comma-separated tag contributes, if any. *)
Definition gormTagOf (tag : string) : option string :=
  let tag := TrimSpace tag in
  if isEmpty tag then None
  else if Contains tag "=" then
    match SplitN2 tag "="%char with
    | k :: v :: _ =>
        let key := TrimSpace k in
        let value := TrimSpace v in
        if String.eqb key TagSize then Some ("size:" +:+ value)
        else if String.eqb key TagDefault then Some ("default:" +:+ value)
        else if String.eqb key TagForeignKey
        then Some ("foreignKey:" +:+ value)
        else None
    | _ => None
    end
  else
    if String.eqb tag TagPrimaryKey then Some "primaryKey"
    else if String.eqb tag TagUnique then Some "unique"
    else if String.eqb tag TagIndex then Some "index"
    else if String.eqb tag TagNotNull then Some "not null"
    else if String.eqb tag TagAutoInc then Some "autoIncrement"
    else None.

Definition gormWrap (body : string) : string := "gorm:" +:+ quoted body.

(** First result of [parseTagToGORMTag]; [BuildColumns] drops the second. *)
Definition parseTagToGORMTag (tagStr : string) : string :=
  let gormTags := omap gormTagOf (Split tagStr ","%char) in
  match gormTags with
  | [] => EmptyString
  | _ => gormWrap (Join gormTags ";")
  end.

(** ** culmnbuilder.go: the column builder *)

Inductive BuildResult : Type :=
  | BuildOk (columns : list Column)
  | BuildErr (msg : string).

Definition reservedError (formattedName : string) : string :=
  "column name '" +:+ formattedName +:+ "' is reserved by the system".

(** A [for i, x := range l] loop whose body may return an error. *)
Fixpoint rangeFrom {A St : Type} (body : nat → A → St → St + string)
    (i : nat) (l : list A) (s : St) : St + string :=
  match l with
  | [] => inl s
  | x :: r =>
      match body i x s with
      | inl s' => rangeFrom body (S i) r s'
      | inr e => inr e
      end
  end.

(** First loop: format every field name, count the array occurrences. *)
Definition collectStep (types : list string) (i : nat) (name : string)
    (st : gmap string string * gmap string nat)
  : gmap string string * gmap string nat + string :=
  let name := TrimSpace name in
  match types !! i with
  | None => inl st
  | Some ty =>
      if isEmpty name then inl st
      else
        let typeStr := TrimSpace ty in
        let formattedName := FormatColumnName name in
        let processedNames := <[name := formattedName]> st.1 in
        if HasPrefix typeStr "array<"
        then inl (processedNames,
                  <[formattedName := S (default 0 (st.2 !! formattedName))]>
                    st.2)
        else inl (processedNames, st.2)
  end.

(** The inner search of the second loop: the first field whose trimmed name
    is [origName], and its type with [array<] and [>] stripped. *)
Fixpoint findBaseTypeStr (fieldNames types : list string) (origName : string)
    (i : nat) : string :=
  match fieldNames with
  | [] => EmptyString
  | fieldName :: r =>
      match types !! i with
      | Some ty =>
          if String.eqb (TrimSpace fieldName) origName
          then TrimSuffix (TrimPrefix (TrimSpace ty) "array<") ">"
          else findBaseTypeStr r types origName (S i)
      | None => findBaseTypeStr r types origName (S i)
      end
  end.

Definition arrayColumn (formattedName : string) (baseType : ColumnType)
  : Column :=
  mkColumn formattedName
    (mkColumnType (TSliceOf (ctType baseType)) "TEXT" true (Some baseType))
    (gormWrap "type:text") false.

Definition elementName (formattedName : string) (i : nat) : string :=
  formattedName +:+ "_" +:+ Itoa i.

Definition elementColumn (formattedName : string) (baseType : ColumnType)
    (i : nat) : Column :=
  mkColumn (elementName formattedName i) baseType
    (gormWrap ("column:" +:+ ToLower formattedName +:+ "_" +:+ Itoa i)) false.

(** [for i := 0; i < count; i++ { columnMap[Name_i] = ... }] *)
Definition addElementColumns (formattedName : string) (baseType : ColumnType)
    (count : nat) (columnMap : gmap string Column) : gmap string Column :=
  foldl (λ m i, <[elementName formattedName i :=
                    elementColumn formattedName baseType i]> m)
        columnMap (seq 0 count).

(** Body of the second loop, over the entries of [arrayColumnCounts].  The
    key of that map is a formatted name, and the body looks it up in
    [processedNames], whose keys are trimmed raw names; a missing key reads
    as the empty string. *)
Definition arrayStep (fieldNames types : list string)
    (processedNames : gmap string string)
    (entry : string * nat) (columnMap : gmap string Column)
  : gmap string Column + string :=
  let '(origName, count) := entry in
  let formattedName := default EmptyString (processedNames !! origName) in
  if IsReservedColumnName formattedName
  then inr (reservedError formattedName)
  else
    let baseTypeStr := findBaseTypeStr fieldNames types origName 0 in
    if isEmpty baseTypeStr then inl columnMap
    else
      let baseType := ParseColumnType baseTypeStr in
      inl (addElementColumns formattedName baseType count
             (<[formattedName := arrayColumn formattedName baseType]>
                columnMap)).

(** Body of the third loop, over the header positions. *)
Definition regularStep (types tags : list string)
    (processedNames : gmap string string)
    (i : nat) (origName : string) (columnMap : gmap string Column)
  : gmap string Column + string :=
  let origName := TrimSpace origName in
  match types !! i with
  | None => inl columnMap
  | Some ty =>
      if isEmpty origName then inl columnMap
      else
        let formattedName :=
          default EmptyString (processedNames !! origName) in
        if IsReservedColumnName formattedName
        then inr (reservedError formattedName)
        else if bool_decide (is_Some (columnMap !! formattedName))
        then inl columnMap
        else
          let typeStr := TrimSpace ty in
          let tagValue := TrimSpace (default EmptyString (tags !! i)) in
          if Contains tagValue "design" then inl columnMap
          else
            inl (<[formattedName :=
                     mkColumn formattedName (ParseColumnType typeStr)
                       (parseTagToGORMTag tagValue)
                       (Contains tagValue "unique")]> columnMap)
  end.

Definition nameLe (a b : Column) : Prop := String.le (Name a) (Name b).

(** [sort.Slice] by [Name]. *)
Definition sortColumns (columns : list Column) : list Column :=
  merge_sort nameLe columns.

(** [BuildColumns], with [rangeOrder] giving the order in which the second
    loop visits the entries of [arrayColumnCounts]. *)
Definition BuildColumnsIn
    (rangeOrder : gmap string nat → list (string * nat))
    (fieldNames types tags : list string) : BuildResult :=
  match rangeFrom (collectStep types) 0 fieldNames (∅, ∅) with
  | inr e => BuildErr e
  | inl (processedNames, arrayColumnCounts) =>
      match rangeFrom (λ _, arrayStep fieldNames types processedNames) 0
              (rangeOrder arrayColumnCounts) ∅ with
      | inr e => BuildErr e
      | inl columnMap =>
          match rangeFrom (regularStep types tags processedNames) 0
                  fieldNames columnMap with
          | inr e => BuildErr e
          | inl columnMap =>
              BuildOk (sortColumns ((map_to_list columnMap).*2))
          end
      end
  end.

Definition BuildColumns (fieldNames types tags : list string) : BuildResult :=
  BuildColumnsIn map_to_list fieldNames types tags.

(** ** generator.go: schema text and insert statement *)

Definition nl : string := String (ascii_of_nat 10) EmptyString.

(** One entry of [columnDefs]: the quoted name and what follows it. *)
Record ColumnDef : Type := mkColumnDef {
  defName : string;
  defRest : string
}.

Definition renderDef (d : ColumnDef) : string :=
  "    " +:+ defName d +:+ " " +:+ defRest d.

Definition hasColumnNamed (columns : list Column) (name : string) : bool :=
  existsb (λ checkCol, String.eqb (Name checkCol) name) columns.

(** [for i := 0; ; i++] over the element columns of an array column: it
    stops at the first [Name_i] that no column of the table bears.  [fuel]
    bounds the number of rounds.  [None] stands for a run that yields no
    text: the fuel ran out, or [col.Type.BaseType] was nil when the loop
    dereferenced it. *)
Fixpoint elementDefs (fuel : nat) (columns : list Column) (col : Column)
    (i : nat) : option (list ColumnDef) :=
  match fuel with
  | 0 => None
  | S fuel' =>
      let arrayColName := Name col +:+ "_" +:+ Itoa i in
      if hasColumnNamed columns arrayColName then
        baseType ← BaseType (Type_ col);
        rest ← elementDefs fuel' columns col (S i);
        Some (mkColumnDef (QuoteIdentifier arrayColName)
                (SQLTypeString baseType) :: rest)
      else Some []
  end.

Definition scalarDef (col : Column) : ColumnDef :=
  mkColumnDef (QuoteIdentifier (Name col))
    (SQLTypeString (Type_ col)
     +:+ (if IsUnique col then " UNIQUE" else EmptyString)
     +:+ (if Contains (Tags col) "not null" then " NOT NULL" else EmptyString)
     +:+ (let defaultVal := extractDefaultValue (Tags col) in
          if isEmpty defaultVal then EmptyString
          else " DEFAULT " +:+ defaultVal)).

(** The loop of [generateSQLSchema] that fills [columnDefs];
    [processedArrayColumns] holds the array names already emitted. *)
Fixpoint columnDefsLoop (columns : list Column) (todo : list Column)
    (processedArrayColumns : list string) : option (list ColumnDef) :=
  match todo with
  | [] => Some []
  | col :: r =>
      if IsArray (Type_ col) then
        if inList (Name col) processedArrayColumns
        then columnDefsLoop columns r processedArrayColumns
        else
          elems ← elementDefs (S (length columns)) columns col 0;
          rest ← columnDefsLoop columns r (Name col :: processedArrayColumns);
          Some (mkColumnDef (QuoteIdentifier (Name col)) "TEXT"
                :: elems ++ rest)
      else
        if existsb (λ baseName, HasPrefix (Name col) (baseName +:+ "_"))
             processedArrayColumns
        then columnDefsLoop columns r processedArrayColumns
        else
          rest ← columnDefsLoop columns r processedArrayColumns;
          Some (scalarDef col :: rest)
  end.

Definition columnDefs (table : Table) : option (list ColumnDef) :=
  columnDefsLoop (Columns table) (Columns table) [].

Definition indexDef (table : Table) (col : Column) : string :=
  let indexName :=
    "idx_" +:+ ToLower (TableName table) +:+ "_" +:+ ToLower (Name col) in
  "CREATE INDEX IF NOT EXISTS " +:+ QuoteIdentifier indexName
  +:+ " ON " +:+ QuoteIdentifier (ToLower (TableName table))
  +:+ " (" +:+ QuoteIdentifier (Name col) +:+ ");".

Definition indexDefs (table : Table) : list string :=
  map (indexDef table)
      (filter (λ col, Is_true (Contains (Tags col) "index")) (Columns table)).

Definition createTableHead (table : Table) : string :=
  "CREATE TABLE " +:+ QuoteIdentifier (ToLower (TableName table))
  +:+ " (" +:+ nl.

(** The text [generateSQLSchema] writes to the [.sql] file. *)
Definition generateSQLSchema (table : Table) : option string :=
  defs ← columnDefs table;
  Some (createTableHead table
        +:+ "    id INTEGER PRIMARY KEY AUTOINCREMENT," +:+ nl
        +:+ "    created_at DATETIME," +:+ nl
        +:+ "    updated_at DATETIME," +:+ nl
        +:+ "    deleted_at DATETIME," +:+ nl
        +:+ Join (map renderDef defs) ("," +:+ nl)
        +:+ nl +:+ ");"
        +:+ match indexDefs table with
            | [] => EmptyString
            | defs => nl +:+ nl +:+ Join defs nl
            end).

Definition insertColumns (table : Table) : list string :=
  map (λ col, QuoteIdentifier (Name col)) (Columns table).

Definition prepareInsertSQL (table : Table) : string :=
  "INSERT INTO " +:+ QuoteIdentifier (ToLower (TableName table))
  +:+ " (" +:+ Join (insertColumns table) ", "
  +:+ ") VALUES (" +:+ Join (map (λ _, "?") (Columns table)) ", " +:+ ")".

(** [parseSheet] of the generator: the table of one sheet. *)
Definition generatorParseSheet (sheet : string) (rows : list (list string))
  : Table + string :=
  match rows with
  | r0 :: r1 :: r2 :: _ :: _ =>
      match BuildColumns r0 r2 r1 with
      | BuildOk columns => inl (mkTable sheet columns)
      | BuildErr e => inr ("failed to build columns: " +:+ e)
      end
  | _ => inr ("sheet " +:+ sheet +:+ " must have at least 4 rows")
  end.

(** ** typeparser.go: the DateTime parser *)

Record timeFormat : Type := mkTimeFormat {
  format : string;
  hasChanged : bool
}.

Definition timeFormats : list timeFormat :=
  [mkTimeFormat "2006-01-02 15:04:05.999" false;
   mkTimeFormat "2006-01-02 15:04:05.999Z" true;
   mkTimeFormat "2006-01-02T15:04:05.999" false;
   mkTimeFormat "2006-01-02T15:04:05.999Z" true;
   mkTimeFormat "2006-01-02 15:04:05" false;
   mkTimeFormat "2006-01-02T15:04:05" false;
   mkTimeFormat "2006-01-02T15:04:05Z" true;
   mkTimeFormat "2006-01-02" false].

(** A [reflect.Value]: the zero value of a type, or a value of [time.Time]. *)
Inductive ReflectValue (Time : Type) : Type :=
  | Zero (ty : GoType)
  | ValueOf (t : Time).
Arguments Zero {Time} ty.
Arguments ValueOf {Time} t.

Record Value (Time : Type) : Type := mkValue {
  valType : ColumnType;
  valValue : ReflectValue Time
}.
Arguments mkValue {Time} valType valValue.
Arguments valType {Time} v.
Arguments valValue {Time} v.

Definition ZeroValue {Time : Type} (columnType : ColumnType) : Value Time :=
  mkValue columnType (Zero (ctType columnType)).

Definition NewValue {Time : Type} (columnType : ColumnType) (t : Time)
  : Value Time :=
  mkValue columnType (ValueOf t).

Section TimeParser.
(** The standard library's [time] package: [time.Time] with its clock
    accessors and [UTC], and [time.Parse layout value], which yields a time
    or an error text. *)
Context {Time : Type}.
Variable timeParse : string → string → Time + string.
Variables Hour Minute Second : Time → nat.
Variable UTC : Time → Time.

Definition clockIsZero (t : Time) : bool :=
  (Hour t =? 0) && (Minute t =? 0) && (Second t =? 0).

(** What [Parse] does with a time the format [tf] produced from [value]. *)
Definition normalizeZone (tf : timeFormat) (value : string) (t : Time)
  : Time :=
  if negb (hasChanged tf) && negb (ContainsAny value "Zz+-")
  then if negb (clockIsZero t) then UTC t else t
  else t.

(** The loop of [TimeParser.Parse]: the first format that parses wins;
    otherwise the error of the last format tried. *)
Fixpoint tryFormats (formats : list timeFormat) (value : string)
    (lastErr : string) : Time + string :=
  match formats with
  | [] => inr lastErr
  | tf :: r =>
      match timeParse (format tf) value with
      | inl t => inl (normalizeZone tf value t)
      | inr err => tryFormats r value err
      end
  end.

(** [TimeParser.Parse]: the value and the error ([None] for nil). *)
Definition TimeParser_Parse (columnName : string) (columnType : ColumnType)
    (value : string) : Value Time * option string :=
  let value := TrimSpace value in
  if isEmpty value then (ZeroValue columnType, None)
  else
    match tryFormats timeFormats value "<nil>" with
    | inl t => (NewValue columnType t, None)
    | inr lastErr =>
        (ZeroValue columnType,
         Some ("column " +:+ columnName +:+ ": failed to parse date '"
               +:+ value +:+ "': " +:+ lastErr))
    end.
End TimeParser.

(** ** Package exporter *)

Module Exporter.

(** tags.go *)
Inductive Tag : Type :=
  | TagNone | TagUnique | TagIndex | TagNotNull | TagAutoIncrement
  | TagPrimaryKey | TagDefault | TagForeignKey | TagDesign | TagSize
  | TagIgnore | TagReadOnly | TagWriteOnly | TagValidate.

Definition Tag_eqb (a b : Tag) : bool :=
  match a, b with
  | TagNone, TagNone | TagUnique, TagUnique | TagIndex, TagIndex
  | TagNotNull, TagNotNull | TagAutoIncrement, TagAutoIncrement
  | TagPrimaryKey, TagPrimaryKey | TagDefault, TagDefault
  | TagForeignKey, TagForeignKey | TagDesign, TagDesign
  | TagSize, TagSize | TagIgnore, TagIgnore | TagReadOnly, TagReadOnly
  | TagWriteOnly, TagWriteOnly | TagValidate, TagValidate => true
  | _, _ => false
  end.

Record TagInfo : Type := mkTagInfo {
  InfoName : string;
  HasValue : bool
}.

Record TagValue : Type := mkTagValue {
  tvTag : Tag;
  tvValue : string
}.

(** The entries of [tagInfoMap] ([Name] and [HasValue]); the names are
    pairwise distinct, so the order of a search through it is immaterial. *)
Definition tagInfoMap : list (Tag * TagInfo) :=
  [(TagUnique, mkTagInfo "unique" false);
   (TagIndex, mkTagInfo "index" false);
   (TagNotNull, mkTagInfo "notnull" false);
   (TagDefault, mkTagInfo "default" true);
   (TagSize, mkTagInfo "size" true);
   (TagValidate, mkTagInfo "validate" true)].

Definition NormalizeTagString (s : string) : string :=
  let s := ToLower (TrimSpace s) in
  let s := ReplaceAllByte s "-"%char in
  ReplaceAllByte s "_"%char.

Definition ParseTag (s : string) : Tag :=
  let s := NormalizeTagString s in
  match List.find (λ e, String.eqb (InfoName e.2) s) tagInfoMap with
  | Some e => e.1
  | None => TagNone
  end.

Definition tagHasValue (tag : Tag) : bool :=
  match List.find (λ e, Tag_eqb e.1 tag) tagInfoMap with
  | Some e => HasValue e.2
  | None => false
  end.

Definition ParseTagWithValue (s : string) : TagValue :=
  match SplitN2 s ":"%char with
  | p0 :: rest =>
      let tag := ParseTag p0 in
      match rest with
      | p1 :: _ =>
          if tagHasValue tag then mkTagValue tag p1
          else mkTagValue tag EmptyString
      | [] => mkTagValue tag EmptyString
      end
  | [] => mkTagValue TagNone EmptyString
  end.

Definition ParseColumnTags (tagStrs : list string) : list TagValue :=
  filter (λ tv, Is_true (negb (Tag_eqb (tvTag tv) TagNone)))
         (map ParseTagWithValue tagStrs).

Definition HasTag (tags : list TagValue) (tag : Tag) : bool :=
  existsb (λ t, Tag_eqb (tvTag t) tag) tags.

Definition GetTagValue (tags : list TagValue) (tag : Tag) : option string :=
  tvValue <$> List.find (λ t, Tag_eqb (tvTag t) tag) tags.

(** types.go of the exporter: [ParseColumnType] and [ColumnType] are the
    same text as in package main. *)
Record Column : Type := mkColumn {
  Name : string;
  Type_ : ColumnType;
  Tags : list TagValue;
  IsUnique : bool
}.

Record Relation : Type := mkRelation {
  SourceTable : string;
  TargetTable : string;
  RelationType : string;
  ForeignKey : string;
  ReferenceKey : string
}.

Record Table : Type := mkTable {
  TableName : string;
  SheetName : string;
  Columns : list Column;
  Relations : list Relation
}.

(** excel.go *)
Definition ParseColumnName (name : string) : string :=
  let name := TrimSpace name in
  if isEmpty name then EmptyString
  else Join (map upperFirst (Fields name)) EmptyString.

Definition lowerRest (part : string) : string :=
  match part with
  | EmptyString => EmptyString
  | String c r => String (toUpperByte c) (ToLower r)
  end.

Definition formatTableName (name : string) : string :=
  Join (map lowerRest (Fields (TrimSpace name))) EmptyString.

Definition parseTags (tagStr : string) : list string :=
  filter (λ tag, Is_true (negb (isEmpty tag)))
         (map TrimSpace (Split (TrimSpace tagStr) ","%char)).

(** The outcome of [parseSheet]: a table, or the run-time panic of an
    index past the end of the tag or the type row. *)
Inductive SheetResult : Type :=
  | SheetOk (table : Table)
  | SheetPanic.

Fixpoint parseSheetLoop (columnNames columnTags columnTypes : list string)
    (i : nat) : option (list Column) :=
  match columnNames with
  | [] => Some []
  | rawName :: r =>
      let name := ParseColumnName rawName in
      if String.length name <=? 0
      then parseSheetLoop r columnTags columnTypes (S i)
      else
        tagStr ← columnTags !! i;
        let tagValeus := ParseColumnTags (parseTags tagStr) in
        ty ← columnTypes !! i;
        let typeStr := TrimSpace ty in
        if HasTag tagValeus TagDesign
        then parseSheetLoop r columnTags columnTypes (S i)
        else
          rest ← parseSheetLoop r columnTags columnTypes (S i);
          Some (mkColumn name (ParseColumnType typeStr) tagValeus
                  (HasTag tagValeus TagUnique) :: rest)
  end.

Definition parseSheet (sheetName : string) (rows : list (list string))
  : SheetResult :=
  match rows with
  | columnNames :: columnTags :: columnTypes :: _ =>
      match parseSheetLoop columnNames columnTags columnTypes 0 with
      | Some columns =>
          SheetOk (mkTable (formatTableName sheetName) sheetName columns [])
      | None => SheetPanic
      end
  | _ => SheetPanic
  end.

(** SQLite types *)
Inductive SQLiteType : Type :=
  | SQLiteNone | SQLiteInteger | SQLiteReal | SQLiteText | SQLiteBlob
  | SQLiteDateTime | SQLiteBoolean.

Definition SQLiteType_String (st : SQLiteType) : string :=
  match st with
  | SQLiteInteger => "INTEGER"
  | SQLiteReal => "REAL"
  | SQLiteText => "TEXT"
  | SQLiteBlob => "BLOB"
  | SQLiteDateTime => "DATETIME"
  | SQLiteBoolean => "INTEGER"
  | SQLiteNone => "TEXT"
  end.

Definition GetSQLiteType (colType : ColumnType) : SQLiteType :=
  match ctType colType with
  | TTime => SQLiteDateTime
  | ty =>
      if IsArray colType then SQLiteText
      else match ty with
           | TBool => SQLiteBoolean
           | TInt32 | TInt64 => SQLiteInteger
           | TFloat64 => SQLiteReal
           | TString => SQLiteText
           | TSliceOf TUint8 => SQLiteBlob
           | TSliceOf _ => SQLiteText
           | _ => SQLiteText
           end
  end.

Definition sqliteKeywords : list string :=
  ["abort"; "action"; "add"; "after"; "all";
   "alter"; "analyze"; "and"; "as"; "asc";
   "attach"; "autoincrement"; "before"; "begin";
   "between"; "by"; "cascade"; "case"; "cast";
   "check"; "collate"; "column"; "commit"; "conflict";
   "constraint"; "create"; "cross"; "current";
   "current_date"; "current_time"; "current_timestamp";
   "database"; "default"; "deferrable"; "deferred";
   "delete"; "desc"; "detach"; "distinct"; "drop";
   "each"; "else"; "end"; "escape"; "except";
   "exclusive"; "exists"; "explain"; "fail"; "for";
   "foreign"; "from"; "full"; "glob"; "group";
   "having"; "if"; "ignore"; "immediate"; "in";
   "index"; "indexed"; "initially"; "inner"; "insert";
   "instead"; "intersect"; "into"; "is"; "isnull";
   "join"; "key"; "left"; "like"; "limit";
   "match"; "natural"; "no"; "not"; "notnull";
   "null"; "of"; "offset"; "on"; "or"; "order";
   "outer"; "plan"; "pragma"; "primary"; "query";
   "raise"; "recursive"; "references"; "regexp";
   "reindex"; "release"; "rename"; "replace";
   "restrict"; "right"; "rollback"; "row"; "savepoint";
   "select"; "set"; "table"; "temp"; "temporary";
   "then"; "to"; "transaction"; "trigger"; "union";
   "unique"; "update"; "using"; "vacuum"; "values";
   "view"; "virtual"; "when"; "where"; "with";
   "without"].

Definition quoteChars : string := " -+()[]{}.,;".

Definition QuoteIdentifier (name : string) : string :=
  let lowered := ToLower name in
  if inList lowered sqliteKeywords then quoted name
  else if ContainsAny name quoteChars then quoted name
  else name.

(** sqlite.go *)
Definition buildColumnConstraints (col : Column) : string :=
  let constraints :=
    (if HasTag (Tags col) TagNotNull then ["NOT NULL"] else [])
    ++ (if IsUnique col || HasTag (Tags col) TagUnique
        then ["UNIQUE"] else [])
    ++ (match GetTagValue (Tags col) TagDefault with
        | Some defaultVal => ["DEFAULT " +:+ defaultVal]
        | None => []
        end) in
  match constraints with
  | [] => EmptyString
  | _ => " " +:+ Join constraints " "
  end.

Definition columnClause (col : Column) : ColumnDef :=
  mkColumnDef (QuoteIdentifier (Name col))
    (SQLiteType_String (GetSQLiteType (Type_ col))
     +:+ buildColumnConstraints col).

Definition renderClause (d : ColumnDef) : string :=
  "  " +:+ defName d +:+ " " +:+ defRest d.

Definition columnClauses (table : Table) : list ColumnDef :=
  map columnClause (Columns table).

Definition isBelongsTo (rel : Relation) : bool :=
  String.eqb (RelationType rel) "belongsTo".

Definition foreignKeyClause (rel : Relation) : string :=
  "," +:+ nl +:+ "  FOREIGN KEY(" +:+ QuoteIdentifier (ForeignKey rel)
  +:+ ") REFERENCES " +:+ QuoteIdentifier (TargetTable rel) +:+ "(id)".

Definition createTableHead (table : Table) : string :=
  "CREATE TABLE IF NOT EXISTS " +:+ QuoteIdentifier (TableName table)
  +:+ " (" +:+ nl.

Definition buildCreateTableQuery (table : Table) : string :=
  createTableHead table
  +:+ "  id INTEGER PRIMARY KEY AUTOINCREMENT," +:+ nl
  +:+ Join (map renderClause (columnClauses table)) ("," +:+ nl)
  +:+ Join (map foreignKeyClause
              (filter (λ rel, Is_true (isBelongsTo rel)) (Relations table)))
           EmptyString
  +:+ ");" +:+ nl.

Definition createIndexQuery (table : Table) (quotedColumn : string)
  : string :=
  let quotedTableName := QuoteIdentifier (TableName table) in
  let indexName := "idx_" +:+ quotedTableName +:+ "_" +:+ quotedColumn in
  "CREATE INDEX IF NOT EXISTS " +:+ indexName +:+ " ON "
  +:+ quotedTableName +:+ "(" +:+ quotedColumn +:+ ");".

(** The queries [createIndices] executes, in order. *)
Definition createIndices (table : Table) : list string :=
  map (λ col, createIndexQuery table (QuoteIdentifier (Name col)))
      (filter (λ col, Is_true (HasTag (Tags col) TagIndex)) (Columns table))
  ++ map (λ rel, createIndexQuery table (QuoteIdentifier (ForeignKey rel)))
       (filter (λ rel, Is_true (isBelongsTo rel)) (Relations table)).

Definition quotedColumns (table : Table) : list string :=
  map (λ col, QuoteIdentifier (Name col)) (Columns table).

(** The statement [insertTableData] prepares. *)
Definition insertQuery (table : Table) : string :=
  "INSERT INTO " +:+ QuoteIdentifier (TableName table)
  +:+ " (" +:+ Join (quotedColumns table) ", "
  +:+ ") VALUES (" +:+ Join (map (λ _, "?") (Columns table)) ", " +:+ ")".

End Exporter.

(** ** Vocabulary of the specification *)

(** The normalization [ParseColumnType] applies to a declared type. *)
Definition normalizeType (typeStr : string) : string :=
  TrimSpace (ToLower typeStr).

(** A normalized declared type of the form [array<...>]. *)
Definition isArrayDecl (typeStr : string) : bool :=
  HasPrefix typeStr "array<" && HasSuffix typeStr ">".

(** The text between [array<] and [>]. *)
Definition innerType (typeStr : string) : string :=
  TrimSuffix (TrimPrefix typeStr "array<") ">".

(** The tokens the [switch] of [ParseColumnType] names. *)
Definition typeSynonyms : list string :=
  ["int"; "int32"; "integer"; "int64"; "bigint"; "float"; "float64";
   "double"; "bool"; "boolean"; "time"; "datetime"; "timestamp"; "date";
   "[]byte"; "blob"; "string"; "text"; "varchar"].

(** [BaseType] is non-nil exactly when [IsArray] holds, here and in every
    nested base type. *)
Fixpoint baseTypeMatchesIsArray (ct : ColumnType) : Prop :=
  match ct with
  | mkColumnType _ _ isArray None => isArray = false
  | mkColumnType _ _ isArray (Some baseType) =>
      isArray = true ∧ baseTypeMatchesIsArray baseType
  end.

(** An array whose base type is an array again. *)
Definition isArrayOfArray (ct : ColumnType) : bool :=
  IsArray ct &&
  match BaseType ct with
  | Some baseType => IsArray baseType
  | None => false
  end.

Fixpoint hasSpace (s : string) : bool :=
  match s with
  | EmptyString => false
  | String c r => isSpaceByte c || hasSpace r
  end.


(** A word of [strings.Fields]: not empty and free of white space. *)
Definition isWord (w : string) : Prop :=
  w ≠ EmptyString ∧ hasSpace w = false.

(** A header position the builder reads: a non-blank name with a type. *)
Definition headerAt (fieldNames types : list string) (i : nat)
    (name ty : string) : Prop :=
  fieldNames !! i = Some name ∧ types !! i = Some ty
  ∧ TrimSpace name ≠ EmptyString.

Definition tagAt (tags : list string) (i : nat) : string :=
  TrimSpace (default EmptyString (tags !! i)).

(** The entries of [processedNames] map a trimmed name to its format. *)
Definition namesFormatted (processedNames : gmap string string) : Prop :=
  ∀ k v, processedNames !! k = Some v → v = FormatColumnName k.

(** Every header position has its entry in [processedNames]. *)
Definition namesCollected (fieldNames types : list string)
    (processedNames : gmap string string) : Prop :=
  ∀ i name ty, headerAt fieldNames types i name ty →
    processedNames !! TrimSpace name
    = Some (FormatColumnName (TrimSpace name)).

(** The column the third loop builds from the header at position [i]. *)
Definition regularColumn (tags : list string) (i : nat) (name ty : string)
  : Column :=
  mkColumn (FormatColumnName (TrimSpace name))
    (ParseColumnType (TrimSpace ty))
    (parseTagToGORMTag (tagAt tags i))
    (Contains (tagAt tags i) "unique").

(** Where a column of the builder's output comes from: the aggregate or an
    element column of the second loop, or a header position of the third
    loop, which is then neither reserved nor tagged [design]. *)
Inductive columnOrigin (fieldNames types tags : list string)
  : Column → Prop :=
  | fromArray formattedName baseTypeStr :
      columnOrigin fieldNames types tags
        (arrayColumn formattedName (ParseColumnType baseTypeStr))
  | fromElement formattedName baseTypeStr i :
      columnOrigin fieldNames types tags
        (elementColumn formattedName (ParseColumnType baseTypeStr) i)
  | fromHeader i name ty :
      headerAt fieldNames types i name ty →
      IsReservedColumnName (FormatColumnName (TrimSpace name)) = false →
      Contains (tagAt tags i) "design" = false →
      columnOrigin fieldNames types tags (regularColumn tags i name ty).

(** The state of [columnMap] the loops maintain: a column sits under its
    own name and has an origin. *)
Definition columnMapOk (fieldNames types tags : list string)
    (columnMap : gmap string Column) : Prop :=
  ∀ k c, columnMap !! k = Some c →
    Name c = k ∧ columnOrigin fieldNames types tags c.

(** ** Sample data *)

Definition arrayOf (baseType : ColumnType) : ColumnType :=
  mkColumnType (TSliceOf (ctType baseType)) "TEXT" true (Some baseType).

(** A clock reading with a flag for the UTC location, and a [time.Parse]
    that knows two literals; they instantiate the [time] package where a
    concrete run is shown. *)
Record Clock : Type := mkClock {
  clockHour : nat;
  clockMinute : nat;
  clockSecond : nat;
  clockUTC : bool
}.

Definition sampleTimeParse (layout value : string) : Clock + string :=
  if String.eqb layout "2006-01-02 15:04:05"
     && String.eqb value "2024-01-02 15:04:05"
  then inl (mkClock 15 4 5 true)
  else if String.eqb layout "2006-01-02" && String.eqb value "2024-01-02"
  then inl (mkClock 0 0 0 true)
  else inr ("parsing time: cannot parse " +:+ value +:+ " as " +:+ layout).

Definition sampleUTC (t : Clock) : Clock :=
  mkClock (clockHour t) (clockMinute t) (clockSecond t) true.

(** The header of a sheet whose field names are written in lower case. *)
Definition lowerSkillsNames : list string := ["skills"; "skills"; "skills"].
Definition lowerSkillsTypes : list string :=
  ["array<string>"; "array<string>"; "array<string>"].
Definition lowerSkillsTags : list string :=
  [EmptyString; EmptyString; EmptyString].

(** The columns of an array field next to a field whose name extends it. *)
Definition skillsColumns : list Column :=
  [arrayColumn "Skills" Int32Type;
   mkColumn "SkillsA" Int32Type EmptyString false;
   elementColumn "Skills" Int32Type 0].

Definition skillsTable : Table := mkTable "Item" skillsColumns.

Definition itemTable : Table :=
  mkTable "Item" [mkColumn "Name" StringType (gormWrap "index") false].

(** A name with a tab between its two words. *)
Definition tabbedName : string :=
  "Level" +:+ String (ascii_of_nat 9) "Req".

(** ** Further vocabulary *)

(** Every byte of the string is white space. *)
Fixpoint allSpace (s : string) : bool :=
  match s with
  | EmptyString => true
  | String c r => isSpaceByte c && allSpace r
  end.

(** The tags [ParseTag] can yield besides [TagNone]. *)
Definition recognizedTags : list Exporter.Tag :=
  [Exporter.TagUnique; Exporter.TagIndex; Exporter.TagNotNull;
   Exporter.TagDefault; Exporter.TagSize; Exporter.TagValidate].

(** ** types.go: type names and element column names *)

(** [reflect.Type.String] on the types of the registry. *)
Fixpoint typeString (ty : GoType) : string :=
  match ty with
  | TInt32 => "int32"
  | TInt64 => "int64"
  | TFloat64 => "float64"
  | TBool => "bool"
  | TString => "string"
  | TTime => "time.Time"
  | TUint8 => "uint8"
  | TSliceOf elem => "[]" +:+ typeString elem
  end.

(** [GoTypeString]; [None] is the panic of a nil [BaseType]. *)
Definition GoTypeString (ct : ColumnType) : option string :=
  if IsArray ct
  then baseType ← BaseType ct; Some ("[]" +:+ typeString (ctType baseType))
  else Some (typeString (ctType ct)).

Definition isDigitByte (c : ascii) : bool :=
  (48 <=? nat_of_ascii c) && (nat_of_ascii c <=? 57).

(** The value of a run of decimal digits read after [acc]; [None] when a
    byte is not a digit. *)
Fixpoint digitsValue (s : string) (acc : Z) : option Z :=
  match s with
  | EmptyString => Some acc
  | String c r =>
      if isDigitByte c
      then digitsValue r (10 * acc + (Z.of_nat (nat_of_ascii c) - 48))%Z
      else None
  end.

(** [strconv.Atoi] where [int] has 64 bits: an optional sign, at least one
    digit, no other byte, and a value within the range of [int]; [None] is
    the error. *)
Definition Atoi (s : string) : option Z :=
  match s with
  | EmptyString => None
  | String c r =>
      let neg := Ascii.eqb c "-" in
      let digits := if neg || Ascii.eqb c "+" then r else s in
      if isEmpty digits then None
      else
        v ← digitsValue digits 0;
        let n := (if neg then - v else v)%Z in
        if ((- 2 ^ 63 <=? n) && (n <? 2 ^ 63))%Z then Some n else None
  end.

(** [IsArrayColumn]: base name, index and whether the name ends in [_]
    and an integer. *)
Definition IsArrayColumn (name : string) : string * Z * bool :=
  let parts := Split name "_" in
  if length parts <? 2 then (name, (-1)%Z, false)
  else
    match Atoi (default EmptyString (last parts)) with
    | Some index =>
        (Join (take (length parts - 1) parts) "_", index, true)
    | None => (name, (-1)%Z, false)
    end.

(** ** generator.go: what the model template receives *)

(** [filterArrayColumns]: the array columns, one for each name. *)
Fixpoint filterArrayColumnsFrom (columns : list Column)
    (processedNames : gset string) : list Column :=
  match columns with
  | [] => []
  | col :: r =>
      if IsArray (Type_ col) && negb (bool_decide (Name col ∈ processedNames))
      then col :: filterArrayColumnsFrom r ({[Name col]} ∪ processedNames)
      else filterArrayColumnsFrom r processedNames
  end.

Definition filterArrayColumns (columns : list Column) : list Column :=
  filterArrayColumnsFrom columns ∅.

Definition isTimeType (ty : GoType) : bool :=
  match ty with TTime => true | _ => false end.

(** The loop of [collectImports] over the columns: the set of packages and
    the flag [hasArrayField]. *)
Fixpoint collectImportsLoop (columns : list Column)
    (st : gset string * bool) : gset string * bool :=
  match columns with
  | [] => st
  | col :: r =>
      let hasArrayField := if IsArray (Type_ col) then true else st.2 in
      let imports :=
        if isTimeType (ctType (Type_ col)) then {["time"]} ∪ st.1 else st.1 in
      collectImportsLoop r (imports, hasArrayField)
  end.

(** [collectImports]: the packages, sorted by [sort.Strings]. *)
Definition collectImports (columns : list Column) : list string :=
  let '(imports, hasArrayField) :=
    collectImportsLoop columns ({["gorm.io/gorm"]}, false) in
  let imports :=
    if hasArrayField then {["fmt"]} ∪ ({["reflect"]} ∪ imports)
    else imports in
  merge_sort String.le (elements imports).

(** [isEmptyRow]: every cell is blank. *)
Definition isEmptyRow (row : list string) : bool :=
  forallb (λ cell, isEmpty (TrimSpace cell)) row.

(** ** generator.go: the values [generateDatabase] inserts *)

(** The loop over the header row: the position of every trimmed name. *)
Fixpoint headerPositions (cells : list string) (i : nat)
    (columnIndices : gmap string nat) : gmap string nat :=
  match cells with
  | [] => columnIndices
  | name :: r =>
      let name := TrimSpace name in
      headerPositions r (S i)
        (if isEmpty name then columnIndices
         else <[name := i]> columnIndices)
  end.

(** The column whose parser the loop registers under a name: the first
    column of that name. *)
Definition parserColumn (columns : list Column) (name : string)
  : option Column :=
  List.find (λ col, String.eqb (Name col) name) columns.

Section RowValues.
(** [CreateParser(col).Parse(cell)] and [Interface]; [None] is the error,
    which the loop logs. *)
Context {V : Type} (parse : Column → string → option V).

(** The value bound for one column of one row; [None] is [nil]. *)
Definition rowValue (columns : list Column)
    (columnIndices : gmap string nat) (row : list string) (col : Column)
  : option V :=
  match columnIndices !! Name col with
  | None => None
  | Some colIdx =>
      match row !! colIdx with
      | None => None
      | Some cell =>
          match parserColumn columns (Name col) with
          | None => None
          | Some parserCol => parse parserCol cell
          end
      end
  end.

(** The values of the rows [generateDatabase] inserts: the rows from the
    fourth on that are not empty.  [None] is the panic of [rows[0]] on a
    sheet without rows. *)
Definition insertedValues (columns : list Column) (rows : list (list string))
  : option (list (list (option V))) :=
  match rows with
  | [] => None
  | header :: _ =>
      let columnIndices := headerPositions header 0 ∅ in
      Some ((λ row, rowValue columns columnIndices row <$> columns)
              <$> filter (λ row, isEmptyRow row = false) (drop 3 rows))
  end.

End RowValues.

(** The first byte is a lower-case letter. *)
Definition startsLower (s : string) : bool :=
  match s with
  | String c _ => isLowerByte c
  | EmptyString => false
  end.

(** ** typeparser.go: the value parsers *)

(** [strconv.ParseInt(s, 10, bitSize)]: an optional sign, at least one
    digit, no other byte, and a value that fits; [None] is the error. *)
Definition ParseInt (s : string) (bitSize : nat) : option Z :=
  match s with
  | EmptyString => None
  | String c r =>
      let neg := Ascii.eqb c "-" in
      let digits := if neg || Ascii.eqb c "+" then r else s in
      if isEmpty digits then None
      else
        v ← digitsValue digits 0;
        let n := (if neg then - v else v)%Z in
        if ((- 2 ^ (Z.of_nat bitSize - 1) <=? n)
            && (n <? 2 ^ (Z.of_nat bitSize - 1)))%Z
        then Some n else None
  end.

(** [strconv.ParseBool]. *)
Definition ParseBool (s : string) : option bool :=
  if inList s ["1"; "t"; "T"; "TRUE"; "true"; "True"] then Some true
  else if inList s ["0"; "f"; "F"; "FALSE"; "false"; "False"]
  then Some false
  else None.

(** The decimal text of an integer, as [encoding/json] writes it. *)
Definition showZ (n : Z) : string :=
  if (n <? 0)%Z then "-" +:+ Itoa (Z.to_nat (- n)) else Itoa (Z.to_nat n).

(** The errors of the parsers: an error of [strconv] on an input, the text
    of an error of [TimeParser], a failure of [json.Marshal], and the
    wrapping of an error with the name of a column. *)
Inductive ParserError : Type :=
  | NumError (fn input : string)
  | TimeError (msg : string)
  | MarshalError
  | ColumnError (columnName : string) (cause : ParserError).

(** What a parse function returns as [interface{}]. *)
Inductive Parsed (Float Time : Type) : Type :=
  | PInt32 (n : Z)
  | PInt64 (n : Z)
  | PFloat64 (f : Float)
  | PBool (b : bool)
  | PString (s : string)
  | PTime (t : Time).
Arguments PInt32 {Float Time} n.
Arguments PInt64 {Float Time} n.
Arguments PFloat64 {Float Time} f.
Arguments PBool {Float Time} b.
Arguments PString {Float Time} s.
Arguments PTime {Float Time} t.

(** [Value] of types.go: [None] is [reflect.Zero] of the type. *)
Record TypedValue (Float Time : Type) : Type := mkTypedValue {
  tvType : ColumnType;
  tvValue : option (Parsed Float Time)
}.
Arguments mkTypedValue {Float Time} tvType tvValue.
Arguments tvType {Float Time} t.
Arguments tvValue {Float Time} t.

Section ValueParsers.
(** Outside the model: floating-point numbers with [strconv.ParseFloat],
    the [time] package as for [TimeParser], the zero test of [reflect] on
    floats and times, and the JSON text of floats, strings and times. *)
Context {Float Time : Type}.
Variable parseFloat : string → option Float.
Variable timeParse : string → string → Time + string.
Variables Hour Minute Second : Time → nat.
Variable UTC : Time → Time.
Variable floatIsZero : Float → bool.
Variable timeIsZero : Time → bool.
Variable marshalFloat : Float → option string.
Variable marshalString : string → string.
Variable marshalTime : Time → option string.

(** A [ValueParser]: its [Type] and its [Parse]. *)
Definition ValueParser : Type :=
  ColumnType * (string → TypedValue Float Time * option ParserError).

(** [Value.IsZero]. *)
Definition IsZero (v : TypedValue Float Time) : bool :=
  match tvValue v with
  | None => true
  | Some (PInt32 n) | Some (PInt64 n) => (n =? 0)%Z
  | Some (PFloat64 f) => floatIsZero f
  | Some (PBool b) => negb b
  | Some (PString s) => isEmpty s
  | Some (PTime t) => timeIsZero t
  end.

(** [ReflectParser.Parse]. *)
Definition ReflectParser_Parse (columnName : string)
    (columnType : ColumnType)
    (parse : string → Parsed Float Time + ParserError) (value : string)
  : TypedValue Float Time * option ParserError :=
  let value := TrimSpace value in
  if isEmpty value then (mkTypedValue columnType None, None)
  else
    match parse value with
    | inr err =>
        (mkTypedValue columnType None, Some (ColumnError columnName err))
    | inl parsed => (mkTypedValue columnType (Some parsed), None)
    end.

Definition NewReflectParser (columnName : string) (columnType : ColumnType)
    (parse : string → Parsed Float Time + ParserError) : ValueParser :=
  (columnType, ReflectParser_Parse columnName columnType parse).

(** [NewTimeParser], with the [Parse] of [TimeParser]. *)
Definition NewTimeParser (columnName : string) (columnType : ColumnType)
  : ValueParser :=
  (columnType,
   λ value,
     let '(v, err) :=
       TimeParser_Parse timeParse Hour Minute Second UTC columnName
         columnType value in
     (mkTypedValue (valType v)
        match valValue v with
        | Zero _ => None
        | ValueOf t => Some (PTime t)
        end,
      TimeError <$> err)).

(** [createValueParser]: by the kind of the Go type. *)
Definition createValueParser (column : Column) : ValueParser :=
  match ctType (Type_ column) with
  | TInt32 =>
      NewReflectParser (Name column) (Type_ column)
        (λ s, match ParseInt s 32 with
              | Some val => inl (PInt32 val)
              | None => inr (NumError "ParseInt" s)
              end)
  | TInt64 =>
      NewReflectParser (Name column) (Type_ column)
        (λ s, match ParseInt s 64 with
              | Some val => inl (PInt64 val)
              | None => inr (NumError "ParseInt" s)
              end)
  | TFloat64 =>
      NewReflectParser (Name column) (Type_ column)
        (λ s, match parseFloat s with
              | Some val => inl (PFloat64 val)
              | None => inr (NumError "ParseFloat" s)
              end)
  | TBool =>
      NewReflectParser (Name column) (Type_ column)
        (λ s, match ParseBool s with
              | Some val => inl (PBool val)
              | None => inr (NumError "ParseBool" s)
              end)
  | TString =>
      NewReflectParser (Name column) (Type_ column) (λ s, inl (PString s))
  | TTime => NewTimeParser (Name column) (Type_ column)
  | TUint8 | TSliceOf _ =>
      NewReflectParser (Name column) StringType (λ s, inl (PString s))
  end.

(** [json.Marshal] of one element and of the slice of elements. *)
Definition marshalElement (p : Parsed Float Time) : option string :=
  match p with
  | PInt32 n | PInt64 n => Some (showZ n)
  | PFloat64 f => marshalFloat f
  | PBool b => Some (if b then "true" else "false")
  | PString s => Some (marshalString s)
  | PTime t => marshalTime t
  end.

Definition marshalValues (values : list (Parsed Float Time))
  : option string :=
  elems ← mapM marshalElement values;
  Some ("[" +:+ Join elems "," +:+ "]").

(** The loop of the array parser over the items. *)
Fixpoint parseItems (baseParser : ValueParser) (items : list string)
    (values : list (Parsed Float Time))
  : list (Parsed Float Time) + ParserError :=
  match items with
  | [] => inl values
  | item :: r =>
      match baseParser.2 item with
      | (_, Some err) => inr err
      | (parsed, None) =>
          parseItems baseParser r
            (if IsZero parsed then values
             else match tvValue parsed with
                  | Some p => values ++ [p]
                  | None => values
                  end)
      end
  end.

(** [createArrayParser]; [None] is the panic of [Elem] on a type that is
    not a slice. *)
Definition createArrayParser (column : Column) : option ValueParser :=
  match ctType (Type_ column) with
  | TSliceOf elem =>
      let baseParser :=
        createValueParser
          (mkColumn (Name column)
             (mkColumnType elem (SQLType (Type_ column)) false None)
             EmptyString false) in
      Some (NewReflectParser (Name column) (Type_ column)
              (λ s,
                 match parseItems baseParser (Split s ",") [] with
                 | inr err => inr err
                 | inl values =>
                     match marshalValues values with
                     | Some jsonData => inl (PString jsonData)
                     | None => inr MarshalError
                     end
                 end))
  | _ => None
  end.

Definition CreateParser (column : Column) : option ValueParser :=
  if IsArray (Type_ column) then createArrayParser column
  else Some (createValueParser column).

End ValueParsers.

(** ** culmnbuilder.go: the order of the range over [arrayColumnCounts] *)

(** The formatted names of the headers whose type begins with [array<]:
    the keys of [arrayColumnCounts]. *)
Definition arrayNames (fieldNames types : list string) : list string :=
  omap (λ nt : string * string,
          if isEmpty (TrimSpace nt.1) then None
          else if HasPrefix (TrimSpace nt.2) "array<"
               then Some (FormatColumnName (TrimSpace nt.1)) else None)
       (zip fieldNames types).

(** A range over a map visits every entry once, in some order. *)
Definition visitsEachOnce
    (rangeOrder : gmap string nat → list (string * nat)) : Prop :=
  ∀ m, rangeOrder m ≡ₚ map_to_list m.

Definition reverseOrder (m : gmap string nat) : list (string * nat) :=
  reverse (map_to_list m).

(** ** The relation sheet *)

(** What reading the relation sheet gives: relations, an error, or the
    panic of an index out of range. *)
Inductive RelationsResult (R : Type) : Type :=
  | RelationsOk (relations : list R)
  | RelationsErr (msg : string)
  | RelationsPanic.
Arguments RelationsOk {R} relations.
Arguments RelationsErr {R} msg.
Arguments RelationsPanic {R}.

Definition relationHeaders : list string :=
  ["SourceTable"; "TargetTable"; "RelationType"; "ForeignKey";
   "ReferenceKey"].

(** The map of column positions before the header row is read. *)
Definition noIndexes : gmap string Z :=
  list_to_map ((λ h, (h, (-1)%Z)) <$> relationHeaders).

(** The first entry, in the order of the range, that is still [-1]. *)
Definition missingColumn (entries : list (string * Z)) : option string :=
  fst <$> List.find (λ e : string * Z, (e.2 =? -1)%Z) entries.

(** A read of a Go map: the zero value for a missing key. *)
Definition columnOf (colIndexes : gmap string Z) (h : string) : Z :=
  default 0%Z (colIndexes !! h).

(** [row[idx]]; [None] is the panic. *)
Definition cellAt (row : list string) (idx : Z) : option string :=
  if (idx <? 0)%Z then None else row !! Z.to_nat idx.

(** ** generator.go: [parseRelations] *)

(** types.go *)
Record Relation : Type := mkRelation {
  SourceTable : string;
  TargetTable : string;
  RelationType : string;
  ForeignKey : string;
  ReferenceKey : string
}.

(** The header loop: the key written is the cell as it stands, the key
    looked up is the trimmed cell. *)
Fixpoint headerIndexes (cells : list string) (i : nat)
    (expectedHeaders : gmap string Z) : gmap string Z :=
  match cells with
  | [] => expectedHeaders
  | cell :: r =>
      headerIndexes r (S i)
        (if bool_decide (is_Some (expectedHeaders !! TrimSpace cell))
         then <[cell := Z.of_nat i]> expectedHeaders
         else expectedHeaders)
  end.

(** One data row: [Some None] when the row is skipped. *)
Definition relationOfRow (expectedHeaders : gmap string Z)
    (row : list string) : option (option Relation) :=
  if (length row <? 5) || isEmptyRow row then Some None
  else
    source ← cellAt row (columnOf expectedHeaders "SourceTable");
    target ← cellAt row (columnOf expectedHeaders "TargetTable");
    relType ← cellAt row (columnOf expectedHeaders "RelationType");
    foreignKey ← cellAt row (columnOf expectedHeaders "ForeignKey");
    referenceKey ← cellAt row (columnOf expectedHeaders "ReferenceKey");
    let source := TrimSpace source in
    let target := TrimSpace target in
    let relType := TrimSpace relType in
    let foreignKey := TrimSpace foreignKey in
    let referenceKey := TrimSpace referenceKey in
    if isEmpty source || isEmpty target || isEmpty relType then Some None
    else
      let referenceKey :=
        if isEmpty referenceKey then "ID" else referenceKey in
      let foreignKey :=
        if isEmpty foreignKey then source +:+ "ID" else foreignKey in
      let lowered := ToLower relType in
      if inList lowered ["hasone"; "has_one"; "has-one"]
      then Some (Some (mkRelation source target "hasOne" foreignKey
                         referenceKey))
      else if inList lowered ["hasmany"; "has_many"; "has-many"]
      then Some (Some (mkRelation source target "hasMany" foreignKey
                         referenceKey))
      else if inList lowered ["belongsto"; "belongs_to"; "belongs-to"]
      then Some (Some (mkRelation source target "belongsTo" foreignKey
                         referenceKey))
      else Some None.

(** The data loop, appending to [g.Relations]. *)
Fixpoint relationRows (expectedHeaders : gmap string Z)
    (rows : list (list string)) (relations : list Relation)
  : option (list Relation) :=
  match rows with
  | [] => Some relations
  | row :: r =>
      match relationOfRow expectedHeaders row with
      | None => None
      | Some None => relationRows expectedHeaders r relations
      | Some (Some relation) =>
          relationRows expectedHeaders r (relations ++ [relation])
      end
  end.

(** [parseRelations] on the rows of the sheet [#Relation]; [relations] is
    [g.Relations] before the call, and the relations of the result are
    [g.Relations] after it. *)
Definition parseRelations (rangeOrder : gmap string Z → list (string * Z))
    (rows : list (list string)) (relations : list Relation)
  : RelationsResult Relation :=
  if length rows <? 2 then RelationsOk relations
  else
    let expectedHeaders :=
      headerIndexes (default [] (rows !! 0)) 0 noIndexes in
    match missingColumn (rangeOrder expectedHeaders) with
    | Some header =>
        RelationsErr ("required column " +:+ header
                      +:+ " not found in #Relation sheet")
    | None =>
        match relationRows expectedHeaders (drop 1 rows) relations with
        | Some relations => RelationsOk relations
        | None => RelationsPanic
        end
    end.

(** ** Package exporter: relations and options *)

Module ExporterRelations.

(** relation.go *)
Definition normalizeRelationType (relType : string) : string :=
  let relType := ToLower (TrimSpace relType) in
  if inList relType ["hasone"; "has_one"; "has-one"] then "hasOne"
  else if inList relType ["hasmany"; "has_many"; "has-many"] then "hasMany"
  else if inList relType ["belongsto"; "belongs_to"; "belongs-to"]
  then "belongsTo"
  else relType.

Definition contains (slice : list string) (str : string) : bool :=
  existsb (λ s, String.eqb s str) slice.

(** The header loop: the key written and the key looked up are the
    trimmed cell. *)
Fixpoint headerIndexes (cells : list string) (i : nat)
    (colIndexes : gmap string Z) : gmap string Z :=
  match cells with
  | [] => colIndexes
  | cell :: r =>
      let colName := TrimSpace cell in
      headerIndexes r (S i)
        (if bool_decide (is_Some (colIndexes !! colName))
         then <[colName := Z.of_nat i]> colIndexes
         else colIndexes)
  end.

(** One data row of at least [len(colIndexes)] cells. *)
Definition relationOfRow (colIndexes : gmap string Z) (row : list string)
  : option Exporter.Relation :=
  source ← cellAt row (columnOf colIndexes "SourceTable");
  target ← cellAt row (columnOf colIndexes "TargetTable");
  relType ← cellAt row (columnOf colIndexes "RelationType");
  foreignKey ← cellAt row (columnOf colIndexes "ForeignKey");
  referenceKey ← cellAt row (columnOf colIndexes "ReferenceKey");
  let source := TrimSpace source in
  let foreignKey := TrimSpace foreignKey in
  let referenceKey := TrimSpace referenceKey in
  let referenceKey := if isEmpty referenceKey then "ID" else referenceKey in
  let foreignKey :=
    if isEmpty foreignKey then source +:+ "ID" else foreignKey in
  Some (Exporter.mkRelation source (TrimSpace target)
          (normalizeRelationType (TrimSpace relType)) foreignKey
          referenceKey).

Fixpoint relationRows (colIndexes : gmap string Z)
    (rows : list (list string)) : option (list Exporter.Relation) :=
  match rows with
  | [] => Some []
  | row :: r =>
      if length row <? size colIndexes then relationRows colIndexes r
      else
        relation ← relationOfRow colIndexes row;
        relations ← relationRows colIndexes r;
        Some (relation :: relations)
  end.

(** [parseRelations] on the list of sheets and the rows of the sheet
    [#Relation]. *)
Definition parseRelations (rangeOrder : gmap string Z → list (string * Z))
    (sheetList : list string) (rows : list (list string))
  : RelationsResult Exporter.Relation :=
  if negb (contains sheetList "#Relation") then RelationsOk []
  else if length rows <? 2 then RelationsOk []
  else
    let colIndexes := headerIndexes (default [] (rows !! 0)) 0 noIndexes in
    match missingColumn (rangeOrder colIndexes) with
    | Some col =>
        RelationsErr ("required column " +:+ col
                      +:+ " not found in relation sheet")
    | None =>
        match relationRows colIndexes (drop 1 rows) with
        | Some relations => RelationsOk relations
        | None => RelationsPanic
        end
    end.

(** The copy [assignRelationsToTables] makes of a table: name, sheet name
    and columns, and no relation. *)
Definition copyTable (table : Exporter.Table) : Exporter.Table :=
  Exporter.mkTable (Exporter.TableName table) (Exporter.SheetName table)
    (Exporter.Columns table) [].

(** First loop of [assignRelationsToTables]: the copies, and [tableMap]
    from a table name to the index written last. *)
Fixpoint copyTables (tables : list Exporter.Table) (i : nat)
    (tableMap : gmap string nat) : list Exporter.Table * gmap string nat :=
  match tables with
  | [] => ([], tableMap)
  | table :: r =>
      let '(result, tableMap') :=
        copyTables r (S i) (<[Exporter.TableName table := i]> tableMap) in
      (copyTable table :: result, tableMap')
  end.

Definition appendRelation (rel : Exporter.Relation) (table : Exporter.Table)
  : Exporter.Table :=
  Exporter.mkTable (Exporter.TableName table) (Exporter.SheetName table)
    (Exporter.Columns table) (Exporter.Relations table ++ [rel]).

Definition assignRelationsToTables (tables : list Exporter.Table)
    (relations : list Exporter.Relation) : list Exporter.Table :=
  let '(result, tableMap) := copyTables tables 0 ∅ in
  foldl (λ result rel,
           match tableMap !! Exporter.SourceTable rel with
           | Some idx => alter (appendRelation rel) idx result
           | None => result
           end)
        result relations.

(** The index a name has in [tableMap]: that of the last table of the
    name. *)
Fixpoint lastTableNamed (tables : list Exporter.Table) (name : string)
    (i : nat) : option nat :=
  match tables with
  | [] => None
  | table :: r =>
      match lastTableNamed r name (S i) with
      | Some j => Some j
      | None =>
          if String.eqb (Exporter.TableName table) name then Some i else None
      end
  end.

(** A table of the same name follows position [i]. *)
Definition namesakeAfter (tables : list Exporter.Table) (i : nat)
    (name : string) : bool :=
  existsb (λ t, String.eqb (Exporter.TableName t) name) (drop (S i) tables).

End ExporterRelations.

(** registry.go.  A Go map is a reference: an [Options] value holds the
    address of its [ExtraOptions] map, or [None] for the nil map, and the
    maps themselves live in a heap. *)
Module ExporterRegistry.

Record Options : Type := mkOptions {
  OutputDir : string;
  PackageName : string;
  ExtraOptions : option nat;
  TemplateDir : string;
  DBDriver : string;
  DBName : string
}.

(** The exporters registered, by language, and their default options. *)
Record Registry : Type := mkRegistry {
  factories : gset string;
  options : gmap string Options
}.

Definition NewRegistry : Registry := mkRegistry ∅ ∅.

Definition Register (r : Registry) (lang : string) (defaultOpts : Options)
  : Registry :=
  mkRegistry ({[lang]} ∪ factories r) (<[lang := defaultOpts]> (options r)).

(** [GetOptions]; the error is [None]. *)
Definition GetOptions (r : Registry) (lang : string) : option Options :=
  options r !! lang.

Definition orDefault (userValue defaultValue : string) : string :=
  if isEmpty userValue then defaultValue else userValue.

(** The heap of maps, by address, has type [gmap nat (gmap string V)],
    for the values [V] of the extra options. *)
Section Heap.
Context {V : Type}.

(** The content of the map at an address; the nil map has no entry. *)
Definition mapAt (h : gmap nat (gmap string V)) (ref : option nat)
  : gmap string V :=
  match ref with
  | Some a => default ∅ (h !! a)
  | None => ∅
  end.

(** [mergeOptions]: [result := defaultOpts] copies the address of the map,
    not the map, and the loop over the user's entries writes into the map
    at that address. *)
Definition mergeOptions (defaultOpts userOpts : Options)
    (h : gmap nat (gmap string V))
  : Options * gmap nat (gmap string V) :=
  let '(a, h) :=
    match ExtraOptions defaultOpts with
    | Some a => (a, h)
    | None => let a := fresh (dom h) in (a, <[a := ∅]> h)
    end in
  let user := mapAt h (ExtraOptions userOpts) in
  (mkOptions (orDefault (OutputDir userOpts) (OutputDir defaultOpts))
     (orDefault (PackageName userOpts) (PackageName defaultOpts))
     (Some a)
     (orDefault (TemplateDir userOpts) (TemplateDir defaultOpts))
     (orDefault (DBDriver userOpts) (DBDriver defaultOpts))
     (orDefault (DBName userOpts) (DBName defaultOpts)),
   <[a := user ∪ mapAt h (Some a)]> h).

(** [Registry.Export] up to the call of the exporter: the options the
    exporter is given, or the error of [Get], and the heap. *)
Definition Export (r : Registry) (lang : string) (opts : Options)
    (h : gmap nat (gmap string V))
  : (Options + string) * gmap nat (gmap string V) :=
  if bool_decide (lang ∈ factories r) then
    let defaultOpts :=
      default (mkOptions EmptyString EmptyString None EmptyString
                 EmptyString EmptyString) (GetOptions r lang) in
    let '(mergedOpts, h) := mergeOptions defaultOpts opts h in
    (inl mergedOpts, h)
  else (inr ("no exporter registered for language: " +:+ lang), h).

End Heap.

End ExporterRegistry.

(** * Properties *)

(** ** Bytes and strings *)

Ltac byte_cases c := destruct c as [[] [] [] [] [] [] [] []]; vm_compute; try reflexivity; try discriminate; auto.

Lemma toUpperByte_idem c : toUpperByte (toUpperByte c) = toUpperByte c.
Proof. byte_cases c. Qed.

Lemma toLowerByte_toUpperByte c : toLowerByte (toUpperByte c) = toLowerByte c.
Proof. byte_cases c. Qed.

Lemma isSpaceByte_toUpperByte c : isSpaceByte (toUpperByte c) = isSpaceByte c.
Proof. byte_cases c. Qed.

Lemma append_cons c s t : String c s +:+ t = String c (s +:+ t).
Proof. reflexivity. Qed.

Lemma append_empty_l s : EmptyString +:+ s = s.
Proof. reflexivity. Qed.

Lemma append_empty_r s : s +:+ EmptyString = s.
Proof. induction s as [|c s IH]; [reflexivity|]. by rewrite append_cons, IH. Qed.

Lemma append_assoc s t u : (s +:+ t) +:+ u = s +:+ (t +:+ u).
Proof.
  induction s as [|c s IH]; [reflexivity|].
  by rewrite !append_cons, IH.
Qed.

Lemma length_append s t :
  String.length (s +:+ t) = String.length s + String.length t.
Proof.
  induction s as [|c s IH]; [reflexivity|].
  rewrite append_cons. simpl. by rewrite IH.
Qed.

Lemma isEmpty_true s : isEmpty s = true ↔ s = EmptyString.
Proof. destruct s; simpl; split; congruence. Qed.

Lemma isEmpty_false s : isEmpty s = false ↔ s ≠ EmptyString.
Proof. destruct s; simpl; split; congruence. Qed.

Lemma length_mapBytes f s : String.length (mapBytes f s) = String.length s.
Proof. induction s as [|c s IH]; simpl; congruence. Qed.

Lemma mapBytes_append f s t :
  mapBytes f (s +:+ t) = mapBytes f s +:+ mapBytes f t.
Proof.
  induction s as [|c s IH]; [reflexivity|].
  rewrite !append_cons. simpl. by rewrite IH, append_cons.
Qed.

Lemma length_trimLeft s : String.length (trimLeft s) ≤ String.length s.
Proof.
  induction s as [|c s IH]; simpl; [lia|].
  destruct (isSpaceByte c); simpl; lia.
Qed.

Lemma length_trimRight s : String.length (trimRight s) ≤ String.length s.
Proof.
  induction s as [|c s IH]; simpl; [lia|].
  destruct (isSpaceByte c && isEmpty (trimRight s)); simpl; lia.
Qed.

Lemma length_TrimSpace s : String.length (TrimSpace s) ≤ String.length s.
Proof.
  unfold TrimSpace.
  pose proof (length_trimRight (trimLeft s)). pose proof (length_trimLeft s).
  lia.
Qed.

Lemma length_dropBytes n s :
  String.length (dropBytes n s) = String.length s - n.
Proof.
  revert s. induction n as [|n IH]; intros [|c s]; simpl; auto.
Qed.

Lemma length_takeBytes n s :
  String.length (takeBytes n s) = n `min` String.length s.
Proof.
  revert s. induction n as [|n IH]; intros [|c s]; simpl; auto.
Qed.

Lemma takeBytes_dropBytes n s : takeBytes n s +:+ dropBytes n s = s.
Proof.
  revert s. induction n as [|n IH]; intros [|c s]; simpl; auto.
  by rewrite append_cons, IH.
Qed.

Lemma HasPrefix_append s p : HasPrefix (p +:+ s) p = true.
Proof.
  induction p as [|c p IH]; [by destruct s|].
  rewrite append_cons. simpl. by rewrite Ascii.eqb_refl.
Qed.

Lemma HasPrefix_split s p :
  HasPrefix s p = true → s = p +:+ dropBytes (String.length p) s.
Proof.
  revert s. induction p as [|c p IH]; intros s H; [by destruct s|].
  destruct s as [|d s]; simpl in H; [discriminate|].
  destruct (Ascii.eqb_spec d c) as [->|]; [|discriminate].
  rewrite append_cons. simpl. f_equal. by apply IH.
Qed.

Lemma HasSuffix_split s x :
  HasSuffix s x = true →
  s = takeBytes (String.length s - String.length x) s +:+ x.
Proof.
  unfold HasSuffix. intros [_ H]%andb_true_iff.
  apply String.eqb_eq in H.
  rewrite <- (takeBytes_dropBytes (String.length s - String.length x) s) at 1.
  by rewrite H.
Qed.

Lemma dropBytes_append s t : dropBytes (String.length s) (s +:+ t) = t.
Proof. induction s as [|c s IH]; [by destruct t|]. by rewrite append_cons. Qed.

Lemma takeBytes_append s t : takeBytes (String.length s) (s +:+ t) = s.
Proof.
  induction s as [|c s IH]; [by destruct t|].
  rewrite append_cons. simpl. by rewrite IH.
Qed.

Lemma HasSuffix_append s x : HasSuffix (s +:+ x) x = true.
Proof.
  unfold HasSuffix. rewrite length_append.
  apply andb_true_iff. split; [apply Nat.leb_le; lia|].
  replace (String.length s + String.length x - String.length x)
    with (String.length s) by lia.
  rewrite dropBytes_append. apply String.eqb_refl.
Qed.

Lemma quoted_length name : String.length (quoted name) = String.length name + 2.
Proof. unfold quoted. simpl. rewrite length_append. simpl. lia. Qed.

Lemma quoted_ne name : quoted name ≠ name.
Proof. intros H. pose proof (quoted_length name) as L. rewrite H in L. lia. Qed.

(** ** The type registry *)

Lemma isArrayDecl_split s :
  isArrayDecl s = true → s = "array<" +:+ innerType s +:+ ">".
Proof.
  unfold isArrayDecl, innerType. intros [Hp Hs]%andb_true_iff.
  unfold TrimPrefix. rewrite Hp.
  pose proof (HasPrefix_split _ _ Hp) as E.
  set (r := dropBytes (String.length "array<") s) in *.
  assert (Hr : HasSuffix r ">" = true).
  { clearbody r. subst s. clear Hp.
    destruct r as [|c r]; [discriminate|].
    unfold HasSuffix in *. simpl in *.
    by rewrite Nat.sub_0_r in *. }
  unfold TrimSuffix. rewrite Hr.
  rewrite <- (HasSuffix_split _ _ Hr). exact E.
Qed.

Lemma length_innerType s :
  isArrayDecl s = true → String.length (innerType s) < String.length s.
Proof.
  intros H. apply isArrayDecl_split in H.
  rewrite H at 2. rewrite !length_append. simpl. lia.
Qed.

Lemma length_normalizeType t :
  String.length (normalizeType t) ≤ String.length t.
Proof.
  unfold normalizeType, ToLower.
  pose proof (length_TrimSpace (mapBytes toLowerByte t)).
  by rewrite length_mapBytes in *.
Qed.

Lemma parseColumnTypeFuel_enough fuel fuel' t :
  String.length t < fuel → String.length t < fuel' →
  is_Some (parseColumnTypeFuel fuel t)
  ∧ parseColumnTypeFuel fuel t = parseColumnTypeFuel fuel' t.
Proof.
  revert fuel' t. induction fuel as [|fuel IH]; intros fuel' t H1 H2; [lia|].
  destruct fuel' as [|fuel']; [lia|]. simpl.
  fold (normalizeType t). fold (isArrayDecl (normalizeType t)).
  fold (innerType (normalizeType t)).
  destruct (isArrayDecl (normalizeType t)) eqn:E; [|eauto].
  pose proof (length_innerType _ E). pose proof (length_normalizeType t).
  destruct (IH fuel' (innerType (normalizeType t))) as [[b Hb] Heq]; [lia..|].
  rewrite <- Heq, Hb. eauto.
Qed.

(** The recursion of [ParseColumnType] always ends: the fuel given to it is
    never used up. *)
Lemma parseColumnTypeFuel_total t :
  parseColumnTypeFuel (S (String.length t)) t = Some (ParseColumnType t).
Proof.
  unfold ParseColumnType.
  destruct (parseColumnTypeFuel_enough (S (String.length t))
              (S (String.length t)) t) as [[b ->] _]; [lia..|].
  reflexivity.
Qed.

(** The body of [ParseColumnType], as the source writes it. *)
Lemma ParseColumnType_unfold t :
  ParseColumnType t =
    if isArrayDecl (normalizeType t)
    then arrayOf (ParseColumnType (innerType (normalizeType t)))
    else parseScalarType (normalizeType t).
Proof.
  pose proof (parseColumnTypeFuel_total t) as H. simpl in H.
  fold (normalizeType t) in H. fold (isArrayDecl (normalizeType t)) in H.
  fold (innerType (normalizeType t)) in H.
  destruct (isArrayDecl (normalizeType t)) eqn:E.
  - pose proof (length_innerType _ E). pose proof (length_normalizeType t).
    destruct (parseColumnTypeFuel_enough (String.length t)
                (S (String.length (innerType (normalizeType t))))
                (innerType (normalizeType t))) as [_ Heq]; [lia..|].
    rewrite Heq, parseColumnTypeFuel_total in H. simpl in H.
    by injection H as <-.
  - by injection H as <-.
Qed.

Lemma parseScalarType_scalar s : IsArray (parseScalarType s) = false.
Proof.
  unfold parseScalarType.
  repeat match goal with |- context [if ?b then _ else _] => destruct b end;
    reflexivity.
Qed.

Lemma parseScalarType_unknown s :
  inList s typeSynonyms = false → parseScalarType s = StringType.
Proof.
  unfold parseScalarType, typeSynonyms, inList. simpl. intros H.
  repeat (apply orb_false_iff in H as [-> H]). reflexivity.
Qed.

(** C6. For every declared type string [t], [ParseColumnType t] is an array
    exactly when [t], trimmed and lower-cased, has the form [array<...>]; the
    base type is then the result of the same function on the inner text; a
    non-array token outside the synonym table yields the String type; and
    the function yields a [ColumnType] for every input (its recursion never
    runs out, and its result type has no error). *)
Theorem ParseColumnType_array_iff (t : string) :
  (IsArray (ParseColumnType t) = true ↔ isArrayDecl (normalizeType t) = true)
  ∧ (isArrayDecl (normalizeType t) = true →
       normalizeType t = "array<" +:+ innerType (normalizeType t) +:+ ">"
       ∧ BaseType (ParseColumnType t)
         = Some (ParseColumnType (innerType (normalizeType t)))
       ∧ ParseColumnType t
         = arrayOf (ParseColumnType (innerType (normalizeType t))))
  ∧ (isArrayDecl (normalizeType t) = false →
       inList (normalizeType t) typeSynonyms = false →
       ParseColumnType t = StringType)
  ∧ parseColumnTypeFuel (S (String.length t)) t = Some (ParseColumnType t).
Proof.
  rewrite (ParseColumnType_unfold t).
  destruct (isArrayDecl (normalizeType t)) eqn:E.
  - split; [by split|]. split.
    + intros _. split; [by apply isArrayDecl_split|]. by split.
    + split; [discriminate|]. rewrite parseColumnTypeFuel_total.
      by rewrite (ParseColumnType_unfold t), E.
  - split; [by rewrite parseScalarType_scalar|]. split; [discriminate|].
    split; [intros _; apply parseScalarType_unknown|].
    rewrite parseColumnTypeFuel_total.
    by rewrite (ParseColumnType_unfold t), E.
Qed.

Lemma ParseColumnType_array_iff_witness :
  ParseColumnType " Array<INT> " = arrayOf (ParseColumnType "int").
Proof.
  apply (proj1 (proj2 (ParseColumnType_array_iff " Array<INT> "))).
  reflexivity.
Defined.

Lemma ParseColumnType_baseType_iff t :
  baseTypeMatchesIsArray (ParseColumnType t).
Proof.
  remember (S (String.length t)) as n eqn:Hn.
  assert (H : String.length t < n) by lia. clear Hn.
  revert t H. induction n as [|n IH]; intros t H; [lia|].
  rewrite ParseColumnType_unfold.
  destruct (isArrayDecl (normalizeType t)) eqn:E.
  - simpl. split; [done|]. apply IH.
    pose proof (length_innerType _ E). pose proof (length_normalizeType t).
    lia.
  - unfold parseScalarType.
    repeat match goal with |- context [if ?b then _ else _] => destruct b end;
      reflexivity.
Qed.

(** ** Quoting *)

Lemma sqliteKeywords_same : Exporter.sqliteKeywords = sqliteReservedWords.
Proof. reflexivity. Qed.

(** C9 (as amended). [QuoteIdentifier] of package main wraps a name in
    double quotes exactly when its lower-cased form is a reserved word, and
    returns it unchanged otherwise.  [QuoteIdentifier] of the exporter, the
    one its DDL is built with, wraps a name exactly when its lower-cased form
    is a reserved word or it contains a space character or one of
    [-+()[]{}.,;], and returns it unchanged otherwise; other white space,
    such as a tab, does not cause quoting.  [select] is quoted, [name] is
    not, and [Level Req] is quoted by the exporter. *)
Theorem QuoteIdentifier_quotes_exactly (name : string) :
  (QuoteIdentifier name = quoted name
     ↔ inList (ToLower name) sqliteReservedWords = true)
  ∧ (QuoteIdentifier name = name
     ↔ inList (ToLower name) sqliteReservedWords = false)
  ∧ (Exporter.QuoteIdentifier name = quoted name
     ↔ inList (ToLower name) Exporter.sqliteKeywords = true
       ∨ ContainsAny name " -+()[]{}.,;" = true)
  ∧ (Exporter.QuoteIdentifier name = name
     ↔ inList (ToLower name) Exporter.sqliteKeywords = false
       ∧ ContainsAny name " -+()[]{}.,;" = false)
  ∧ QuoteIdentifier "select" = quoted "select"
  ∧ Exporter.QuoteIdentifier "select" = quoted "select"
  ∧ QuoteIdentifier "name" = "name"
  ∧ Exporter.QuoteIdentifier "name" = "name"
  ∧ Exporter.QuoteIdentifier "Level Req" = quoted "Level Req".
Proof.
  pose proof (quoted_ne name) as Hne.
  rewrite sqliteKeywords_same.
  unfold QuoteIdentifier, Exporter.QuoteIdentifier, Exporter.quoteChars.
  rewrite sqliteKeywords_same.
  destruct (inList (ToLower name) sqliteReservedWords) eqn:E1;
    destruct (ContainsAny name " -+()[]{}.,;") eqn:E2;
    repeat split; try reflexivity; try congruence; try tauto;
    intros; try (exfalso; congruence); intuition congruence.
Qed.

(** C9, the claim as stated fails: a name with a tab contains white space,
    yet the exporter returns it unquoted. *)
Lemma QuoteIdentifier_tab_unquoted :
  ¬ (hasSpace tabbedName = true →
     Exporter.QuoteIdentifier tabbedName = quoted tabbedName).
Proof. intros H. specialize (H eq_refl). vm_compute in H. discriminate. Qed.

(** ** Name formatting *)

Lemma hasSpace_append s t : hasSpace (s +:+ t) = hasSpace s || hasSpace t.
Proof.
  induction s as [|c s IH]; [reflexivity|].
  rewrite append_cons. simpl. by rewrite IH, orb_assoc.
Qed.

Lemma trimLeft_noSpace s : hasSpace s = false → trimLeft s = s.
Proof.
  destruct s as [|c s]; [done|]. simpl.
  intros [-> _]%orb_false_iff. done.
Qed.

Lemma trimRight_noSpace s : hasSpace s = false → trimRight s = s.
Proof.
  induction s as [|c s IH]; [done|]. simpl.
  intros [-> H]%orb_false_iff. simpl. by rewrite IH.
Qed.

Lemma TrimSpace_noSpace s : hasSpace s = false → TrimSpace s = s.
Proof.
  intros H. unfold TrimSpace. rewrite (trimLeft_noSpace _ H).
  by apply trimRight_noSpace.
Qed.

Lemma fieldsFrom_noSpace s : hasSpace s = false → fieldsFrom s = (s, []).
Proof.
  induction s as [|c s IH]; [done|]. simpl.
  intros [-> H]%orb_false_iff. by rewrite (IH H).
Qed.

Lemma Fields_noSpace s :
  hasSpace s = false → Fields s = consField s [].
Proof. intros H. unfold Fields. by rewrite fieldsFrom_noSpace. Qed.

Lemma Fields_trimLeft s : Fields (trimLeft s) = Fields s.
Proof.
  induction s as [|c s IH]; [done|]. simpl.
  destruct (isSpaceByte c) eqn:E; [|done].
  rewrite IH. unfold Fields. simpl. rewrite E.
  by destruct (fieldsFrom s).
Qed.

Lemma fieldsFrom_trimRight s : fieldsFrom (trimRight s) = fieldsFrom s.
Proof.
  induction s as [|c s IH]; [done|]. simpl.
  destruct (isSpaceByte c) eqn:E; simpl.
  - destruct (isEmpty (trimRight s)) eqn:E'.
    + apply isEmpty_true in E'. rewrite E' in IH. by rewrite <- IH.
    + simpl. by rewrite E, IH.
  - by rewrite E, IH.
Qed.

Lemma Fields_TrimSpace s : Fields (TrimSpace s) = Fields s.
Proof.
  unfold TrimSpace. rewrite <- (Fields_trimLeft s).
  unfold Fields. by rewrite fieldsFrom_trimRight.
Qed.

Lemma consField_words w ws :
  hasSpace w = false → Forall isWord ws → Forall isWord (consField w ws).
Proof.
  intros Hw Hws. unfold consField. destruct w; simpl; [done|].
  constructor; [|done]. by split.
Qed.

Lemma fieldsFrom_words s :
  hasSpace (fieldsFrom s).1 = false ∧ Forall isWord (fieldsFrom s).2.
Proof.
  induction s as [|c s [IH1 IH2]]; [by split|]. simpl.
  destruct (fieldsFrom s) as [w ws]. simpl in *.
  destruct (isSpaceByte c) eqn:E; simpl.
  - split; [done|]. by apply consField_words.
  - by rewrite E.
Qed.

Lemma Fields_words s : Forall isWord (Fields s).
Proof.
  unfold Fields. pose proof (fieldsFrom_words s) as [H1 H2].
  destruct (fieldsFrom s). by apply consField_words.
Qed.

Lemma Join_empty_cons w ws :
  Join (w :: ws) EmptyString = w +:+ Join ws EmptyString.
Proof. destruct ws; simpl; [by rewrite append_empty_r|done]. Qed.

Lemma hasSpace_upperFirst w : hasSpace (upperFirst w) = hasSpace w.
Proof. destruct w as [|c w]; [done|]. simpl. by rewrite isSpaceByte_toUpperByte. Qed.

Lemma upperFirst_idem w : upperFirst (upperFirst w) = upperFirst w.
Proof. destruct w as [|c w]; [done|]. simpl. by rewrite toUpperByte_idem. Qed.

Lemma upperFirst_append w s :
  w ≠ EmptyString → upperFirst (w +:+ s) = upperFirst w +:+ s.
Proof. by destruct w. Qed.

Lemma ToLower_upperFirst w : ToLower (upperFirst w) = ToLower w.
Proof.
  destruct w as [|c w]; [done|]. unfold ToLower. simpl.
  by rewrite toLowerByte_toUpperByte.
Qed.

(** [FormatColumnName] upper-cases the first byte of every word and glues
    the words together. *)
Lemma FormatColumnName_words n :
  FormatColumnName n = Join (map upperFirst (Fields n)) EmptyString.
Proof.
  unfold FormatColumnName. rewrite Fields_TrimSpace.
  destruct (isEmpty (TrimSpace n)) eqn:E; [|done].
  apply isEmpty_true in E. rewrite <- (Fields_TrimSpace n), E. done.
Qed.

Lemma joined_words_noSpace ws :
  Forall isWord ws → hasSpace (Join (map upperFirst ws) EmptyString) = false.
Proof.
  induction 1 as [|w ws [_ Hw] _ IH]; [done|].
  rewrite map_cons, Join_empty_cons, hasSpace_append, hasSpace_upperFirst.
  by rewrite Hw, IH.
Qed.

Lemma FormatColumnName_noSpace n : hasSpace (FormatColumnName n) = false.
Proof. rewrite FormatColumnName_words. apply joined_words_noSpace, Fields_words. Qed.

Lemma upperFirst_joined ws :
  Forall isWord ws →
  upperFirst (Join (map upperFirst ws) EmptyString)
  = Join (map upperFirst ws) EmptyString.
Proof.
  destruct 1 as [|w ws [Hw _] _]; [done|].
  rewrite map_cons, Join_empty_cons.
  rewrite upperFirst_append by (by destruct w).
  by rewrite upperFirst_idem.
Qed.

Lemma FormatColumnName_idempotent n :
  FormatColumnName (FormatColumnName n) = FormatColumnName n.
Proof.
  rewrite (FormatColumnName_words (FormatColumnName n)).
  rewrite (Fields_noSpace _ (FormatColumnName_noSpace n)).
  unfold consField. destruct (isEmpty (FormatColumnName n)) eqn:E.
  - apply isEmpty_true in E. by rewrite E.
  - simpl. rewrite FormatColumnName_words.
    apply upperFirst_joined, Fields_words.
Qed.

Lemma ToLower_joined ws :
  ToLower (Join (map upperFirst ws) EmptyString)
  = ToLower (Join ws EmptyString).
Proof.
  induction ws as [|w ws IH]; [done|].
  rewrite map_cons, !Join_empty_cons. unfold ToLower in *.
  rewrite !mapBytes_append, IH. f_equal. apply ToLower_upperFirst.
Qed.

Lemma IsReservedColumnName_format n :
  IsReservedColumnName (FormatColumnName n)
  = IsReservedColumnName (Join (Fields n) EmptyString).
Proof.
  unfold IsReservedColumnName.
  by rewrite FormatColumnName_words, ToLower_joined.
Qed.

(** C10 (as amended). For every ASCII name [n] (the text the embedding of
    Go's string functions covers), formatting is idempotent, and the
    formatted name is reserved exactly when the white-space-separated words
    of [n], glued together, are a reserved name whatever their case.  Hence
    a non-reserved name without white space never formats to a reserved
    name, while one with white space may. *)
Theorem FormatColumnName_idempotent_reserved (n : string) :
  isASCII n = true →
  FormatColumnName (FormatColumnName n) = FormatColumnName n
  ∧ IsReservedColumnName (FormatColumnName n)
    = IsReservedColumnName (Join (Fields n) EmptyString)
  ∧ (hasSpace n = false → IsReservedColumnName n = false →
     IsReservedColumnName (FormatColumnName n) = false).
Proof.
  intros _. split; [apply FormatColumnName_idempotent|].
  split; [apply IsReservedColumnName_format|].
  intros Hs Hr. rewrite IsReservedColumnName_format, (Fields_noSpace _ Hs).
  unfold consField. destruct n; [done|]. exact Hr.
Qed.

Lemma FormatColumnName_idempotent_reserved_witness :
  FormatColumnName (FormatColumnName " level req ") = FormatColumnName " level req "
  ∧ IsReservedColumnName (FormatColumnName "level") = false.
Proof.
  split.
  - apply (FormatColumnName_idempotent_reserved " level req "). reflexivity.
  - apply (FormatColumnName_idempotent_reserved "level"); reflexivity.
Defined.

(** C10, the claim as stated fails: [i d] is not a reserved name, and it
    formats to [ID], which is one. *)
Lemma FormatColumnName_makes_reserved :
  ¬ (IsReservedColumnName "i d" = false →
     IsReservedColumnName (FormatColumnName "i d") = false).
Proof. intros H. specialize (H eq_refl). vm_compute in H. discriminate. Qed.

(** ** Loops *)

Lemma rangeFrom_invariant {A St : Type} (P : St → Prop)
    (body : nat → A → St → St + string) (l : list A) i0 s s' :
  P s →
  (∀ j x s1 s2, l !! j = Some x → P s1 → body (i0 + j) x s1 = inl s2 → P s2) →
  rangeFrom body i0 l s = inl s' → P s'.
Proof.
  revert i0 s. induction l as [|x l IH]; intros i0 s Hs Hstep H; simpl in H.
  - by injection H as <-.
  - destruct (body i0 x s) as [s1|e] eqn:E; [|discriminate].
    apply (IH (S i0) s1); [| |done].
    + apply (Hstep 0 x s s1); [done|done|]. by rewrite Nat.add_0_r.
    + intros j y s2 s3 Hj. replace (S i0 + j) with (i0 + S j) by lia.
      by apply (Hstep (S j)).
Qed.

Lemma rangeFrom_error {A St : Type} (Q : string → Prop)
    (body : nat → A → St → St + string) (l : list A) i0 s e :
  (∀ j x s1 e', l !! j = Some x → body (i0 + j) x s1 = inr e' → Q e') →
  rangeFrom body i0 l s = inr e → Q e.
Proof.
  revert i0 s. induction l as [|x l IH]; intros i0 s Hstep H; simpl in H.
  - discriminate.
  - destruct (body i0 x s) as [s1|e1] eqn:E.
    + apply (IH (S i0) s1); [|done].
      intros j y s2 e' Hj. replace (S i0 + j) with (i0 + S j) by lia.
      by apply (Hstep (S j)).
    + injection H as <-. apply (Hstep 0 x s e1); [done|].
      by rewrite Nat.add_0_r.
Qed.

Lemma rangeFrom_fails {A St : Type}
    (body : nat → A → St → St + string) (l : list A) i0 j x s :
  l !! j = Some x →
  (∀ s1, ∃ e, body (i0 + j) x s1 = inr e) →
  ∃ e, rangeFrom body i0 l s = inr e.
Proof.
  revert i0 j s. induction l as [|y l IH]; intros i0 j s Hj Hbad; [done|].
  simpl. destruct j as [|j]; simpl in Hj.
  - injection Hj as ->. destruct (Hbad s) as [e He].
    rewrite Nat.add_0_r in He. rewrite He. eauto.
  - destruct (body i0 y s) as [s1|e] eqn:E; [|eauto].
    apply (IH (S i0) j s1 Hj). intros s2.
    replace (S i0 + j) with (i0 + S j) by lia. apply Hbad.
Qed.

(** ** The column builder *)

(** The first loop cannot fail. *)
Lemma collect_total (types l : list string) i0 st :
  ∃ st', rangeFrom (collectStep types) i0 l st = inl st'.
Proof.
  revert i0 st. induction l as [|x l IH]; intros i0 st; simpl; [eauto|].
  unfold collectStep at 1.
  destruct (types !! i0); [|apply IH].
  destruct (isEmpty (TrimSpace x)); [apply IH|].
  destruct (HasPrefix _ _); apply IH.
Qed.

Lemma collect_names (fieldNames types l : list string) i0 st st' :
  (∀ j x, l !! j = Some x → fieldNames !! (i0 + j) = Some x) →
  namesFormatted st.1 →
  rangeFrom (collectStep types) i0 l st = inl st' →
  namesFormatted st'.1
  ∧ (∀ k v, st.1 !! k = Some v → st'.1 !! k = Some v)
  ∧ (∀ j name ty, l !! j = Some name → types !! (i0 + j) = Some ty →
       TrimSpace name ≠ EmptyString →
       st'.1 !! TrimSpace name = Some (FormatColumnName (TrimSpace name))).
Proof.
  revert i0 st. induction l as [|x l IH]; intros i0 st Hl Hst H; simpl in H.
  - injection H as <-. split; [done|]. split; [done|]. intros j ? ? Hj. done.
  - assert (Hl' : ∀ j y, l !! j = Some y → fieldNames !! (S i0 + j) = Some y).
    { intros j y Hj. replace (S i0 + j) with (i0 + S j) by lia.
      by apply Hl. }
    destruct (collectStep types i0 x st) as [st1|e] eqn:E; [|discriminate].
    assert (Hst1 : namesFormatted st1.1
      ∧ (∀ k v, st.1 !! k = Some v → st1.1 !! k = Some v)
      ∧ (∀ ty, types !! i0 = Some ty → TrimSpace x ≠ EmptyString →
           st1.1 !! TrimSpace x = Some (FormatColumnName (TrimSpace x)))).
    { unfold collectStep in E. destruct (types !! i0) as [ty|] eqn:Ety.
      - destruct (isEmpty (TrimSpace x)) eqn:Ee.
        + injection E as <-. split; [done|]. split; [done|].
          intros ? _ Hne. by apply isEmpty_true in Ee.
        + assert (st1.1 = <[TrimSpace x := FormatColumnName (TrimSpace x)]> st.1)
            as ->.
          { destruct (HasPrefix _ _); by injection E as <-. }
          split; [|split].
          * intros k v. rewrite lookup_insert. case_decide; [|by apply Hst].
            subst k. by intros [= <-].
          * intros k v Hk. rewrite lookup_insert. case_decide; [|done].
            subst k. by rewrite (Hst _ _ Hk).
          * intros ? _ _. by rewrite lookup_insert_eq.
      - injection E as <-. split; [done|]. split; [done|]. done. }
    destruct Hst1 as (F1 & M1 & N1).
    destruct (IH (S i0) st1 Hl' F1 H) as (F2 & M2 & N2).
    split; [done|]. split; [by auto|].
    intros [|j] name ty Hj Hty Hne; simpl in Hj.
    + injection Hj as ->. rewrite Nat.add_0_r in Hty. by apply M2, (N1 ty).
    + apply (N2 j name ty); [done| |done].
      by replace (S i0 + j) with (i0 + S j) by lia.
Qed.

Lemma collect_spec (fieldNames types : list string) :
  ∃ processedNames arrayColumnCounts,
    rangeFrom (collectStep types) 0 fieldNames (∅, ∅)
    = inl (processedNames, arrayColumnCounts)
    ∧ namesFormatted processedNames
    ∧ namesCollected fieldNames types processedNames.
Proof.
  destruct (collect_total types fieldNames 0 (∅, ∅)) as [[pn cnt] H].
  exists pn, cnt. split; [done|].
  destruct (collect_names fieldNames types fieldNames 0 (∅, ∅) (pn, cnt))
    as (F & _ & N); [done| |done|].
  { intros k v. simpl. by rewrite lookup_empty. }
  split; [done|]. intros i name ty (Hn & Ht & Hne). by apply (N i name ty).
Qed.

Lemma addElementColumns_ok fieldNames types tags fn s count m :
  columnMapOk fieldNames types tags m →
  columnMapOk fieldNames types tags
    (addElementColumns fn (ParseColumnType s) count m).
Proof.
  unfold addElementColumns. generalize (seq 0 count). intros l.
  revert m. induction l as [|i l IH]; intros m Hm; simpl; [done|].
  apply IH. intros k c. rewrite lookup_insert. case_decide; [|by apply Hm].
  intros [= <-]. split; [done|]. constructor.
Qed.

Lemma arrayStep_ok fieldNames types tags pn entry m m' :
  columnMapOk fieldNames types tags m →
  arrayStep fieldNames types pn entry m = inl m' →
  columnMapOk fieldNames types tags m'.
Proof.
  intros Hm. unfold arrayStep. destruct entry as [origName count].
  destruct (IsReservedColumnName _); [discriminate|].
  destruct (isEmpty _); [by intros [= <-]|]. intros [= <-].
  apply addElementColumns_ok. intros k c. rewrite lookup_insert.
  case_decide; [|by apply Hm]. intros [= <-]. split; [done|]. constructor.
Qed.

Lemma regularStep_ok (fieldNames types tags : list string) pn i x m m' :
  namesFormatted pn → namesCollected fieldNames types pn →
  fieldNames !! i = Some x →
  columnMapOk fieldNames types tags m →
  regularStep types tags pn i x m = inl m' →
  columnMapOk fieldNames types tags m'.
Proof.
  intros Hpn Hcol Hx Hm. unfold regularStep.
  destruct (types !! i) as [ty|] eqn:Ety; [|by intros [= <-]].
  destruct (isEmpty (TrimSpace x)) eqn:Ee; [by intros [= <-]|].
  apply isEmpty_false in Ee.
  rewrite (Hcol i x ty) by done. simpl.
  destruct (IsReservedColumnName _) eqn:Er; [discriminate|].
  case_bool_decide; [by intros [= <-]|].
  fold (tagAt tags i).
  destruct (Contains (tagAt tags i) "design") eqn:Ed; [by intros [= <-]|].
  intros [= <-]. intros k c. rewrite lookup_insert.
  case_decide; [|by apply Hm]. intros [= <-]. split; [done|].
  by apply (fromHeader fieldNames types tags i x ty).
Qed.

(** Every run of the builder that returns columns went through the three
    loops, and its columns are the sorted values of a well-kept map. *)
Lemma BuildColumnsIn_ok rangeOrder fieldNames types tags columns :
  BuildColumnsIn rangeOrder fieldNames types tags = BuildOk columns →
  ∃ columnMap,
    columnMapOk fieldNames types tags columnMap
    ∧ columns = sortColumns ((map_to_list columnMap).*2).
Proof.
  unfold BuildColumnsIn.
  destruct (collect_spec fieldNames types) as (pn & cnt & -> & Hpn & Hcol).
  destruct (rangeFrom _ 0 (rangeOrder cnt) ∅) as [m1|e] eqn:E1; [|discriminate].
  destruct (rangeFrom _ 0 fieldNames m1) as [m2|e] eqn:E2; [|discriminate].
  intros [= <-]. exists m2. split; [|done].
  assert (H1 : columnMapOk fieldNames types tags m1).
  { eapply (rangeFrom_invariant (columnMapOk fieldNames types tags));
      [| |exact E1].
    - intros k c. by rewrite lookup_empty.
    - intros j x s1 s2 _ Hs1. by apply arrayStep_ok. }
  eapply (rangeFrom_invariant (columnMapOk fieldNames types tags));
    [exact H1| |exact E2].
  intros j x s1 s2 Hj Hs1. by apply regularStep_ok.
Qed.

Lemma BuildColumnsIn_err rangeOrder fieldNames types tags e :
  BuildColumnsIn rangeOrder fieldNames types tags = BuildErr e →
  ∃ n, IsReservedColumnName n = true ∧ e = reservedError n.
Proof.
  unfold BuildColumnsIn.
  destruct (collect_spec fieldNames types) as (pn & cnt & -> & Hpn & Hcol).
  set (Q := λ e : string,
         ∃ n, IsReservedColumnName n = true ∧ e = reservedError n).
  destruct (rangeFrom _ 0 (rangeOrder cnt) ∅) as [m1|e1] eqn:E1.
  - destruct (rangeFrom _ 0 fieldNames m1) as [m2|e2] eqn:E2; [discriminate|].
    intros [= <-]. apply (rangeFrom_error Q _ _ _ _ _) in E2; [done|].
    intros j x s1 e' _. unfold regularStep.
    destruct (types !! _); [|discriminate].
    destruct (isEmpty _); [discriminate|].
    destruct (IsReservedColumnName _) eqn:Er; [intros [= <-]; by eexists|].
    case_bool_decide; [discriminate|].
    destruct (Contains _ _); discriminate.
  - intros [= <-]. apply (rangeFrom_error Q _ _ _ _ _) in E1; [done|].
    intros j [origName count] s1 e' _. unfold arrayStep.
    destruct (IsReservedColumnName _) eqn:Er; [intros [= <-]; by eexists|].
    destruct (isEmpty _); discriminate.
Qed.

Lemma BuildColumnsIn_origin rangeOrder fieldNames types tags columns c :
  BuildColumnsIn rangeOrder fieldNames types tags = BuildOk columns →
  c ∈ columns → columnOrigin fieldNames types tags c.
Proof.
  intros (m & Hm & ->)%BuildColumnsIn_ok Hc.
  unfold sortColumns in Hc. rewrite merge_sort_Permutation in Hc.
  apply list_elem_of_fmap in Hc as ([k c'] & -> & Hkc).
  apply elem_of_map_to_list in Hkc. by apply (Hm k c').
Qed.

Lemma columnMapOk_names fieldNames types tags (m : gmap string Column) :
  columnMapOk fieldNames types tags m →
  Name <$> (map_to_list m).*2 = (map_to_list m).*1.
Proof.
  intros Hm.
  assert (H : ∀ kc, kc ∈ map_to_list m → Name kc.2 = kc.1).
  { intros [k c] Hkc%elem_of_map_to_list. by apply (Hm k c). }
  induction (map_to_list m) as [|kc l IH]; [done|]. simpl. f_equal.
  - apply H. by left.
  - apply IH. intros kc' Hkc'. apply H. by right.
Qed.

Lemma nameLe_total : Total nameLe.
Proof.
  intros a b. unfold nameLe, String.le.
  destruct (String.leb_total (Name a) (Name b)) as [H|H]; rewrite H; auto.
Qed.

Lemma columnOrigin_baseType fieldNames types tags c :
  columnOrigin fieldNames types tags c → baseTypeMatchesIsArray (Type_ c).
Proof.
  destruct 1; simpl.
  - split; [done|]. apply ParseColumnType_baseType_iff.
  - apply ParseColumnType_baseType_iff.
  - apply ParseColumnType_baseType_iff.
Qed.

(** C3 (as amended). For every [ColumnType] the program produces, the result
    of [ParseColumnType] on any string and the type of every column the
    builder returns, [BaseType] is non-nil exactly when [IsArray] holds, at
    every nesting level.  An array of arrays is produced exactly for a
    declared type whose inner text is again of the form [array<...>]: the
    parser recurses and does not flatten. *)
Theorem produced_types_baseType_iff_isArray :
  (∀ t, baseTypeMatchesIsArray (ParseColumnType t))
  ∧ (∀ rangeOrder fieldNames types tags columns c,
       BuildColumnsIn rangeOrder fieldNames types tags = BuildOk columns →
       c ∈ columns → baseTypeMatchesIsArray (Type_ c))
  ∧ (∀ t, isArrayOfArray (ParseColumnType t) = true
          ↔ isArrayDecl (normalizeType t) = true
            ∧ isArrayDecl (normalizeType (innerType (normalizeType t)))
              = true).
Proof.
  split; [apply ParseColumnType_baseType_iff|]. split.
  - intros rangeOrder fieldNames types tags columns c H Hc.
    eapply columnOrigin_baseType, BuildColumnsIn_origin; eauto.
  - intros t. rewrite (ParseColumnType_unfold t). unfold isArrayOfArray.
    destruct (isArrayDecl (normalizeType t)) eqn:E; simpl.
    + rewrite (ParseColumnType_unfold (innerType (normalizeType t))).
      destruct (isArrayDecl (normalizeType (innerType (normalizeType t))));
        simpl; [tauto|].
      rewrite parseScalarType_scalar. intuition congruence.
    + rewrite parseScalarType_scalar. simpl. intuition congruence.
Qed.

Lemma produced_types_baseType_iff_isArray_witness :
  baseTypeMatchesIsArray (arrayOf StringType).
Proof.
  apply (proj1 (proj2 produced_types_baseType_iff_isArray) map_to_list
           ["Skills"; "Skills"] ["array<string>"; "array<string>"] []
           [arrayColumn "Skills" StringType;
            elementColumn "Skills" StringType 0;
            elementColumn "Skills" StringType 1]
           (arrayColumn "Skills" StringType)).
  - vm_compute. reflexivity.
  - by left.
Defined.

(** C3, the claim as stated fails: the declared type [array<array<int>>]
    parses to an array whose base type is an array. *)
Lemma ParseColumnType_nested_array :
  isArrayOfArray (ParseColumnType "array<array<int>>") = true.
Proof. reflexivity. Qed.

(** C5 (as amended). In [BuildColumns] the reserved-name check comes before
    the [design] check: a header with a reserved name fails the build
    whatever its tag.  When the build succeeds, every column it returns is
    the aggregate or an element column of an array field (which the builder
    expands whatever the tag), or was built from a header position whose tag
    does not contain [design] and whose name is not reserved. *)
Theorem design_check_follows_reserved_check
    (rangeOrder : gmap string nat → list (string * nat))
    (fieldNames types tags : list string) :
  (∀ i name ty, headerAt fieldNames types i name ty →
     IsReservedColumnName (FormatColumnName (TrimSpace name)) = true →
     ∃ e, BuildColumnsIn rangeOrder fieldNames types tags = BuildErr e)
  ∧ (∀ columns c,
       BuildColumnsIn rangeOrder fieldNames types tags = BuildOk columns →
       c ∈ columns → columnOrigin fieldNames types tags c).
Proof.
  split; [|intros columns c; apply BuildColumnsIn_origin].
  intros i name ty Hh Hr. unfold BuildColumnsIn.
  destruct (collect_spec fieldNames types) as (pn & cnt & -> & Hpn & Hcol).
  destruct (rangeFrom _ 0 (rangeOrder cnt) ∅) as [m1|e1]; [|eauto].
  destruct (rangeFrom_fails (regularStep types tags pn) fieldNames 0 i name m1)
    as [e ->]; [apply Hh| |eauto].
  intros s1. simpl. unfold regularStep.
  pose proof Hh as (Hn & Ht & Hne). apply isEmpty_false in Hne.
  rewrite Ht, Hne, (Hcol i name ty Hh). simpl. rewrite Hr. eauto.
Qed.

Lemma design_check_follows_reserved_check_witness :
  (∃ e, BuildColumns ["id"] ["int"] ["design"] = BuildErr e)
  ∧ columnOrigin ["name"; "note"] ["string"; "string"] ["unique"; "design"]
      (regularColumn ["unique"; "design"] 0 "name" "string").
Proof.
  split.
  - apply (proj1 (design_check_follows_reserved_check map_to_list
                    ["id"] ["int"] ["design"]) 0 "id" "int").
    + repeat split; vm_compute; congruence.
    + reflexivity.
  - apply (proj2 (design_check_follows_reserved_check map_to_list
                    ["name"; "note"] ["string"; "string"] ["unique"; "design"])
             [regularColumn ["unique"; "design"] 0 "name" "string"]).
    + vm_compute. reflexivity.
    + by left.
Defined.

(** C5, the claim as stated fails: a header tagged [design] whose name is
    reserved is not dropped before the reserved-name check; the build fails
    on it. *)
Lemma design_column_hits_reserved_check :
  BuildColumns ["id"] ["int"] ["design"] ≠ BuildOk []
  ∧ BuildColumns ["id"] ["int"] ["design"] = BuildErr (reservedError "Id").
Proof. split; [vm_compute; discriminate|vm_compute; reflexivity]. Qed.

(** ** Colliding headers *)

Lemma collect_no_arrays (fieldNames types : list string) pn cnt :
  (∀ j ty, types !! j = Some ty → HasPrefix (TrimSpace ty) "array<" = false) →
  rangeFrom (collectStep types) 0 fieldNames (∅, ∅) = inl (pn, cnt) →
  cnt = ∅.
Proof.
  intros Hty H.
  apply (rangeFrom_invariant
           (λ st : gmap string string * gmap string nat, st.2 = ∅)
           _ _ _ _ _ eq_refl) in H; [done|].
  intros j x s1 s2 _ Hs1. unfold collectStep. simpl.
  destruct (types !! j) as [ty|] eqn:Ety; [|by intros [= <-]].
  destruct (isEmpty _); [by intros [= <-]|].
  rewrite (Hty j ty Ety). by intros [= <-].
Qed.

(** One round of the third loop on a sheet without reserved names: it does
    not fail, keeps what the map holds, and adds the header's column exactly
    when the header is not tagged [design] and its name is still free. *)
Lemma regularStep_round (fieldNames types tags : list string) pn i x m :
  namesCollected fieldNames types pn →
  (∀ j n t, headerAt fieldNames types j n t →
     IsReservedColumnName (FormatColumnName (TrimSpace n)) = false) →
  fieldNames !! i = Some x →
  ∃ m1, regularStep types tags pn i x m = inl m1
    ∧ (∀ k c, m !! k = Some c → m1 !! k = Some c)
    ∧ (∀ t, types !! i = Some t → TrimSpace x ≠ EmptyString →
         Contains (tagAt tags i) "design" = false →
         m !! FormatColumnName (TrimSpace x) = None →
         m1 !! FormatColumnName (TrimSpace x)
         = Some (regularColumn tags i x t))
    ∧ (∀ k, m !! k = None →
         (∀ t, types !! i = Some t → TrimSpace x ≠ EmptyString →
            FormatColumnName (TrimSpace x) = k →
            Contains (tagAt tags i) "design" = true) →
         m1 !! k = None).
Proof.
  intros Hcol Hres Hx. unfold regularStep.
  destruct (types !! i) as [ty|] eqn:Ety;
    [|exists m; repeat split; auto; intros; discriminate].
  destruct (isEmpty (TrimSpace x)) eqn:Ee.
  { apply isEmpty_true in Ee. exists m. repeat split; auto.
    intros t _ Hne. done. }
  apply isEmpty_false in Ee.
  assert (Hh : headerAt fieldNames types i x ty) by done.
  rewrite (Hcol i x ty Hh). simpl. rewrite (Hres i x ty Hh).
  fold (tagAt tags i).
  case_bool_decide as Hin.
  { exists m. repeat split; auto.
    intros t _ _ _ Hnone. rewrite Hnone in Hin. by destruct Hin. }
  destruct (Contains (tagAt tags i) "design") eqn:Ed.
  { exists m. repeat split; auto. intros; discriminate. }
  eexists. split; [done|]. split; [|split].
  - intros k c Hk. rewrite lookup_insert. case_decide; [|done].
    subst k. destruct Hin. by rewrite Hk.
  - intros t [= <-] _ _ _. by rewrite lookup_insert_eq.
  - intros k Hk Hd. rewrite lookup_insert. case_decide; [|done].
    specialize (Hd ty eq_refl Ee ltac:(done)). discriminate.
Qed.

Lemma regular_pass_first (fieldNames types tags : list string) pn :
  namesCollected fieldNames types pn →
  (∀ j n t, headerAt fieldNames types j n t →
     IsReservedColumnName (FormatColumnName (TrimSpace n)) = false) →
  ∀ l i0 m,
    (∀ j x, l !! j = Some x → fieldNames !! (i0 + j) = Some x) →
    ∃ m', rangeFrom (regularStep types tags pn) i0 l m = inl m'
      ∧ (∀ k c, m !! k = Some c → m' !! k = Some c)
      ∧ (∀ j n t,
           l !! j = Some n → types !! (i0 + j) = Some t →
           TrimSpace n ≠ EmptyString →
           Contains (tagAt tags (i0 + j)) "design" = false →
           m !! FormatColumnName (TrimSpace n) = None →
           (∀ j' n' t', j' < j → l !! j' = Some n' →
              types !! (i0 + j') = Some t' → TrimSpace n' ≠ EmptyString →
              FormatColumnName (TrimSpace n') = FormatColumnName (TrimSpace n) →
              Contains (tagAt tags (i0 + j')) "design" = true) →
           m' !! FormatColumnName (TrimSpace n)
           = Some (regularColumn tags (i0 + j) n t)).
Proof.
  intros Hcol Hres. induction l as [|x l IH]; intros i0 m Hl; simpl.
  { exists m. repeat split; auto. intros j ? ? Hj. done. }
  destruct (regularStep_round fieldNames types tags pn i0 x m Hcol Hres)
    as (m1 & -> & P1 & A1 & N1).
  { specialize (Hl 0 x eq_refl). by rewrite Nat.add_0_r in Hl. }
  destruct (IH (S i0) m1) as (m' & -> & P2 & A2).
  { intros j y Hj. replace (S i0 + j) with (i0 + S j) by lia. by apply Hl. }
  exists m'. split; [done|]. split; [by auto|].
  intros [|j] n t Hj Ht Hne Hd Hfree Hbefore; simpl in Hj.
  - injection Hj as ->. rewrite Nat.add_0_r in *. by apply P2, A1.
  - replace (i0 + S j) with (S i0 + j) in * by lia.
    apply A2; [done..| |].
    + apply N1; [done|]. intros t0 Ht0 Hne0 Heq.
      specialize (Hbefore 0 x t0). rewrite Nat.add_0_r in Hbefore.
      apply Hbefore; [lia|done..].
    + intros j' n' t' Hlt Hj' Ht' Hne' Heq.
      specialize (Hbefore (S j') n' t').
      replace (i0 + S j') with (S i0 + j') in Hbefore by lia.
      apply Hbefore; [lia|done..].
Qed.

(** On a sheet without array types and without reserved names the build
    succeeds, whatever names collide, and each name gets the column of the
    first header that bears it and is not tagged [design]. *)
Lemma BuildColumnsIn_first_header rangeOrder
    (fieldNames types tags : list string) i name ty :
  rangeOrder ∅ = [] →
  (∀ j t, types !! j = Some t → HasPrefix (TrimSpace t) "array<" = false) →
  (∀ j n t, headerAt fieldNames types j n t →
     IsReservedColumnName (FormatColumnName (TrimSpace n)) = false) →
  headerAt fieldNames types i name ty →
  Contains (tagAt tags i) "design" = false →
  (∀ j n t, j < i → headerAt fieldNames types j n t →
     FormatColumnName (TrimSpace n) = FormatColumnName (TrimSpace name) →
     Contains (tagAt tags j) "design" = true) →
  ∃ columns,
    BuildColumnsIn rangeOrder fieldNames types tags = BuildOk columns
    ∧ regularColumn tags i name ty ∈ columns.
Proof.
  intros Hord Hty Hres Hh Hd Hfirst. unfold BuildColumnsIn.
  destruct (collect_spec fieldNames types) as (pn & cnt & E0 & Hpn & Hcol).
  rewrite E0. rewrite (collect_no_arrays _ _ _ _ Hty E0), Hord. simpl.
  destruct (regular_pass_first fieldNames types tags pn Hcol Hres
              fieldNames 0 ∅) as (m' & -> & _ & A); [done|].
  eexists. split; [done|].
  unfold sortColumns. rewrite merge_sort_Permutation.
  apply list_elem_of_fmap.
  exists (FormatColumnName (TrimSpace name), regularColumn tags i name ty).
  split; [done|]. apply elem_of_map_to_list.
  destruct Hh as (Hn & Ht & Hne).
  apply (A i name ty); [done..|by rewrite lookup_empty|].
  intros j' n' t' Hlt Hj' Ht' Hne' Heq. by apply (Hfirst j' n' t').
Qed.

(** C7 (as amended). The builder does not report two headers that format
    to the same name: its only error is the reserved-name error.  The
    columns it returns bear pairwise distinct names, in ascending order.  On
    a sheet without array types and without reserved names the build
    succeeds whatever names collide, and a name gets the column of the first
    header that bears it and is not tagged [design]; later headers of that
    name are skipped. *)
Theorem BuildColumns_names_unique_no_collision_error
    (rangeOrder : gmap string nat → list (string * nat))
    (fieldNames types tags : list string) :
  (∀ columns,
     BuildColumnsIn rangeOrder fieldNames types tags = BuildOk columns →
     NoDup (Name <$> columns) ∧ Sorted String.le (Name <$> columns))
  ∧ (∀ e, BuildColumnsIn rangeOrder fieldNames types tags = BuildErr e →
       ∃ n, IsReservedColumnName n = true ∧ e = reservedError n)
  ∧ (rangeOrder ∅ = [] →
     (∀ j t, types !! j = Some t →
        HasPrefix (TrimSpace t) "array<" = false) →
     (∀ j n t, headerAt fieldNames types j n t →
        IsReservedColumnName (FormatColumnName (TrimSpace n)) = false) →
     ∀ i name ty,
       headerAt fieldNames types i name ty →
       Contains (tagAt tags i) "design" = false →
       (∀ j n t, j < i → headerAt fieldNames types j n t →
          FormatColumnName (TrimSpace n) = FormatColumnName (TrimSpace name) →
          Contains (tagAt tags j) "design" = true) →
       ∃ columns,
         BuildColumnsIn rangeOrder fieldNames types tags = BuildOk columns
         ∧ regularColumn tags i name ty ∈ columns).
Proof.
  split; [|split; [apply BuildColumnsIn_err|]].
  - intros columns (m & Hm & ->)%BuildColumnsIn_ok. split.
    + unfold sortColumns. rewrite merge_sort_Permutation.
      rewrite (columnMapOk_names _ _ _ _ Hm). apply NoDup_fst_map_to_list.
    + pose proof nameLe_total.
      apply (Sorted_fmap _ nameLe); [done|]. by apply Sorted_merge_sort.
  - intros Hord Hty Hres i name ty. by apply BuildColumnsIn_first_header.
Qed.

Lemma BuildColumns_names_unique_no_collision_error_witness :
  (NoDup ["MyName"] ∧ Sorted String.le ["MyName"])
  ∧ ∃ columns,
      BuildColumns ["my name"; "MyName"] ["int"; "string"] [] = BuildOk columns
      ∧ regularColumn [] 0 "my name" "int" ∈ columns.
Proof.
  split.
  - apply (proj1 (BuildColumns_names_unique_no_collision_error map_to_list
                    ["my name"; "MyName"] ["int"; "string"] [])
             [regularColumn [] 0 "my name" "int"]).
    vm_compute. reflexivity.
  - apply (proj2 (proj2 (BuildColumns_names_unique_no_collision_error
                           map_to_list ["my name"; "MyName"]
                           ["int"; "string"] []))).
    + reflexivity.
    + intros [|[|j]] t; simpl; intros [= <-]; reflexivity.
    + intros [|[|j]] n t ([= <-] & [= <-] & _); reflexivity.
    + repeat split; [vm_compute; congruence].
    + reflexivity.
    + intros j n t Hj. lia.
Defined.

(** C7, the claim as stated fails: [my name] and [MyName] both format to
    [MyName]; the builder returns one column, built from the first, and no
    error. *)
Lemma BuildColumns_collision_no_error :
  FormatColumnName "my name" = FormatColumnName "MyName"
  ∧ BuildColumns ["my name"; "MyName"] ["int"; "string"] []
    = BuildOk [mkColumn "MyName" Int32Type EmptyString false].
Proof. split; vm_compute; reflexivity. Qed.

(** C1, what the code does instead: the three headers [skills] carry the
    type [array<string>], and the builder returns the aggregate column alone,
    with no [Skills_0], [Skills_1], [Skills_2].  The second loop looks the
    formatted name [Skills] up among the raw names, finds nothing and skips
    the field; the third loop then treats the first header as an ordinary
    column. *)
Theorem BuildColumns_lowercase_array_not_expanded :
  BuildColumns lowerSkillsNames lowerSkillsTypes lowerSkillsTags
  = BuildOk [mkColumn "Skills" (arrayOf StringType) EmptyString false].
Proof. vm_compute. reflexivity. Qed.

(** The same field written [Skills], as it is after formatting, is
    expanded. *)
Lemma BuildColumns_formatted_array_expanded :
  BuildColumns ["Skills"; "Skills"; "Skills"] lowerSkillsTypes lowerSkillsTags
  = BuildOk [arrayColumn "Skills" StringType;
             elementColumn "Skills" StringType 0;
             elementColumn "Skills" StringType 1;
             elementColumn "Skills" StringType 2].
Proof. vm_compute. reflexivity. Qed.

(** ** Schema text and insert statement *)





Lemma HasPrefix_common p s q :
  HasPrefix (p +:+ s) (p +:+ q) = HasPrefix s q.
Proof.
  induction p as [|c p IH]; [done|].
  rewrite !append_cons. simpl. by rewrite Ascii.eqb_refl.
Qed.

Lemma toLowerByte_not_I c : Ascii.eqb (toLowerByte c) "I" = false.
Proof. byte_cases c. Qed.

Lemma QuoteIdentifier_lower_not_I name rest :
  HasPrefix (QuoteIdentifier (ToLower name) +:+ " (" +:+ rest) "IF NOT EXISTS"
  = false.
Proof.
  unfold QuoteIdentifier. destruct (inList _ _); [done|].
  destruct name as [|c name]; [done|].
  unfold ToLower. simpl. rewrite append_cons. simpl.
  by rewrite toLowerByte_not_I.
Qed.

(** C8, what the code does instead: for every table the schema text of
    generator.go opens with a plain [CREATE TABLE]; the words
    [IF NOT EXISTS] do not follow. *)
Theorem generateSQLSchema_create_table_plain (table : Table) (text : string) :
  generateSQLSchema table = Some text →
  HasPrefix text "CREATE TABLE " = true
  ∧ HasPrefix text "CREATE TABLE IF NOT EXISTS" = false.
Proof.
  unfold generateSQLSchema. destruct (columnDefs table) as [defs|]; [|done].
  simpl. intros [= <-]. unfold createTableHead. rewrite !append_assoc.
  split; [apply HasPrefix_append|].
  change "CREATE TABLE IF NOT EXISTS"
    with ("CREATE TABLE " +:+ "IF NOT EXISTS").
  rewrite HasPrefix_common. apply QuoteIdentifier_lower_not_I.
Qed.

Lemma generateSQLSchema_create_table_plain_witness :
  ∃ text, generateSQLSchema itemTable = Some text
          ∧ HasPrefix text "CREATE TABLE item (" = true
          ∧ HasPrefix text "CREATE TABLE IF NOT EXISTS" = false.
Proof.
  eexists. split; [vm_compute; reflexivity|]. split; [reflexivity|].
  refine (proj2 (generateSQLSchema_create_table_plain itemTable _ _)).
  vm_compute. reflexivity.
Defined.

(** The sibling statements do use the form: the indices of generator.go, and
    the table and the indices of the exporter. *)
Lemma sibling_statements_if_not_exists :
  (∀ table, Forall (λ d, HasPrefix d "CREATE INDEX IF NOT EXISTS " = true)
              (indexDefs table))
  ∧ (∀ table, HasPrefix (Exporter.buildCreateTableQuery table)
                "CREATE TABLE IF NOT EXISTS " = true)
  ∧ (∀ table, Forall (λ d, HasPrefix d "CREATE INDEX IF NOT EXISTS " = true)
                (Exporter.createIndices table)).
Proof.
  split; [|split].
  - intros table. unfold indexDefs. apply Forall_fmap, Forall_forall.
    intros col _. apply HasPrefix_append.
  - intros table. unfold Exporter.buildCreateTableQuery,
      Exporter.createTableHead. rewrite !append_assoc. apply HasPrefix_append.
  - intros table. unfold Exporter.createIndices.
    apply Forall_app; split; apply Forall_fmap, Forall_forall;
      intros x _; unfold Exporter.createIndexQuery; apply HasPrefix_append.
Qed.

(** ** The DateTime parser *)

Lemma tryFormats_first {Time : Type} (timeParse : string → string → Time + string)
    Hour Minute Second UTC tried tf rest value t lastErr :
  Forall (λ f, ∃ e, timeParse (format f) value = inr e) tried →
  timeParse (format tf) value = inl t →
  tryFormats timeParse Hour Minute Second UTC (tried ++ tf :: rest) value
    lastErr
  = inl (normalizeZone Hour Minute Second UTC tf value t).
Proof.
  intros Htried Htf. revert lastErr.
  induction Htried as [|f tried [e He] _ IH]; intros lastErr; simpl.
  - by rewrite Htf.
  - rewrite He. apply IH.
Qed.

Lemma tryFormats_none {Time : Type} (timeParse : string → string → Time + string)
    Hour Minute Second UTC formats value lastErr :
  Forall (λ f, ∃ e, timeParse (format f) value = inr e) formats →
  ∃ e, tryFormats timeParse Hour Minute Second UTC formats value lastErr
       = inr e.
Proof.
  intros H. revert lastErr.
  induction H as [|f formats [e He] _ IH]; intros lastErr; simpl; [eauto|].
  rewrite He. apply IH.
Qed.

(** C4. For every cell that is not blank, the DateTime parser tries its
    formats in their fixed order (the flag [hasChanged] marks those that end
    in [Z]) and returns the time of the first one that parses; when that
    format has no zone marker and the value has none of the bytes [Zz+-], a
    time with a non-zero clock is converted with [UTC], and in every other
    case (a date alone among them) the time is returned as parsed; when no
    format parses, the parser returns an error. *)
Theorem TimeParser_Parse_first_match {Time : Type}
    (timeParse : string → string → Time + string)
    (Hour Minute Second : Time → nat) (UTC : Time → Time)
    (columnName : string) (columnType : ColumnType) (value : string) :
  TrimSpace value ≠ EmptyString →
  (format <$> timeFormats
   = ["2006-01-02 15:04:05.999"; "2006-01-02 15:04:05.999Z";
      "2006-01-02T15:04:05.999"; "2006-01-02T15:04:05.999Z";
      "2006-01-02 15:04:05"; "2006-01-02T15:04:05"; "2006-01-02T15:04:05Z";
      "2006-01-02"]
   ∧ Forall (λ tf, hasChanged tf = HasSuffix (format tf) "Z") timeFormats)
  ∧ (∀ tried tf rest t,
       timeFormats = tried ++ tf :: rest →
       Forall (λ f, ∃ e, timeParse (format f) (TrimSpace value) = inr e)
         tried →
       timeParse (format tf) (TrimSpace value) = inl t →
       ∃ t',
         TimeParser_Parse timeParse Hour Minute Second UTC columnName
           columnType value = (NewValue columnType t', None)
         ∧ (hasChanged tf = false →
            ContainsAny (TrimSpace value) "Zz+-" = false →
            clockIsZero Hour Minute Second t = false → t' = UTC t)
         ∧ (hasChanged tf = true ∨ ContainsAny (TrimSpace value) "Zz+-" = true
            ∨ clockIsZero Hour Minute Second t = true → t' = t))
  ∧ (Forall (λ f, ∃ e, timeParse (format f) (TrimSpace value) = inr e)
       timeFormats →
     ∃ msg,
       TimeParser_Parse timeParse Hour Minute Second UTC columnName
         columnType value = (ZeroValue columnType, Some msg)).
Proof.
  intros Hv. apply isEmpty_false in Hv.
  split; [split; [reflexivity|repeat constructor]|]. split.
  - intros tried tf rest t Heq Htried Htf.
    exists (normalizeZone Hour Minute Second UTC tf (TrimSpace value) t).
    split.
    + unfold TimeParser_Parse. rewrite Hv, Heq.
      by rewrite (tryFormats_first _ _ _ _ _ _ _ _ _ t _ Htried Htf).
    + unfold normalizeZone. split.
      * by intros -> -> ->.
      * intros [-> | [-> | ->]]; simpl; try done.
        -- by rewrite andb_false_r.
        -- by destruct (_ && _).
  - intros Hall. unfold TimeParser_Parse. rewrite Hv.
    destruct (tryFormats_none timeParse Hour Minute Second UTC timeFormats
                (TrimSpace value) "<nil>" Hall) as [e ->].
    eauto.
Qed.

Lemma TimeParser_Parse_first_match_witness :
  ∃ t',
    TimeParser_Parse sampleTimeParse clockHour clockMinute clockSecond
      sampleUTC "CreatedAt" DateTimeType " 2024-01-02 15:04:05 "
    = (NewValue DateTimeType t', None).
Proof.
  destruct (proj1 (proj2 (TimeParser_Parse_first_match sampleTimeParse
              clockHour clockMinute clockSecond sampleUTC "CreatedAt"
              DateTimeType " 2024-01-02 15:04:05 " ltac:(vm_compute; congruence)))
            (take 4 timeFormats) (mkTimeFormat "2006-01-02 15:04:05" false)
            (drop 5 timeFormats) (mkClock 15 4 5 true) eq_refl)
    as (t' & H & _).
  - repeat constructor; eexists; vm_compute; reflexivity.
  - reflexivity.
  - by exists t'.
Defined.

(** ** Termination of the schema loops *)

Lemma append_inj_l s a b : s +:+ a = s +:+ b → a = b.
Proof.
  induction s as [|c s IH]; [done|].
  rewrite !append_cons. intros [= H]. by apply IH.
Qed.

Lemma elementName_inj name i j :
  name +:+ "_" +:+ Itoa i = name +:+ "_" +:+ Itoa j → i = j.
Proof.
  intros H%append_inj_l%append_inj_l. by apply (inj pretty) in H.
Qed.

Lemma hasColumnNamed_elem columns name :
  hasColumnNamed columns name = true → name ∈ Name <$> columns.
Proof.
  unfold hasColumnNamed. intros (c & Hc & E)%existsb_exists.
  apply String.eqb_eq in E. subst name.
  apply list_elem_of_fmap. exists c. split; [done|].
  by apply list_elem_of_In.
Qed.

(** No more element columns exist than the table has columns. *)
Lemma element_names_bounded columns col i :
  (∀ j, j < i →
     hasColumnNamed columns (Name col +:+ "_" +:+ Itoa j) = true) →
  i ≤ length columns.
Proof.
  intros H.
  set (names := (λ j, Name col +:+ "_" +:+ Itoa j) <$> seq 0 i).
  assert (Hsub : names ⊆+ Name <$> columns).
  { apply NoDup_submseteq.
    - apply NoDup_fmap_2_strong; [|apply NoDup_seq].
      intros a b _ _. apply elementName_inj.
    - intros x (j & -> & Hj%elem_of_seq)%list_elem_of_fmap.
      apply hasColumnNamed_elem, H. lia. }
  apply submseteq_length in Hsub.
  unfold names in Hsub. by rewrite !length_fmap, length_seq in Hsub.
Qed.

(** The loop over the element columns ends within the fuel it is given. *)
Lemma elementDefs_enough columns col baseType fuel i :
  BaseType (Type_ col) = Some baseType →
  (∀ j, j < i →
     hasColumnNamed columns (Name col +:+ "_" +:+ Itoa j) = true) →
  length columns < i + fuel →
  is_Some (elementDefs fuel columns col i).
Proof.
  intros Hb. revert i. induction fuel as [|fuel IH]; intros i Hi Hlen.
  - pose proof (element_names_bounded columns col i Hi). lia.
  - simpl. destruct (hasColumnNamed _ _) eqn:E; [|eauto].
    rewrite Hb. simpl.
    destruct (IH (S i)) as [rest ->]; [|lia|by eexists].
    intros j Hj. destruct (decide (j = i)) as [->|]; [done|].
    apply Hi. lia.
Qed.

Lemma columnDefsLoop_total columns todo processed :
  Forall (λ col, IsArray (Type_ col) = true → is_Some (BaseType (Type_ col)))
    todo →
  is_Some (columnDefsLoop columns todo processed).
Proof.
  intros H. revert processed.
  induction H as [|col todo Hc _ IH]; intros processed;
    cbn [columnDefsLoop]; [eauto|].
  destruct (IsArray (Type_ col)) eqn:Ea.
  - destruct (inList _ _); [apply IH|].
    destruct (Hc eq_refl) as [b Hb].
    destruct (elementDefs_enough columns col b (S (length columns)) 0 Hb)
      as [elems ->]; [intros; lia|lia|].
    simpl. destruct (IH (Name col :: processed)) as [rest ->]. by eexists.
  - destruct (existsb _ _); [apply IH|].
    destruct (IH processed) as [rest ->]. by eexists.
Qed.

(** [generateSQLSchema] yields its text for every table whose array columns
    have a base type, as all columns of the builder do. *)
Lemma generateSQLSchema_total table :
  Forall (λ col, baseTypeMatchesIsArray (Type_ col)) (Columns table) →
  is_Some (generateSQLSchema table).
Proof.
  intros H. unfold generateSQLSchema, columnDefs.
  destruct (columnDefsLoop_total (Columns table) (Columns table) [])
    as [defs ->]; [|by eexists].
  eapply Forall_impl; [exact H|]. intros col Hcol Ha. simpl in Hcol.
  revert Hcol Ha.
  destruct (Type_ col) as [ty sql arr [b|]]; simpl; intros ? ?;
    [by eexists|congruence].
Qed.

(** ** The [design] tag in the exporter *)

(** [tagInfoMap] has no entry for [TagDesign], so no tag text parses to it,
    and [parseSheet] keeps a column tagged [design]. *)
Lemma exporter_design_tag_unrecognized :
  (∀ s, Exporter.ParseTag s ≠ Exporter.TagDesign)
  ∧ Exporter.parseSheet "Item"
      [["description"]; ["design"]; ["string"]; ["Basic sword"]]
    = Exporter.SheetOk
        (Exporter.mkTable "Item" "Item"
           [Exporter.mkColumn "Description" StringType [] false] []).
Proof.
  split; [|vm_compute; reflexivity].
  intros s. unfold Exporter.ParseTag.
  destruct (List.find _ _) as [e|] eqn:E; [|discriminate].
  apply find_some in E as [Hin _]. simpl in Hin.
  repeat (destruct Hin as [<-|Hin]; [discriminate|]). done.
Qed.

(** * Further properties of the code *)

(** ** Name formatting and quoting *)

Lemma fieldsFrom_allSpace s :
  allSpace s = true → fieldsFrom s = (EmptyString, []).
Proof.
  induction s as [|c s IH]; [done|]. simpl.
  intros [Hc Hs]%andb_true_iff. by rewrite (IH Hs), Hc.
Qed.

Lemma trimLeft_allSpace s : allSpace s = true → trimLeft s = EmptyString.
Proof.
  induction s as [|c s IH]; [done|]. simpl.
  intros [-> Hs]%andb_true_iff. by apply IH.
Qed.

Lemma fieldsFrom_empty_allSpace s :
  fieldsFrom s = (EmptyString, []) → allSpace s = true.
Proof.
  induction s as [|c s IH]; [done|]. simpl.
  destruct (fieldsFrom s) as [w ws].
  destruct (isSpaceByte c); [|discriminate]. simpl.
  unfold consField. destruct w; simpl; [|discriminate].
  intros [= ->]. by apply IH.
Qed.

Lemma Fields_nil_allSpace s : Fields s = [] ↔ allSpace s = true.
Proof.
  split.
  - unfold Fields. intros H. apply fieldsFrom_empty_allSpace.
    destruct (fieldsFrom s) as [w ws]. unfold consField in H.
    destruct w; simpl in H; [by subst|discriminate].
  - intros H. unfold Fields. by rewrite fieldsFrom_allSpace.
Qed.

Lemma TrimSpace_empty_allSpace s :
  TrimSpace s = EmptyString ↔ allSpace s = true.
Proof.
  rewrite <- Fields_nil_allSpace. split.
  - intros H. by rewrite <- Fields_TrimSpace, H.
  - intros H%Fields_nil_allSpace. unfold TrimSpace.
    by rewrite trimLeft_allSpace.
Qed.

Lemma joined_words_empty ws :
  Forall isWord ws →
  Join (upperFirst <$> ws) EmptyString = EmptyString → ws = [].
Proof.
  destruct 1 as [|w ws [Hw _] _]; [done|].
  rewrite fmap_cons, Join_empty_cons. by destruct w.
Qed.







Lemma ToLower_quoted x : ToLower (quoted x) = quoted (ToLower x).
Proof.
  unfold quoted, ToLower. simpl. by rewrite mapBytes_append.
Qed.

Lemma quoted_not_reserved x : inList (quoted x) sqliteReservedWords = false.
Proof. reflexivity. Qed.

Lemma containsByte_toLowerByte c :
  containsByte Exporter.quoteChars (toLowerByte c)
  = containsByte Exporter.quoteChars c.
Proof. byte_cases c. Qed.

Lemma ContainsAny_ToLower s :
  ContainsAny (ToLower s) Exporter.quoteChars
  = ContainsAny s Exporter.quoteChars.
Proof.
  induction s as [|c s IH]; [done|]. unfold ToLower in *.
  cbn [mapBytes ContainsAny]. by rewrite IH, containsByte_toLowerByte.
Qed.

Lemma ContainsAny_append s t chars :
  ContainsAny (s +:+ t) chars = ContainsAny s chars || ContainsAny t chars.
Proof.
  induction s as [|c s IH]; [done|].
  rewrite append_cons. cbn [ContainsAny]. by rewrite IH, orb_assoc.
Qed.

Lemma ContainsAny_quoted s :
  ContainsAny (quoted s) Exporter.quoteChars
  = ContainsAny s Exporter.quoteChars.
Proof.
  unfold quoted. cbn [ContainsAny]. rewrite ContainsAny_append.
  replace (containsByte Exporter.quoteChars dquote) with false by reflexivity.
  replace (ContainsAny (String dquote EmptyString) Exporter.quoteChars)
    with false by reflexivity.
  by rewrite orb_false_r.
Qed.

Lemma reserved_no_quoteChars w :
  inList w sqliteReservedWords = true →
  ContainsAny w Exporter.quoteChars = false.
Proof.
  unfold inList. intros (x & Hx & E)%existsb_exists.
  apply String.eqb_eq in E. subst x.
  assert (H : Forall (λ w, ContainsAny w Exporter.quoteChars = false)
                sqliteReservedWords).
  { unfold sqliteReservedWords.
    repeat (constructor; [reflexivity|]). constructor. }
  rewrite Forall_forall in H. by apply H, list_elem_of_In.
Qed.

(** X2. What [QuoteIdentifier] returns is never a bare reserved word, in
    either package, and quoting twice in package main changes nothing.  The
    exporter's [QuoteIdentifier] quotes an already quoted name again exactly
    when the name holds one of the bytes of its set. *)
Theorem QuoteIdentifier_result_not_reserved (name : string) :
  inList (ToLower (QuoteIdentifier name)) sqliteReservedWords = false
  ∧ QuoteIdentifier (QuoteIdentifier name) = QuoteIdentifier name
  ∧ inList (ToLower (Exporter.QuoteIdentifier name)) Exporter.sqliteKeywords
    = false
  ∧ (Exporter.QuoteIdentifier (Exporter.QuoteIdentifier name)
     = Exporter.QuoteIdentifier name
     ↔ ContainsAny name Exporter.quoteChars = false).
Proof.
  rewrite sqliteKeywords_same.
  assert (Hq : ∀ x, QuoteIdentifier (quoted x) = quoted x).
  { intros x. unfold QuoteIdentifier.
    by rewrite ToLower_quoted, quoted_not_reserved. }
  unfold Exporter.QuoteIdentifier. rewrite sqliteKeywords_same.
  unfold QuoteIdentifier at 1 3 4.
  destruct (inList (ToLower name) sqliteReservedWords) eqn:E.
  - rewrite !ToLower_quoted, !quoted_not_reserved, ContainsAny_quoted.
    split; [done|]. split; [apply Hq|]. split; [done|].
    apply reserved_no_quoteChars in E. rewrite ContainsAny_ToLower in E.
    by rewrite E.
  - rewrite E. split; [done|]. split; [unfold QuoteIdentifier; by rewrite E|].
    destruct (ContainsAny name Exporter.quoteChars) eqn:Ec.
    + rewrite !ToLower_quoted, !quoted_not_reserved, ContainsAny_quoted, Ec.
      split; [done|]. split; [|done]. intros H. by apply quoted_ne in H.
    + by rewrite E, Ec.
Qed.

(** ** The schema text of a built table *)

(** X3. For every table the builder returns, [generateSQLSchema] yields its
    text: the search for element columns [Name_0], [Name_1], ... comes to an
    end, and no nil [BaseType] is dereferenced. *)
Theorem generateSQLSchema_yields_text_for_built_table
    (rangeOrder : gmap string nat → list (string * nat))
    (fieldNames types tags : list string) (sheet : string)
    (columns : list Column) :
  BuildColumnsIn rangeOrder fieldNames types tags = BuildOk columns →
  ∃ text, generateSQLSchema (mkTable sheet columns) = Some text.
Proof.
  intros H. apply generateSQLSchema_total. simpl.
  apply Forall_forall. intros c Hc.
  eapply columnOrigin_baseType, BuildColumnsIn_origin; eauto.
Qed.

Lemma generateSQLSchema_yields_text_for_built_table_witness :
  ∃ text, generateSQLSchema skillsTable = Some text.
Proof.
  apply (generateSQLSchema_yields_text_for_built_table map_to_list
           ["Skills"; "SkillsA"] ["array<int>"; "int"] [] "Item"
           skillsColumns).
  vm_compute. reflexivity.
Defined.

Lemma hasColumnNamed_In columns name :
  hasColumnNamed columns name = true →
  ∃ col, col ∈ columns ∧ Name col = name.
Proof.
  unfold hasColumnNamed. intros (c & Hc & E)%existsb_exists.
  apply String.eqb_eq in E. exists c. split; [by apply list_elem_of_In|done].
Qed.

Lemma elementDefs_names fuel columns col i defs :
  elementDefs fuel columns col i = Some defs →
  Forall (λ d, ∃ c, c ∈ columns ∧ defName d = QuoteIdentifier (Name c)) defs.
Proof.
  revert i defs. induction fuel as [|fuel IH]; intros i defs; [done|].
  simpl. destruct (hasColumnNamed _ _) eqn:E; [|by intros [= <-]].
  destruct (BaseType (Type_ col)) as [b|]; [|done]. simpl.
  destruct (elementDefs fuel columns col (S i)) as [rest|] eqn:Er; [|done].
  simpl. intros [= <-]. constructor; [|by eapply IH].
  apply hasColumnNamed_In in E as (c & Hc & <-). by exists c.
Qed.

Lemma columnDefsLoop_names columns todo processed defs :
  todo ⊆ columns →
  columnDefsLoop columns todo processed = Some defs →
  Forall (λ d, ∃ c, c ∈ columns ∧ defName d = QuoteIdentifier (Name c)) defs.
Proof.
  revert processed defs.
  induction todo as [|col todo IH]; intros processed defs Hsub;
    cbn [columnDefsLoop]; [by intros [= <-]|].
  assert (Hcol : col ∈ columns) by (apply Hsub; by left).
  assert (Hsub' : todo ⊆ columns) by (intros x Hx; apply Hsub; by right).
  destruct (IsArray (Type_ col)).
  - destruct (inList _ _); [by apply IH|].
    destruct (elementDefs _ _ _ _) as [elems|] eqn:Ee; [|done]. simpl.
    destruct (columnDefsLoop _ _ _) as [rest|] eqn:Er; [|done]. simpl.
    intros [= <-]. constructor; [by exists col|].
    apply Forall_app. split; [by eapply elementDefs_names|by eapply IH].
  - destruct (existsb _ _); [by apply IH|].
    destruct (columnDefsLoop _ _ _) as [rest|] eqn:Er; [|done]. simpl.
    intros [= <-]. constructor; [by exists col|by eapply IH].
Qed.

(** X4. The column clauses of the schema text name only columns of the
    table: every clause opens with the quoted name of one of them. *)
Theorem schema_declares_only_table_columns (table : Table)
    (defs : list ColumnDef) :
  columnDefs table = Some defs →
  ∀ d, d ∈ defs →
    ∃ col, col ∈ Columns table ∧ defName d = QuoteIdentifier (Name col).
Proof.
  intros H. apply Forall_forall.
  by eapply columnDefsLoop_names.
Qed.

Lemma schema_declares_only_table_columns_witness :
  ∃ col, col ∈ skillsColumns ∧ "Skills_0" = QuoteIdentifier (Name col).
Proof.
  apply (schema_declares_only_table_columns skillsTable
           [mkColumnDef "Skills" "TEXT"; mkColumnDef "Skills_0" "INTEGER";
            mkColumnDef "SkillsA" "INTEGER"] ltac:(vm_compute; reflexivity)
           (mkColumnDef "Skills_0" "INTEGER")).
  right. by left.
Defined.

(** ** Tags and sheets of the exporter *)

Ltac in_list :=
  apply list_elem_of_In; simpl; repeat (first [left; reflexivity | right]).

Lemma ParseTag_recognized s :
  Exporter.ParseTag s = Exporter.TagNone
  ∨ Exporter.ParseTag s ∈ recognizedTags.
Proof.
  unfold Exporter.ParseTag.
  destruct (List.find _ _) as [e|] eqn:E; [|by left]. right.
  apply find_some in E as [Hin _]. simpl in Hin. unfold recognizedTags.
  repeat (destruct Hin as [<-|Hin]; [in_list|]). done.
Qed.

Lemma ParseColumnTags_recognized strs tv :
  tv ∈ Exporter.ParseColumnTags strs →
  Exporter.tvTag tv ∈ recognizedTags.
Proof.
  unfold Exporter.ParseColumnTags.
  intros [Hne (s & -> & _)%list_elem_of_fmap]%list_elem_of_filter.
  unfold Exporter.ParseTagWithValue in *.
  destruct (SplitN2 s ":") as [|p0 rest]; [done|].
  assert (Hp : Exporter.tvTag
                 (match rest with
                  | [] => Exporter.mkTagValue (Exporter.ParseTag p0) EmptyString
                  | p1 :: _ =>
                      if Exporter.tagHasValue (Exporter.ParseTag p0)
                      then Exporter.mkTagValue (Exporter.ParseTag p0) p1
                      else Exporter.mkTagValue (Exporter.ParseTag p0)
                             EmptyString
                  end) = Exporter.ParseTag p0).
  { destruct rest; [done|]. by destruct (Exporter.tagHasValue _). }
  rewrite Hp in *. destruct (ParseTag_recognized p0) as [E|E]; [|done].
  rewrite E in Hne. done.
Qed.

(** X5. Whatever the tag strings of a column, the tags [ParseColumnTags]
    returns are among unique, index, notnull, default, size and validate:
    no tag text yields a primary-key, foreign-key, auto-increment,
    design, ignore, read-only or write-only tag, and a tag carries a value
    only if it is default, size or validate. *)
Theorem ParseColumnTags_only_recognized (strs : list string)
    (tv : Exporter.TagValue) :
  tv ∈ Exporter.ParseColumnTags strs →
  Exporter.tvTag tv ∈ recognizedTags
  ∧ (Exporter.tvValue tv ≠ EmptyString →
     Exporter.tvTag tv ∈ [Exporter.TagDefault; Exporter.TagSize;
                          Exporter.TagValidate]).
Proof.
  intros H. split; [by eapply ParseColumnTags_recognized|].
  unfold Exporter.ParseColumnTags in H.
  apply list_elem_of_filter in H as [_ (s & -> & _)%list_elem_of_fmap].
  unfold Exporter.ParseTagWithValue.
  destruct (SplitN2 s ":") as [|p0 [|p1 rest]]; [done..|].
  destruct (Exporter.tagHasValue (Exporter.ParseTag p0)) eqn:E; [|done].
  simpl. intros _.
  destruct (Exporter.ParseTag p0); vm_compute in E; try discriminate E;
    in_list.
Qed.

Lemma ParseColumnTags_only_recognized_witness :
  Exporter.TagDefault ∈ recognizedTags.
Proof.
  apply (ParseColumnTags_only_recognized ["unique"; "default:0"; "pk"]
           (Exporter.mkTagValue Exporter.TagDefault "0")).
  vm_compute. right. by left.
Defined.

Lemma HasTag_design_false strs :
  Exporter.HasTag (Exporter.ParseColumnTags strs) Exporter.TagDesign = false.
Proof.
  apply not_true_is_false. unfold Exporter.HasTag.
  intros (tv & Hin & E)%existsb_exists.
  apply list_elem_of_In in Hin. apply ParseColumnTags_recognized in Hin.
  apply list_elem_of_In in Hin.
  destruct (Exporter.tvTag tv); try discriminate.
  simpl in Hin. intuition discriminate.
Qed.

Lemma parseSheetLoop_columns (columnNames columnTags columnTypes : list string)
    i :
  i + length columnNames ≤ length columnTags →
  i + length columnNames ≤ length columnTypes →
  ∃ columns,
    Exporter.parseSheetLoop columnNames columnTags columnTypes i
    = Some columns
    ∧ Exporter.Name <$> columns
      = filter (λ n, n ≠ EmptyString)
          (Exporter.ParseColumnName <$> columnNames).
Proof.
  revert i. induction columnNames as [|raw names IH]; intros i Htag Hty.
  { by exists []. }
  simpl in Htag, Hty. cbn [Exporter.parseSheetLoop fmap list_fmap].
  destruct (IH (S i)) as (cols & Hcols & Hn); [lia..|].
  rewrite filter_cons. case_decide as Hne.
  - destruct (Exporter.ParseColumnName raw) as [|c n] eqn:En; [done|].
    cbn [String.length Nat.leb].
    destruct (lookup_lt_is_Some_2 columnTags i ltac:(lia)) as [tag ->].
    destruct (lookup_lt_is_Some_2 columnTypes i ltac:(lia)) as [ty ->].
    simpl. rewrite HasTag_design_false, Hcols. simpl.
    eexists. split; [done|]. simpl. by f_equal.
  - rewrite Hne. simpl. by exists cols.
Qed.

Lemma parseSheetLoop_panics (columnNames columnTags columnTypes : list string)
    i j raw :
  columnNames !! j = Some raw →
  Exporter.ParseColumnName raw ≠ EmptyString →
  length columnTags ≤ i + j ∨ length columnTypes ≤ i + j →
  Exporter.parseSheetLoop columnNames columnTags columnTypes i = None.
Proof.
  revert i j. induction columnNames as [|x names IH]; intros i j Hj Hne Hlen;
    [done|].
  cbn [Exporter.parseSheetLoop].
  destruct j as [|j]; simpl in Hj.
  - injection Hj as ->. rewrite Nat.add_0_r in Hlen.
    destruct (Exporter.ParseColumnName raw) as [|c n]; [done|].
    cbn [String.length Nat.leb].
    destruct Hlen as [H|H].
    + by rewrite (lookup_ge_None_2 columnTags i H).
    + destruct (columnTags !! i); [|done]. simpl.
      by rewrite (lookup_ge_None_2 columnTypes i H).
  - assert (Hrec : Exporter.parseSheetLoop names columnTags columnTypes (S i)
                   = None).
    { apply (IH (S i) j); [done..|]. by replace (S i + j) with (i + S j) by lia. }
    rewrite Hrec.
    destruct (String.length _ <=? 0); [done|].
    destruct (columnTags !! i); [|done]. simpl.
    destruct (columnTypes !! i); [|done]. simpl.
    by destruct (Exporter.HasTag _ _).
Qed.

(** X6. When the tag row and the type row are as long as the name row, the
    exporter's [parseSheet] returns one column for every header whose
    formatted name is not empty, in header order: it removes no duplicate,
    rejects no reserved name and drops no column for its tags.  When a
    header with a non-empty formatted name lies past the end of the tag row
    or of the type row, the run ends in an index panic. *)
Theorem exporter_parseSheet_columns (sheetName : string)
    (columnNames columnTags columnTypes : list string)
    (rest : list (list string)) :
  (length columnNames ≤ length columnTags →
   length columnNames ≤ length columnTypes →
   ∃ columns,
     Exporter.parseSheet sheetName
       (columnNames :: columnTags :: columnTypes :: rest)
     = Exporter.SheetOk
         (Exporter.mkTable (Exporter.formatTableName sheetName) sheetName
            columns [])
     ∧ Exporter.Name <$> columns
       = filter (λ n, n ≠ EmptyString)
           (Exporter.ParseColumnName <$> columnNames))
  ∧ (∀ j raw,
       columnNames !! j = Some raw →
       Exporter.ParseColumnName raw ≠ EmptyString →
       length columnTags ≤ j ∨ length columnTypes ≤ j →
       Exporter.parseSheet sheetName
         (columnNames :: columnTags :: columnTypes :: rest)
       = Exporter.SheetPanic).
Proof.
  split.
  - intros Htag Hty.
    destruct (parseSheetLoop_columns columnNames columnTags columnTypes 0)
      as (cols & Hc & Hn); [done..|].
    exists cols. unfold Exporter.parseSheet. by rewrite Hc.
  - intros j raw Hj Hne Hlen. unfold Exporter.parseSheet.
    by rewrite (parseSheetLoop_panics _ _ _ 0 j raw Hj Hne Hlen).
Qed.

Lemma exporter_parseSheet_columns_witness :
  (∃ columns,
     Exporter.parseSheet "Item"
       [["id"; "note"; "id"]; ["design"; "design"; "pk"];
        ["int"; "string"; "int"]; []]
     = Exporter.SheetOk (Exporter.mkTable "Item" "Item" columns [])
     ∧ Exporter.Name <$> columns = ["Id"; "Note"; "Id"])
  ∧ Exporter.parseSheet "Item" [["id"; "note"]; ["design"]; ["int"; "string"]]
    = Exporter.SheetPanic.
Proof.
  split.
  - apply (proj1 (exporter_parseSheet_columns "Item" ["id"; "note"; "id"]
                    ["design"; "design"; "pk"] ["int"; "string"; "int"] [[]]));
      simpl; lia.
  - apply (proj2 (exporter_parseSheet_columns "Item" ["id"; "note"]
                    ["design"] ["int"; "string"] []) 1 "note").
    + reflexivity.
    + vm_compute. discriminate.
    + left. simpl. lia.
Defined.

(** ** Rows of unequal length in the column builder *)

Lemma rangeFrom_ext {A St : Type} (body1 body2 : nat → A → St → St + string)
    (l : list A) i0 s :
  (∀ j x s1, l !! j = Some x → body1 (i0 + j) x s1 = body2 (i0 + j) x s1) →
  rangeFrom body1 i0 l s = rangeFrom body2 i0 l s.
Proof.
  revert i0 s. induction l as [|x l IH]; intros i0 s H; [done|]. simpl.
  pose proof (H 0 x s eq_refl) as H0. rewrite Nat.add_0_r in H0.
  rewrite <- H0.
  destruct (body1 i0 x s) as [s1|e]; [|done]. apply IH.
  intros j y s2 Hj. replace (S i0 + j) with (i0 + S j) by lia.
  by apply H.
Qed.

Lemma rangeFrom_app {A St : Type} (body : nat → A → St → St + string)
    (l1 l2 : list A) i0 s :
  rangeFrom body i0 (l1 ++ l2) s
  = match rangeFrom body i0 l1 s with
    | inl s' => rangeFrom body (i0 + length l1) l2 s'
    | inr e => inr e
    end.
Proof.
  revert i0 s. induction l1 as [|x l1 IH]; intros i0 s; simpl.
  - by rewrite Nat.add_0_r.
  - destruct (body i0 x s) as [s1|e]; [|done].
    rewrite IH. by replace (S i0 + length l1) with (i0 + S (length l1)) by lia.
Qed.

Lemma rangeFrom_skip {A St : Type} (body : nat → A → St → St + string)
    (l : list A) i0 s :
  (∀ j x s1, l !! j = Some x → body (i0 + j) x s1 = inl s1) →
  rangeFrom body i0 l s = inl s.
Proof.
  revert i0. induction l as [|x l IH]; intros i0 H; [done|]. simpl.
  pose proof (H 0 x s eq_refl) as H0. rewrite Nat.add_0_r in H0.
  rewrite H0. apply IH. intros j y s1 Hj. replace (S i0 + j) with (i0 + S j) by lia.
  by apply H.
Qed.

(** A loop whose body does nothing past position [n] may stop there. *)
Lemma rangeFrom_take {A St : Type} (body : nat → A → St → St + string)
    (l : list A) n s :
  (∀ i x s1, n ≤ i → body i x s1 = inl s1) →
  rangeFrom body 0 (take n l) s = rangeFrom body 0 l s.
Proof.
  intros H. rewrite <- (take_drop n l) at 2. rewrite rangeFrom_app.
  destruct (rangeFrom body 0 (take n l) s) as [s'|e]; [|done].
  symmetry. apply rangeFrom_skip. intros j x s1 Hj. apply H.
  destruct (decide (n ≤ length l)).
  - rewrite length_take. lia.
  - rewrite drop_ge in Hj by lia. done.
Qed.

Lemma findBaseTypeStr_beyond (fieldNames types : list string) origName i :
  length types ≤ i →
  findBaseTypeStr fieldNames types origName i = EmptyString.
Proof.
  revert i. induction fieldNames as [|x l IH]; intros i H; [done|]. simpl.
  rewrite (lookup_ge_None_2 types i H). apply IH. lia.
Qed.

Lemma findBaseTypeStr_take (fieldNames types : list string) origName i :
  findBaseTypeStr (take (length types - i) fieldNames) types origName i
  = findBaseTypeStr fieldNames types origName i.
Proof.
  revert i. induction fieldNames as [|x l IH]; intros i.
  { by rewrite take_nil. }
  destruct (decide (length types ≤ i)) as [Hle|Hlt].
  - by rewrite !findBaseTypeStr_beyond.
  - replace (length types - i) with (S (length types - S i)) by lia.
    simpl. destruct (types !! i); [|apply IH].
    destruct (String.eqb _ _); [done|apply IH].
Qed.

(** X7. The builder reads a header position only if the type row reaches
    it: field names past the end of the type row change nothing.  Of a tag
    only the trimmed text counts, and a position past the end of the tag row
    counts as an empty tag. *)
Theorem BuildColumns_rows_of_unequal_length
    (rangeOrder : gmap string nat → list (string * nat))
    (fieldNames types tags : list string) :
  BuildColumnsIn rangeOrder (take (length types) fieldNames) types tags
  = BuildColumnsIn rangeOrder fieldNames types tags
  ∧ (∀ tags' : list string,
       (∀ i, tagAt tags' i = tagAt tags i) →
       BuildColumnsIn rangeOrder fieldNames types tags'
       = BuildColumnsIn rangeOrder fieldNames types tags).
Proof.
  split.
  - unfold BuildColumnsIn.
    rewrite (rangeFrom_take (collectStep types)).
    2:{ intros i x s1 Hi. unfold collectStep.
        by rewrite (lookup_ge_None_2 types i Hi). }
    destruct (rangeFrom (collectStep types) 0 fieldNames (∅, ∅))
      as [[pn cnt]|e]; [|done].
    assert (Harr : ∀ entry m,
              arrayStep (take (length types) fieldNames) types pn entry m
              = arrayStep fieldNames types pn entry m).
    { intros [o c] m. unfold arrayStep.
      pose proof (findBaseTypeStr_take fieldNames types o 0) as H.
      rewrite Nat.sub_0_r in H. by rewrite H. }
    rewrite (rangeFrom_ext _ (λ _, arrayStep fieldNames types pn))
      by (intros; apply Harr).
    destruct (rangeFrom _ 0 (rangeOrder cnt) ∅) as [m1|e]; [|done].
    rewrite (rangeFrom_take (regularStep types tags pn)); [done|].
    intros i x s1 Hi. unfold regularStep.
    by rewrite (lookup_ge_None_2 types i Hi).
  - intros tags' Htags. unfold BuildColumnsIn.
    destruct (rangeFrom (collectStep types) 0 fieldNames (∅, ∅))
      as [[pn cnt]|e]; [|done].
    destruct (rangeFrom _ 0 (rangeOrder cnt) ∅) as [m1|e]; [|done].
    rewrite (rangeFrom_ext (regularStep types tags' pn)
               (regularStep types tags pn)); [done|].
    intros j x s1 _. rewrite Nat.add_0_l. unfold regularStep.
    fold (tagAt tags' j). fold (tagAt tags j). by rewrite Htags.
Qed.

Lemma BuildColumns_rows_of_unequal_length_witness :
  BuildColumns ["name"; "level"] ["string"; "int"] ["unique "; " "]
  = BuildColumns ["name"; "level"] ["string"; "int"] [" unique"].
Proof.
  apply (proj2 (BuildColumns_rows_of_unequal_length map_to_list
                  ["name"; "level"] ["string"; "int"] [" unique"])
           ["unique "; " "]).
  intros [|[|i]]; reflexivity.
Defined.

(** ** Type names in the generated code and in the two schemas *)

Lemma GetSQLiteType_arrayOf b :
  Exporter.GetSQLiteType (arrayOf b) = Exporter.SQLiteText.
Proof. reflexivity. Qed.

Lemma parseScalarType_cases s :
  parseScalarType s ∈ [Int32Type; Int64Type; Float64Type; BoolType;
                        DateTimeType; BytesType; StringType].
Proof.
  unfold parseScalarType.
  repeat match goal with |- context [if ?b then _ else _] => destruct b end;
    in_list.
Qed.

(** X8. For every declared type, [GoTypeString] of the parsed type is the
    name of its Go type (an array needs no nil check), and its storage type
    is [TEXT] for an array.  The exporter's SQLite type and the registry's
    [SQLTypeString] name the same storage type, except for Int64 ([INTEGER]
    against [BIGINT]) and Bool ([INTEGER] against [BOOLEAN]). *)
Theorem parsed_type_names (t : string) :
  GoTypeString (ParseColumnType t)
  = Some (typeString (ctType (ParseColumnType t)))
  ∧ (IsArray (ParseColumnType t) = true →
     SQLTypeString (ParseColumnType t) = "TEXT")
  ∧ (ParseColumnType t ≠ Int64Type → ParseColumnType t ≠ BoolType →
     Exporter.SQLiteType_String (Exporter.GetSQLiteType (ParseColumnType t))
     = SQLTypeString (ParseColumnType t))
  ∧ (ParseColumnType t = Int64Type ∨ ParseColumnType t = BoolType →
     Exporter.SQLiteType_String (Exporter.GetSQLiteType (ParseColumnType t))
     = "INTEGER"
     ∧ SQLTypeString (ParseColumnType t) ≠ "INTEGER").
Proof.
  rewrite (ParseColumnType_unfold t).
  destruct (isArrayDecl (normalizeType t)).
  - split; [done|]. split; [done|]. split; [done|].
    intros [H|H]; discriminate H.
  - pose proof (parseScalarType_cases (normalizeType t)) as H.
    apply list_elem_of_In in H. simpl in H.
    destruct H as [<-|[<-|[<-|[<-|[<-|[<-|[<-|[]]]]]]]];
      (split; [done|]); (split; [done|]);
      (split; [intros; done || congruence|]);
      intros [H|H]; try discriminate H; split; done.
Qed.

Lemma parsed_type_names_witness :
  Exporter.SQLiteType_String (Exporter.GetSQLiteType (ParseColumnType "bigint"))
  = "INTEGER"
  ∧ SQLTypeString (ParseColumnType "bigint") ≠ "INTEGER".
Proof.
  apply (proj2 (proj2 (proj2 (parsed_type_names "bigint")))).
  left. reflexivity.
Defined.

(** ** Element column names *)

Lemma pretty_N_char_digit d :
  (d < 10)%N →
  isDigitByte (pretty_N_char d) = true
  ∧ (Z.of_nat (nat_of_ascii (pretty_N_char d)) - 48)%Z = Z.of_N d.
Proof.
  intros H.
  assert (d = 0 ∨ d = 1 ∨ d = 2 ∨ d = 3 ∨ d = 4 ∨ d = 5 ∨ d = 6 ∨ d = 7
          ∨ d = 8 ∨ d = 9)%N as Hd by lia.
  repeat (destruct Hd as [->|Hd]; [by vm_compute|]). subst. by vm_compute.
Qed.

Lemma digitsValue_pretty_N_go x s :
  digitsValue (pretty_N_go x s) 0 = digitsValue s (Z.of_N x).
Proof.
  revert s. induction (N.lt_wf_0 x) as [x _ IH]; intros s.
  assert (x = 0 ∨ 0 < x)%N as [->|Hx] by lia.
  { by rewrite pretty_N_go_0. }
  rewrite pretty_N_go_step by done.
  rewrite IH by (by apply N.div_lt).
  destruct (pretty_N_char_digit (x `mod` 10)) as [Hd Hv].
  { by apply N.mod_lt. }
  cbn [digitsValue]. rewrite Hd, Hv. f_equal.
  rewrite (N.div_mod x 10) at 3 by done. lia.
Qed.

Lemma pretty_N_go_head x s :
  (0 < x)%N →
  ∃ c r, pretty_N_go x s = String c r ∧ isDigitByte c = true.
Proof.
  revert s. induction (N.lt_wf_0 x) as [x _ IH]; intros s Hx.
  rewrite pretty_N_go_step by done.
  destruct (N.eq_0_gt_0_cases (x `div` 10)) as [->|Hq].
  - rewrite pretty_N_go_0. eexists _, _. split; [done|].
    apply pretty_N_char_digit. by apply N.mod_lt.
  - apply IH; [by apply N.div_lt|done].
Qed.

Lemma isDigitByte_not_sign c :
  isDigitByte c = true →
  Ascii.eqb c "-" = false ∧ Ascii.eqb c "+" = false
  ∧ Ascii.eqb c "_" = false.
Proof. byte_cases c. Qed.

(** [Atoi] reads back the numeral [Itoa] writes. *)
Lemma Atoi_Itoa (i : nat) :
  (Z.of_nat i < 2 ^ 63)%Z → Atoi (Itoa i) = Some (Z.of_nat i).
Proof.
  intros Hi. unfold Itoa, pretty, pretty_nat, pretty, pretty_N.
  assert (Hrange : ((- 2 ^ 63 <=? Z.of_nat i) && (Z.of_nat i <? 2 ^ 63))%Z
                   = true).
  { apply andb_true_iff. split; [apply Z.leb_le|apply Z.ltb_lt]; lia. }
  case_decide as H0.
  - assert (i = 0) as -> by lia. reflexivity.
  - destruct (pretty_N_go_head (N.of_nat i) EmptyString) as (c & r & E & Hc);
      [lia|].
    pose proof (digitsValue_pretty_N_go (N.of_nat i) EmptyString) as Hv.
    rewrite E in *. unfold Atoi.
    destruct (isDigitByte_not_sign c Hc) as (-> & -> & _).
    cbn [orb isEmpty]. rewrite Hv. cbn [digitsValue mbind option_bind].
    rewrite nat_N_Z. by rewrite Hrange.
Qed.

Lemma digitsValue_no_underscore s acc v :
  digitsValue s acc = Some v → splitFrom "_" s = (s, []).
Proof.
  revert acc. induction s as [|c s IH]; intros acc; [done|]. simpl.
  destruct (isDigitByte c) eqn:Hc; [|done]. intros H.
  rewrite (IH _ H). by destruct (isDigitByte_not_sign c Hc) as (_ & _ & ->).
Qed.

Lemma Split_append_sep a b sep :
  Split (a +:+ String sep b) sep = Split a sep ++ Split b sep.
Proof.
  unfold Split. induction a as [|c a IH].
  - rewrite append_empty_l. simpl. rewrite Ascii.eqb_refl.
    by destruct (splitFrom sep b).
  - rewrite append_cons. simpl.
    destruct (splitFrom sep (a +:+ String sep b)) as [w ws].
    destruct (splitFrom sep a) as [w' ws'].
    destruct (splitFrom sep b) as [w'' ws'']. simpl in IH.
    injection IH as -> ->. by destruct (Ascii.eqb c sep).
Qed.

Lemma Join_cons_cons x y r sep :
  Join (x :: y :: r) sep = x +:+ sep +:+ Join (y :: r) sep.
Proof. reflexivity. Qed.

Lemma Join_Split s sep :
  Join (Split s sep) (String sep EmptyString) = s.
Proof.
  unfold Split. induction s as [|c s IH]; [done|]. cbn [splitFrom].
  destruct (splitFrom sep s) as [w ws].
  destruct (Ascii.eqb_spec c sep) as [->|Hne].
  - by rewrite Join_cons_cons, IH.
  - destruct ws as [|y ws].
    + cbn [Join] in *. by rewrite IH.
    + rewrite Join_cons_cons in *. by rewrite append_cons, IH.
Qed.

Lemma Split_nonempty s sep : Split s sep ≠ [].
Proof. unfold Split. by destruct (splitFrom sep s). Qed.

Lemma Contains_no_underscore s :
  Contains s "_" = false → splitFrom "_" s = (s, []).
Proof.
  induction s as [|c s IH]; [done|]. cbn [Contains HasPrefix splitFrom].
  destruct (Ascii.eqb c "_"); [by destruct s|]. simpl.
  intros H. by rewrite (IH H).
Qed.

(** X9. [IsArrayColumn] reads an element column name back: for every base
    name and every index that fits an [int], the name [Base_i] the builder
    coins is split into the base name and the index.  A name without an
    underscore is never an element column. *)
Theorem IsArrayColumn_elementName (formattedName : string) (i : nat) :
  ((Z.of_nat i < 2 ^ 63)%Z →
   IsArrayColumn (elementName formattedName i)
   = (formattedName, Z.of_nat i, true))
  ∧ (Contains formattedName "_" = false →
     IsArrayColumn formattedName = (formattedName, (-1)%Z, false)).
Proof.
  split.
  - intros Hi. unfold IsArrayColumn, elementName.
    pose proof (Atoi_Itoa i Hi) as Ha.
    assert (Hs : Split (Itoa i) "_" = [Itoa i]).
    { unfold Atoi in Ha. unfold Split.
      destruct (Itoa i) as [|c r] eqn:E; [done|].
      destruct (isEmpty _); [done|].
      destruct (digitsValue _ 0) as [v|] eqn:Ev; [|done].
      destruct (Ascii.eqb c "-" || Ascii.eqb c "+") eqn:Es.
      - exfalso. revert Es Ha.
        unfold Itoa, pretty, pretty_nat, pretty, pretty_N in E.
        case_decide.
        + injection E as <- <-. done.
        + destruct (pretty_N_go_head (N.of_nat i) EmptyString)
            as (c' & r' & E' & Hc'); [lia|].
          rewrite E' in E. injection E as -> ->.
          by destruct (isDigitByte_not_sign c Hc') as (-> & -> & _).
      - by rewrite (digitsValue_no_underscore _ _ _ Ev). }
    assert (Hparts : Split (formattedName +:+ "_" +:+ Itoa i) "_"
                     = Split formattedName "_" ++ [Itoa i]).
    { change ("_" +:+ Itoa i) with (String "_" (Itoa i)).
      by rewrite Split_append_sep, Hs. }
    rewrite Hparts.
    pose proof (Split_nonempty formattedName "_") as Hne.
    rewrite length_app, last_snoc. simpl.
    destruct (length (Split formattedName "_")) as [|n] eqn:En.
    { by destruct (Split formattedName "_"). }
    replace (S n + 1 <? 2) with false by (symmetry; apply Nat.ltb_ge; lia).
    rewrite Ha. replace (S n + 1 - 1) with (S n) by lia.
    rewrite <- En, take_app_length. by rewrite Join_Split.
  - intros H%Contains_no_underscore. unfold IsArrayColumn, Split.
    by rewrite H.
Qed.

Lemma IsArrayColumn_elementName_witness :
  IsArrayColumn (elementName "Level_Req" 12) = ("Level_Req", 12%Z, true)
  ∧ IsArrayColumn "Name" = ("Name", (-1)%Z, false).
Proof.
  split.
  - apply (proj1 (IsArrayColumn_elementName "Level_Req" 12)). reflexivity.
  - apply (proj2 (IsArrayColumn_elementName "Name" 0)). reflexivity.
Defined.

(** ** What the model template receives *)

Lemma filterArrayColumnsFrom_spec columns (processed : gset string) :
  NoDup (Name <$> filterArrayColumnsFrom columns processed)
  ∧ (∀ c, c ∈ filterArrayColumnsFrom columns processed →
       (Name c ∉ processed) ∧ IsArray (Type_ c) = true)
  ∧ (filterArrayColumnsFrom columns processed `sublist_of` columns)
  ∧ (∀ c, c ∈ columns → IsArray (Type_ c) = true →
       Name c ∈ processed
       ∨ Name c ∈ (Name <$> filterArrayColumnsFrom columns processed)).
Proof.
  revert processed. induction columns as [|col r IH]; intros processed.
  { split; [constructor|]. split; [by intros c H%elem_of_nil|].
    split; [done|]. by intros c H%elem_of_nil. }
  cbn [filterArrayColumnsFrom].
  destruct (IsArray (Type_ col)) eqn:Ea; cbn [andb].
  - case_bool_decide as Hin; cbn [negb].
    + destruct (IH processed) as (N & M & S & C).
      split; [done|]. split; [done|]. split; [by apply sublist_cons|].
      intros c [->|Hc]%elem_of_cons Hc'; [by left|by apply C].
    + destruct (IH ({[Name col]} ∪ processed)) as (N & M & S & C).
      split; [|split; [|split]].
      * rewrite fmap_cons. constructor; [|done].
        intros (c & E & Hc)%list_elem_of_fmap.
        apply M in Hc as [Hc _]. apply Hc, elem_of_union. left.
        by apply elem_of_singleton.
      * intros c [->|Hc]%elem_of_cons; [done|].
        apply M in Hc as [Hc ?]. split; [|done].
        intros Hp. apply Hc, elem_of_union. by right.
      * by apply sublist_skip.
      * intros c [->|Hc]%elem_of_cons Hc'.
        { right. rewrite fmap_cons. by left. }
        destruct (C c Hc Hc') as [[->%elem_of_singleton|?]%elem_of_union|?].
        -- right. rewrite fmap_cons. by left.
        -- by left.
        -- right. rewrite fmap_cons. by right.
  - destruct (IH processed) as (N & M & S & C).
    split; [done|]. split; [done|]. split; [by apply sublist_cons|].
    intros c [->|Hc]%elem_of_cons Hc'; [congruence|by apply C].
Qed.

Lemma filterArrayColumnsFrom_unique columns (processed : gset string) :
  NoDup (Name <$> columns) →
  (∀ c, c ∈ columns → Name c ∉ processed) →
  filterArrayColumnsFrom columns processed
  = filter (λ c, Is_true (IsArray (Type_ c))) columns.
Proof.
  revert processed. induction columns as [|col r IH]; intros processed Hnd Hp;
    [done|].
  rewrite fmap_cons in Hnd. apply NoDup_cons in Hnd as [Hcol Hnd].
  cbn [filterArrayColumnsFrom]. rewrite filter_cons.
  destruct (IsArray (Type_ col)) eqn:Ea; cbn [andb].
  - case_bool_decide as Hin; [by destruct (Hp col ltac:(by left))|].
    cbn [negb]. rewrite decide_True by done. f_equal. apply IH; [done|].
    intros c Hc [E%elem_of_singleton|Hc']%elem_of_union.
    + apply Hcol, list_elem_of_fmap. by exists c.
    + apply (Hp c); [by right|done].
  - rewrite decide_False by (by intros []). apply IH; [done|].
    intros c Hc. apply Hp. by right.
Qed.

(** X10. [filterArrayColumns] returns array columns only, in the order of
    the table, with pairwise distinct names, and the name of every array
    column of the table is among them; for a table whose column names are
    distinct, as the builder's are, it returns exactly the array columns. *)
Theorem filterArrayColumns_spec (columns : list Column) :
  NoDup (Name <$> filterArrayColumns columns)
  ∧ (filterArrayColumns columns `sublist_of` columns)
  ∧ (∀ c, c ∈ filterArrayColumns columns → IsArray (Type_ c) = true)
  ∧ (∀ c, c ∈ columns → IsArray (Type_ c) = true →
       Name c ∈ (Name <$> filterArrayColumns columns))
  ∧ (NoDup (Name <$> columns) →
     filterArrayColumns columns
     = filter (λ c, Is_true (IsArray (Type_ c))) columns).
Proof.
  unfold filterArrayColumns.
  destruct (filterArrayColumnsFrom_spec columns ∅) as (N & M & S & C).
  split; [done|]. split; [done|].
  split; [intros c Hc; by apply M in Hc as [_ ?]|].
  split.
  - intros c Hc Ha. destruct (C c Hc Ha) as [H|H]; [|done].
    by apply elem_of_empty in H.
  - intros Hnd. apply filterArrayColumnsFrom_unique; [done|].
    intros c _ H. by apply elem_of_empty in H.
Qed.

Lemma filterArrayColumns_spec_witness :
  filterArrayColumns skillsColumns
  = filter (λ c, Is_true (IsArray (Type_ c))) skillsColumns.
Proof.
  apply (proj2 (proj2 (proj2 (proj2 (filterArrayColumns_spec skillsColumns))))).
  vm_compute. repeat constructor; intros H; apply list_elem_of_In in H;
    simpl in H; intuition discriminate.
Defined.

Lemma collectImportsLoop_spec columns (imports : gset string) flag :
  collectImportsLoop columns (imports, flag)
  = ((if existsb (λ col, isTimeType (ctType (Type_ col))) columns
      then {["time"]} ∪ imports else imports),
     flag || existsb (λ col, IsArray (Type_ col)) columns).
Proof.
  revert imports flag. induction columns as [|col r IH]; intros imports flag.
  { simpl. by rewrite orb_false_r. }
  cbn [collectImportsLoop existsb fst snd]. rewrite IH.
  destruct (isTimeType (ctType (Type_ col))); cbn [orb].
  - f_equal.
    + destruct (existsb _ r); [|done].
      by rewrite (assoc_L (∪)), (idemp_L (∪)).
    + destruct (IsArray (Type_ col)); [|done]. by rewrite orb_true_r.
  - f_equal. destruct (IsArray (Type_ col)); [|done]. by rewrite orb_true_r.
Qed.

(** X11. The import list of a generated model is sorted and is made of
    [gorm.io/gorm], of [fmt] and [reflect] exactly when a column is an array,
    and of [time] exactly when the Go type of a column is [time.Time]
    itself: a column of a parsed array type, [array<datetime>] among them
    (field type [[]time.Time]), does not bring [time] in. *)
Theorem collectImports_spec (columns : list Column) :
  collectImports columns
  = (if existsb (λ col, IsArray (Type_ col)) columns then ["fmt"] else [])
    ++ ["gorm.io/gorm"]
    ++ (if existsb (λ col, IsArray (Type_ col)) columns
        then ["reflect"] else [])
    ++ (if existsb (λ col, isTimeType (ctType (Type_ col))) columns
        then ["time"] else [])
  ∧ (Forall (λ col, IsArray (Type_ col) = true
                    ∧ ∃ t, Type_ col = ParseColumnType t) columns →
     "time" ∉ collectImports columns).
Proof.
  assert (Hmain : collectImports columns
    = (if existsb (λ col, IsArray (Type_ col)) columns then ["fmt"] else [])
      ++ ["gorm.io/gorm"]
      ++ (if existsb (λ col, IsArray (Type_ col)) columns
          then ["reflect"] else [])
      ++ (if existsb (λ col, isTimeType (ctType (Type_ col))) columns
          then ["time"] else [])).
  { unfold collectImports. rewrite collectImportsLoop_spec. cbn [orb].
    destruct (existsb (λ col, isTimeType _) columns);
      destruct (existsb (λ col, IsArray _) columns); by vm_compute. }
  split; [done|]. intros Hall. rewrite Hmain.
  assert (Ht : existsb (λ col, isTimeType (ctType (Type_ col))) columns
               = false).
  { apply not_true_is_false. intros (c & Hc & E)%existsb_exists.
    apply list_elem_of_In in Hc. rewrite Forall_forall in Hall.
    destruct (Hall c Hc) as (Ha & t & Et). rewrite Et in *.
    rewrite (ParseColumnType_unfold t) in Ha, E.
    destruct (isArrayDecl (normalizeType t)); [done|].
    by rewrite parseScalarType_scalar in Ha. }
  rewrite Ht. destruct (existsb _ columns); intros H;
    apply list_elem_of_In in H; simpl in H; intuition discriminate.
Qed.

Lemma collectImports_spec_witness :
  "time" ∉ collectImports
             [mkColumn "Seen" (ParseColumnType "array<datetime>")
                EmptyString false].
Proof.
  apply (proj2 (collectImports_spec _)).
  repeat constructor. by exists "array<datetime>".
Defined.

(** ** The order of the range over [arrayColumnCounts] *)

Lemma rangeFrom_index {A St : Type} (step : A → St → St + string) l i j s :
  rangeFrom (λ _, step) i l s = rangeFrom (λ _, step) j l s.
Proof.
  revert i j s. induction l as [|x l IH]; intros i j s; [done|]. simpl.
  destruct (step x s); [apply IH|done].
Qed.

(** A loop whose steps can be exchanged two by two reaches the same state
    in every order. *)
Lemma rangeFrom_Permutation {A St : Type} (step : A → St → St + string)
    (l1 l2 : list A) :
  l1 ≡ₚ l2 →
  (∀ a b s s1 s2, a ∈ l1 → b ∈ l1 →
     step a s = inl s1 → step b s1 = inl s2 →
     ∃ s1', step b s = inl s1' ∧ step a s1' = inl s2) →
  ∀ i j s s', rangeFrom (λ _, step) i l1 s = inl s' →
              rangeFrom (λ _, step) j l2 s = inl s'.
Proof.
  induction 1 as [|x l l' Hp IH|x y l|l l' l'' Hp1 IH1 Hp2 IH2];
    intros Hc i j s s'.
  - done.
  - simpl. destruct (step x s) as [s1|]; [|done]. apply IH.
    intros a b t t1 t2 Ha Hb. apply Hc; by right.
  - simpl. destruct (step y s) as [s1|] eqn:Ey; [|done].
    destruct (step x s1) as [s2|] eqn:Ex; [|done].
    destruct (Hc y x s s1 s2) as (s1' & Ex' & Ey'); [by left|by right; left|done..|].
    rewrite Ex', Ey'. intros <-. apply rangeFrom_index.
  - intros H. apply (IH2 (λ a b t t1 t2 Ha Hb,
      Hc a b t t1 t2 ltac:(by rewrite Hp1) ltac:(by rewrite Hp1)) i j).
    by apply (IH1 Hc i i).
Qed.

Lemma collect_counts (fieldNames types : list string) st' :
  rangeFrom (collectStep types) 0 fieldNames (∅, ∅) = inl st' →
  ∀ k c, st'.2 !! k = Some c → k ∈ arrayNames fieldNames types.
Proof.
  intros H.
  eapply (rangeFrom_invariant
            (λ st : gmap string string * gmap string nat,
               ∀ k c, st.2 !! k = Some c → k ∈ arrayNames fieldNames types));
    [| |exact H].
  - intros k c. simpl. by rewrite lookup_empty.
  - intros j x s1 s2 Hj Hs1. simpl. unfold collectStep.
    destruct (types !! j) as [ty|] eqn:Ety; [|by intros [= <-]].
    destruct (isEmpty (TrimSpace x)) eqn:Ee; [by intros [= <-]|].
    destruct (HasPrefix (TrimSpace ty) "array<") eqn:Ea; intros [= <-];
      [|done].
    intros k c. simpl. rewrite lookup_insert. case_decide; [|by apply Hs1].
    subst k. intros _. unfold arrayNames. apply list_elem_of_omap.
    exists (x, ty). split.
    + apply list_elem_of_lookup_2 with j. apply lookup_zip_with_Some.
      by exists x, ty.
    + simpl. by rewrite Ee, Ea.
Qed.

Lemma arrayNames_formatted fieldNames types k :
  k ∈ arrayNames fieldNames types →
  k ≠ EmptyString ∧ FormatColumnName k = k.
Proof.
  unfold arrayNames. intros ([n ty] & _ & H)%list_elem_of_omap.
  simpl in H. destruct (isEmpty (TrimSpace n)) eqn:Ee; [done|].
  destruct (HasPrefix _ _); [|done]. injection H as <-.
  split; [|apply FormatColumnName_idempotent].
  rewrite FormatColumnName_words, Fields_TrimSpace. intros Hj.
  apply joined_words_empty in Hj; [|apply Fields_words].
  apply Fields_nil_allSpace, TrimSpace_empty_allSpace in Hj.
  apply isEmpty_false in Ee. done.
Qed.

Lemma findBaseTypeStr_found (l types : list string) k i0 :
  findBaseTypeStr l types k i0 ≠ EmptyString →
  ∃ j name ty,
    l !! j = Some name ∧ types !! (i0 + j) = Some ty ∧ TrimSpace name = k.
Proof.
  revert i0. induction l as [|x l IH]; intros i0; simpl; [done|].
  assert (Hrec : findBaseTypeStr l types k (S i0) ≠ EmptyString →
    ∃ j name ty, (x :: l) !! j = Some name ∧ types !! (i0 + j) = Some ty
                 ∧ TrimSpace name = k).
  { intros (j & name & ty' & ? & ? & ?)%IH. exists (S j), name, ty'.
    by replace (i0 + S j) with (S i0 + j) by lia. }
  destruct (types !! i0) as [ty|] eqn:Ety; [|done].
  destruct (String.eqb_spec (TrimSpace x) k) as [E|E]; [|done].
  intros _. exists 0, x, ty. by rewrite Nat.add_0_r.
Qed.

Lemma addElementColumns_union fn bt count (m : gmap string Column) :
  addElementColumns fn bt count m = addElementColumns fn bt count ∅ ∪ m.
Proof.
  unfold addElementColumns. generalize (seq 0 count). intros l. revert m.
  induction l as [|i l IH]; intros m; simpl.
  - by rewrite (left_id_L ∅ (∪)).
  - rewrite (IH (<[_ := _]> m)), (IH (<[_ := _]> ∅)).
    rewrite <- (assoc_L (∪)). f_equal.
    by rewrite insert_union_singleton_l, insert_empty.
Qed.

Lemma addElementColumns_keys fn bt count (m : gmap string Column) key :
  is_Some (addElementColumns fn bt count m !! key) →
  is_Some (m !! key) ∨ ∃ i, key = elementName fn i.
Proof.
  unfold addElementColumns. generalize (seq 0 count). intros l. revert m.
  induction l as [|i l IH]; intros m; simpl; [by left|].
  intros [H|H]%IH; [|by right]. rewrite lookup_insert in H.
  case_decide; [right; by exists i|by left].
Qed.

(** What one round of the second loop does does not depend on the map it
    finds: it fails, or it writes a fixed set of columns, under the name of
    the entry and its element names. *)
Lemma arrayStep_effect fieldNames types pn k count :
  namesFormatted pn → namesCollected fieldNames types pn →
  k ∈ arrayNames fieldNames types →
  (∃ e, ∀ m, arrayStep fieldNames types pn (k, count) m = inr e)
  ∨ ∃ g : gmap string Column,
      (∀ m, arrayStep fieldNames types pn (k, count) m = inl (g ∪ m))
      ∧ ∀ key, is_Some (g !! key) → key = k ∨ ∃ i, key = elementName k i.
Proof.
  intros Hpn Hcol [Hne Hfmt]%arrayNames_formatted. unfold arrayStep.
  destruct (isEmpty (findBaseTypeStr fieldNames types k 0)) eqn:Eb.
  - destruct (IsReservedColumnName _); [left; by eexists|].
    right. exists ∅. split.
    + intros m. by rewrite (left_id_L ∅ (∪)).
    + intros key [? H]. by rewrite lookup_empty in H.
  - apply isEmpty_false in Eb.
    destruct (findBaseTypeStr_found _ _ _ _ Eb) as (j & name & ty & Hj & Ht & E).
    assert (Hl : pn !! k = Some k).
    { rewrite <- Hfmt at 2. rewrite <- E. apply (Hcol j name ty).
      split; [done|]. split; [done|]. by rewrite E. }
    rewrite Hl. simpl.
    destruct (IsReservedColumnName k); [left; by eexists|].
    right.
    set (bt := ParseColumnType (findBaseTypeStr fieldNames types k 0)).
    exists (addElementColumns k bt count (<[k := arrayColumn k bt]> ∅)).
    split.
    + intros m. rewrite (addElementColumns_union _ _ _ (<[_ := _]> m)).
      rewrite (addElementColumns_union _ _ _ (<[_ := _]> ∅)).
      rewrite <- (assoc_L (∪)). f_equal.
      by rewrite insert_union_singleton_l, insert_empty.
    + intros key [H|H]%addElementColumns_keys; [|by right].
      rewrite lookup_insert in H. case_decide; [by left|].
      rewrite lookup_empty in H. by destruct H.
Qed.

Lemma Itoa_no_underscore i : Split (Itoa i) "_" = [Itoa i].
Proof.
  assert (H : ∃ v, digitsValue (Itoa i) 0 = Some v).
  { unfold Itoa, pretty, pretty_nat, pretty, pretty_N. case_decide.
    - by eexists.
    - rewrite digitsValue_pretty_N_go. by eexists. }
  destruct H as [v H]. unfold Split.
  by rewrite (digitsValue_no_underscore _ _ _ H).
Qed.

Lemma elementName_base a b i j : elementName a i = elementName b j → a = b.
Proof.
  unfold elementName. intros H.
  assert (Hs : ∀ x n, Split (x +:+ "_" +:+ Itoa n) "_"
                      = Split x "_" ++ [Itoa n]).
  { intros x n. change ("_" +:+ Itoa n) with (String "_" (Itoa n)).
    by rewrite Split_append_sep, Itoa_no_underscore. }
  apply (f_equal (λ s, Split s "_")) in H. rewrite !Hs in H.
  apply app_inj_tail in H as [H _].
  by rewrite <- (Join_Split a "_"), <- (Join_Split b "_"), H.
Qed.

Lemma elementName_longer a i : a ≠ elementName a i.
Proof.
  intros H%(f_equal String.length). unfold elementName in H.
  rewrite !length_append in H. simpl in H. lia.
Qed.

Lemma BuildColumnsIn_order_ok rangeOrder1 rangeOrder2
    (fieldNames types tags : list string) columns :
  visitsEachOnce rangeOrder1 → visitsEachOnce rangeOrder2 →
  (∀ a b i, a ∈ arrayNames fieldNames types →
     b ∈ arrayNames fieldNames types → a ≠ b → b ≠ elementName a i) →
  BuildColumnsIn rangeOrder1 fieldNames types tags = BuildOk columns →
  BuildColumnsIn rangeOrder2 fieldNames types tags = BuildOk columns.
Proof.
  unfold visitsEachOnce. intros H1 H2 Hind. unfold BuildColumnsIn.
  destruct (collect_spec fieldNames types) as (pn & cnt & E & Hpn & Hcol).
  rewrite E. pose proof (collect_counts _ _ _ E) as Hkeys. simpl in Hkeys.
  destruct (rangeFrom _ 0 (rangeOrder1 cnt) ∅) as [m1|e] eqn:E1; [|done].
  apply (rangeFrom_Permutation _ _ (rangeOrder2 cnt)) with (j := 0) in E1.
  { by rewrite E1. }
  { by rewrite H1, H2. }
  intros [ka ca] [kb cb] s s1 s2 Ha Hb Hsa Hsb.
  rewrite H1 in Ha, Hb.
  apply elem_of_map_to_list in Ha, Hb.
  destruct (arrayStep_effect fieldNames types pn ka ca Hpn Hcol
              (Hkeys _ _ Ha)) as [[e He]|(ga & Hga & Ka)].
  { by rewrite He in Hsa. }
  destruct (arrayStep_effect fieldNames types pn kb cb Hpn Hcol
              (Hkeys _ _ Hb)) as [[e He]|(gb & Hgb & Kb)].
  { by rewrite He in Hsb. }
  rewrite Hga in Hsa. injection Hsa as <-.
  rewrite Hgb in Hsb. injection Hsb as <-.
  exists (gb ∪ s). split; [apply Hgb|]. rewrite Hga. f_equal.
  destruct (decide (ka = kb)) as [->|Hne].
  - assert (ca = cb) as -> by congruence.
    assert (ga = gb) as ->; [|done].
    pose proof (Hga ∅) as Ea. rewrite Hgb in Ea. injection Ea as Ea.
    by rewrite !(right_id_L ∅ (∪)) in Ea.
  - rewrite !(assoc_L (∪)). f_equal. apply map_union_comm.
    apply map_disjoint_spec. intros key x y Hx Hy.
    destruct (Ka key ltac:(by eexists)) as [->|[i ->]];
      destruct (Kb _ ltac:(by eexists)) as [Ek|[j Ek]].
    + done.
    + by apply (Hind kb ka j (Hkeys _ _ Hb) (Hkeys _ _ Ha)).
    + apply (Hind ka kb i (Hkeys _ _ Ha) (Hkeys _ _ Hb)); done.
    + by apply elementName_base in Ek.
Qed.

(** X12. The second loop of [BuildColumns] ranges over a map, in an order Go
    leaves open.  When no array header is named like an element column of
    another array header, the order does not matter: two orders give the
    same columns, or both give an error. *)
Theorem BuildColumns_range_order_irrelevant rangeOrder1 rangeOrder2
    (fieldNames types tags : list string) :
  visitsEachOnce rangeOrder1 → visitsEachOnce rangeOrder2 →
  (∀ a b i, a ∈ arrayNames fieldNames types →
     b ∈ arrayNames fieldNames types → a ≠ b → b ≠ elementName a i) →
  match BuildColumnsIn rangeOrder1 fieldNames types tags,
        BuildColumnsIn rangeOrder2 fieldNames types tags with
  | BuildOk columns1, BuildOk columns2 => columns1 = columns2
  | BuildErr _, BuildErr _ => True
  | _, _ => False
  end.
Proof.
  intros H1 H2 Hind.
  destruct (BuildColumnsIn rangeOrder1 fieldNames types tags) as [c1|e1]
    eqn:E1.
  - by rewrite (BuildColumnsIn_order_ok _ _ _ _ _ _ H1 H2 Hind E1).
  - destruct (BuildColumnsIn rangeOrder2 fieldNames types tags) as [c2|e2]
      eqn:E2; [|done].
    rewrite (BuildColumnsIn_order_ok _ _ _ _ _ _ H2 H1 Hind E2) in E1.
    discriminate.
Qed.

Lemma BuildColumns_range_order_irrelevant_witness :
  match BuildColumnsIn map_to_list
          ["Name"; "Skills"; "Skills"; "Tags"]
          ["string"; "array<int>"; "array<int>"; "array<string>"] [],
        BuildColumnsIn reverseOrder
          ["Name"; "Skills"; "Skills"; "Tags"]
          ["string"; "array<int>"; "array<int>"; "array<string>"] [] with
  | BuildOk columns1, BuildOk columns2 => columns1 = columns2
  | BuildErr _, BuildErr _ => True
  | _, _ => False
  end.
Proof.
  apply BuildColumns_range_order_irrelevant.
  - by intros m.
  - intros m. apply reverse_Permutation.
  - intros a b i Ha Hb Hne. apply list_elem_of_In in Ha, Hb.
    vm_compute in Ha, Hb. unfold elementName.
    destruct Ha as [<-|[<-|[<-|[]]]]; destruct Hb as [<-|[<-|[<-|[]]]];
      try done; simpl; discriminate.
Defined.

(** X13. Without that condition the result depends on the order of the
    range: with an array header [A] and an array header [A_0], the column
    [A_0] is the whole second array or the first element of the first,
    according to which entry the loop visits last. *)
Theorem BuildColumns_range_order_matters :
  ∃ rangeOrder1 rangeOrder2 fieldNames types tags columns1 columns2,
    visitsEachOnce rangeOrder1 ∧ visitsEachOnce rangeOrder2
    ∧ BuildColumnsIn rangeOrder1 fieldNames types tags = BuildOk columns1
    ∧ BuildColumnsIn rangeOrder2 fieldNames types tags = BuildOk columns2
    ∧ Type_ <$> columns1 ≠ Type_ <$> columns2.
Proof.
  exists map_to_list, reverseOrder, ["A"; "A_0"],
    ["array<int>"; "array<string>"], [].
  eexists _, _. split; [by intros m|].
  split; [intros m; apply reverse_Permutation|].
  split; [by vm_compute|]. split; [by vm_compute|]. by vm_compute.
Qed.

(** ** Relations of package exporter *)

Lemma copyTables_result tables i tableMap :
  (ExporterRelations.copyTables tables i tableMap).1
  = ExporterRelations.copyTable <$> tables.
Proof.
  revert i tableMap. induction tables as [|t r IH]; intros i m; [done|].
  simpl. specialize (IH (S i) (<[Exporter.TableName t := i]> m)).
  destruct (ExporterRelations.copyTables r _ _). simpl in *. by rewrite IH.
Qed.

Lemma copyTables_tableMap tables i tableMap name :
  (ExporterRelations.copyTables tables i tableMap).2 !! name
  = match ExporterRelations.lastTableNamed tables name i with
    | Some j => Some j
    | None => tableMap !! name
    end.
Proof.
  revert i tableMap. induction tables as [|t r IH]; intros i m; [done|].
  simpl. specialize (IH (S i) (<[Exporter.TableName t := i]> m)).
  destruct (ExporterRelations.copyTables r _ _). simpl in *. rewrite IH.
  destruct (ExporterRelations.lastTableNamed r name (S i)); [done|].
  rewrite lookup_insert.
  destruct (String.eqb_spec (Exporter.TableName t) name);
    by case_decide.
Qed.

Lemma lastTableNamed_spec tables name i0 k t :
  tables !! k = Some t →
  ExporterRelations.lastTableNamed tables name i0 = Some (i0 + k)
  ↔ Exporter.TableName t = name
    ∧ ExporterRelations.namesakeAfter tables k name = false.
Proof.
  assert (Hlow : ∀ l i j,
    ExporterRelations.lastTableNamed l name i = Some j →
    i ≤ j ∧ existsb (λ t, String.eqb (Exporter.TableName t) name) l = true).
  { induction l as [|x l IH]; intros i j; [done|]. simpl.
    destruct (ExporterRelations.lastTableNamed l name (S i)) as [j'|] eqn:E.
    - intros [= ->]. destruct (IH _ _ E) as [? ->]. rewrite orb_true_r.
      split; [lia|done].
    - destruct (String.eqb _ _); [|done]. intros [= ->]. by split. }
  assert (Hnone : ∀ l i,
    ExporterRelations.lastTableNamed l name i = None →
    existsb (λ t, String.eqb (Exporter.TableName t) name) l = false).
  { induction l as [|x l IH]; intros i; [done|]. simpl.
    destruct (ExporterRelations.lastTableNamed l name (S i)) eqn:E; [done|].
    destruct (String.eqb _ _); [done|]. intros _. by apply (IH (S i)). }
  unfold ExporterRelations.namesakeAfter.
  revert i0 k. induction tables as [|x l IH]; intros i0 k Hk; [done|].
  simpl. destruct k as [|k]; simpl in Hk.
  - injection Hk as ->. rewrite Nat.add_0_r, drop_0.
    destruct (ExporterRelations.lastTableNamed l name (S i0)) as [j|] eqn:E.
    + destruct (Hlow _ _ _ E) as [Hj ->]. split; [|by intros [_ ?]].
      intros [= ->]. lia.
    + rewrite (Hnone _ _ E).
      destruct (String.eqb_spec (Exporter.TableName t) name); split;
        try done; by intros [? _].
  - replace (i0 + S k) with (S i0 + k) by lia.
    rewrite <- (IH (S i0) k Hk).
    destruct (ExporterRelations.lastTableNamed l name (S i0)) as [j|] eqn:E;
      [done|].
    destruct (String.eqb _ _); split; try done. intros [= ?]. lia.
Qed.

Lemma assign_loop (tableMap : gmap string nat)
    (relations : list Exporter.Relation) (result : list Exporter.Table) i :
  foldl (λ result rel,
           match tableMap !! Exporter.SourceTable rel with
           | Some idx => alter (ExporterRelations.appendRelation rel) idx result
           | None => result
           end) result relations !! i
  = (λ t, Exporter.mkTable (Exporter.TableName t) (Exporter.SheetName t)
            (Exporter.Columns t)
            (Exporter.Relations t
             ++ filter (λ rel, tableMap !! Exporter.SourceTable rel = Some i)
                  relations))
    <$> result !! i.
Proof.
  revert result. induction relations as [|rel r IH]; intros result.
  - simpl. destruct (result !! i) as [[]|]; simpl; [|done].
    by rewrite app_nil_r.
  - cbn [foldl]. rewrite IH, filter_cons.
    destruct (tableMap !! Exporter.SourceTable rel) as [idx|] eqn:E.
    + rewrite list_lookup_alter. destruct (decide (idx = i)) as [->|Hne].
      * rewrite decide_True by done.
        destruct (result !! i) as [[]|]; simpl; [|done].
        by rewrite <- app_assoc.
      * by rewrite decide_False by congruence.
    + by rewrite decide_False by done.
Qed.

Lemma filter_iff {A} (P Q : A → Prop) `{!∀ x, Decision (P x)}
    `{!∀ x, Decision (Q x)} (l : list A) :
  (∀ x, P x ↔ Q x) → filter P l = filter Q l.
Proof.
  intros Hpq. induction l as [|x l IH]; [done|]. rewrite !filter_cons, IH.
  destruct (decide (P x)) as [HP|HP]; destruct (decide (Q x)) as [HQ|HQ];
    try done; exfalso; first [by apply Hpq in HP|by apply Hpq in HQ].
Qed.

Lemma filter_none {A} (P : A → Prop) `{!∀ x, Decision (P x)} (l : list A) :
  (∀ x, ¬ P x) → filter P l = [].
Proof.
  intros Hp. induction l as [|x l IH]; [done|]. rewrite filter_cons, IH.
  by rewrite decide_False.
Qed.

(** X14. [assignRelationsToTables] returns one table for each table it is
    given, with the same name, sheet name and columns.  The relations of
    a table are the relations whose source table is its name, in the order
    of the relation sheet; when several tables have one name, the last of
    them gets those relations and the others get none.  A relation whose
    source table names no table is in no table. *)
Theorem assignRelationsToTables_spec (tables : list Exporter.Table)
    (relations : list Exporter.Relation) (i : nat) (table : Exporter.Table) :
  tables !! i = Some table →
  ExporterRelations.assignRelationsToTables tables relations !! i
  = Some (Exporter.mkTable (Exporter.TableName table)
            (Exporter.SheetName table) (Exporter.Columns table)
            (if ExporterRelations.namesakeAfter tables i
                  (Exporter.TableName table)
             then []
             else filter (λ rel, Exporter.SourceTable rel
                                  = Exporter.TableName table) relations))
    ∧ length (ExporterRelations.assignRelationsToTables tables relations)
      = length tables.
Proof.
  intros Hi. unfold ExporterRelations.assignRelationsToTables.
  pose proof (copyTables_result tables 0 ∅) as Hr.
  pose proof (copyTables_tableMap tables 0 ∅) as Hm.
  destruct (ExporterRelations.copyTables tables 0 ∅) as [result tableMap].
  simpl in Hr, Hm. subst result. split.
  - rewrite assign_loop, list_lookup_fmap, Hi. simpl. f_equal. f_equal.
    destruct (ExporterRelations.namesakeAfter tables i
                (Exporter.TableName table)) eqn:En.
    + apply filter_none. intros rel. rewrite Hm, lookup_empty.
      destruct (ExporterRelations.lastTableNamed tables _ 0) as [j|] eqn:E;
        [|done].
      intros [= ->].
      apply (lastTableNamed_spec tables _ 0 i table Hi) in E as [E1 E2].
      rewrite E1 in En. congruence.
    + apply filter_iff. intros rel. rewrite Hm, lookup_empty.
      pose proof (lastTableNamed_spec tables (Exporter.SourceTable rel) 0 i
                    table Hi) as Hs. simpl in Hs.
      destruct (ExporterRelations.lastTableNamed tables _ 0) as [j|] eqn:E.
      * split.
        -- intros [= ->]. symmetry. by apply Hs.
        -- intros Hn. rewrite Hn in Hs. f_equal.
           assert (Some j = Some i) as [= ->]; [|done]. by apply Hs.
      * split; [done|]. intros Hn. rewrite Hn in Hs.
        assert (None = Some i); [|done]. by apply Hs.
  - induction relations as [|rel r IH] using rev_ind; simpl.
    + by rewrite length_fmap.
    + rewrite foldl_app. simpl. destruct (tableMap !! _); [|done].
      by rewrite length_alter.
Qed.

Lemma assignRelationsToTables_spec_witness :
  ExporterRelations.assignRelationsToTables
    [Exporter.mkTable "User" "User" [] []; Exporter.mkTable "Post" "Post" [] [];
     Exporter.mkTable "User" "Users" [] []]
    [Exporter.mkRelation "User" "Post" "hasMany" "UserID" "ID";
     Exporter.mkRelation "Tag" "Post" "hasMany" "TagID" "ID"] !! 0
  = Some (Exporter.mkTable "User" "User" [] []).
Proof.
  apply (proj1 (assignRelationsToTables_spec
    [Exporter.mkTable "User" "User" [] []; Exporter.mkTable "Post" "Post" [] [];
     Exporter.mkTable "User" "Users" [] []]
    [Exporter.mkRelation "User" "Post" "hasMany" "UserID" "ID";
     Exporter.mkRelation "Tag" "Post" "hasMany" "TagID" "ID"] 0
    (Exporter.mkTable "User" "User" [] []) eq_refl)).
Defined.

(** ** The relation sheet *)

Lemma trimRight_idem s : trimRight (trimRight s) = trimRight s.
Proof.
  induction s as [|c s IH]; [done|]. cbn [trimRight].
  destruct (isSpaceByte c && isEmpty (trimRight s)) eqn:E; [done|].
  cbn [trimRight]. by rewrite IH, E.
Qed.

Lemma trimLeft_head s :
  match trimLeft s with
  | String c _ => isSpaceByte c = false
  | EmptyString => True
  end.
Proof.
  induction s as [|c s IH]; [done|]. simpl.
  by destruct (isSpaceByte c) eqn:E.
Qed.

Lemma TrimSpace_idem s : TrimSpace (TrimSpace s) = TrimSpace s.
Proof.
  unfold TrimSpace. pose proof (trimLeft_head s) as H.
  destruct (trimLeft s) as [|c r]; [done|].
  assert (E : trimRight (String c r) = String c (trimRight r)).
  { cbn [trimRight]. by rewrite H. }
  rewrite E. cbn [trimLeft]. rewrite H, <- E. apply trimRight_idem.
Qed.

Lemma isSpaceByte_toLowerByte c : isSpaceByte (toLowerByte c) = isSpaceByte c.
Proof. byte_cases c. Qed.

Lemma toLowerByte_idem c : toLowerByte (toLowerByte c) = toLowerByte c.
Proof. byte_cases c. Qed.

Lemma ToLower_idem s : ToLower (ToLower s) = ToLower s.
Proof.
  unfold ToLower. induction s as [|c s IH]; [done|]. simpl.
  by rewrite toLowerByte_idem, IH.
Qed.

Lemma TrimSpace_ToLower s : TrimSpace (ToLower s) = ToLower (TrimSpace s).
Proof.
  unfold TrimSpace, ToLower.
  assert (HL : ∀ t, trimLeft (mapBytes toLowerByte t)
                    = mapBytes toLowerByte (trimLeft t)).
  { induction t as [|c t IH]; [done|]. simpl.
    rewrite isSpaceByte_toLowerByte. by destruct (isSpaceByte c). }
  assert (HR : ∀ t, trimRight (mapBytes toLowerByte t)
                    = mapBytes toLowerByte (trimRight t)).
  { induction t as [|c t IH]; [done|]. simpl.
    rewrite isSpaceByte_toLowerByte, IH.
    destruct (trimRight t); simpl; by destruct (isSpaceByte c). }
  by rewrite HL, HR.
Qed.

Lemma normalizeRelationType_idem relType :
  ExporterRelations.normalizeRelationType
    (ExporterRelations.normalizeRelationType relType)
  = ExporterRelations.normalizeRelationType relType.
Proof.
  unfold ExporterRelations.normalizeRelationType at 2 3.
  destruct (inList _ ["hasone"; "has_one"; "has-one"]) eqn:E1; [done|].
  destruct (inList _ ["hasmany"; "has_many"; "has-many"]) eqn:E2; [done|].
  destruct (inList _ ["belongsto"; "belongs_to"; "belongs-to"]) eqn:E3;
    [done|].
  unfold ExporterRelations.normalizeRelationType.
  by rewrite <- TrimSpace_ToLower, ToLower_idem, TrimSpace_ToLower,
    TrimSpace_idem, E1, E2, E3.
Qed.

Lemma missingColumn_spec (rangeOrder : gmap string Z → list (string * Z))
    (m : gmap string Z) :
  rangeOrder m ≡ₚ map_to_list m →
  match missingColumn (rangeOrder m) with
  | Some h => m !! h = Some (-1)%Z
  | None => ∀ k, m !! k ≠ Some (-1)%Z
  end.
Proof.
  intros Hp. unfold missingColumn.
  destruct (List.find _ (rangeOrder m)) as [[h v]|] eqn:E; simpl.
  - apply List.find_some in E as [Hin Hv]. simpl in Hv.
    apply Z.eqb_eq in Hv as ->. apply list_elem_of_In in Hin.
    rewrite Hp in Hin. by apply elem_of_map_to_list in Hin.
  - intros k Hk. apply elem_of_map_to_list in Hk. rewrite <- Hp in Hk.
    apply list_elem_of_In in Hk.
    by apply (List.find_none _ _ E) in Hk.
Qed.

Lemma relationHeaders_noIndexes k v :
  noIndexes !! k = Some v → v = (-1)%Z ∧ k ∈ relationHeaders.
Proof.
  unfold noIndexes. intros H%elem_of_list_to_map_2.
  apply list_elem_of_fmap in H as (h & [= -> ->] & Hh). done.
Qed.

Lemma noIndexes_headers h :
  h ∈ relationHeaders → noIndexes !! h = Some (-1)%Z ∧ TrimSpace h = h.
Proof.
  intros H. apply list_elem_of_In in H. simpl in H.
  repeat (destruct H as [<-|H]; [by vm_compute|]). done.
Qed.

(** The header loop of package exporter. *)
Lemma exporter_headerIndexes_spec cells i (m : gmap string Z) :
  dom (ExporterRelations.headerIndexes cells i m) = dom m
  ∧ (∀ k, k ∉ TrimSpace <$> cells →
       ExporterRelations.headerIndexes cells i m !! k = m !! k)
  ∧ (∀ k, k ∈ TrimSpace <$> cells → is_Some (m !! k) →
       ∃ j, ExporterRelations.headerIndexes cells i m !! k
            = Some (Z.of_nat j) ∧ i ≤ j < i + length cells)
  ∧ (∀ k v, ExporterRelations.headerIndexes cells i m !! k = Some v →
       m !! k = Some v
       ∨ ∃ j, v = Z.of_nat j ∧ i ≤ j < i + length cells).
Proof.
  revert i m. induction cells as [|cell r IH]; intros i m.
  { split; [done|]. split; [done|]. split; [|by left].
    by intros k H%elem_of_nil. }
  cbn [ExporterRelations.headerIndexes].
  set (m1 := if bool_decide (is_Some (m !! TrimSpace cell))
             then <[TrimSpace cell := Z.of_nat i]> m else m).
  destruct (IH (S i) m1) as (D & B & C & V).
  assert (Hdom : dom m1 = dom m).
  { unfold m1. case_bool_decide as Hs; [|done].
    rewrite dom_insert_L. apply subseteq_union_1_L, singleton_subseteq_l.
    by apply elem_of_dom. }
  assert (Hother : ∀ k, k ≠ TrimSpace cell → m1 !! k = m !! k).
  { intros k Hk. unfold m1. case_bool_decide; [|done].
    by rewrite lookup_insert_ne. }
  split; [by rewrite D|]. split; [|split].
  - intros k Hk. rewrite fmap_cons, not_elem_of_cons in Hk.
    destruct Hk as [Hk1 Hk2]. by rewrite B, Hother.
  - intros k Hk Hs. rewrite fmap_cons in Hk.
    destruct (decide (k ∈ TrimSpace <$> r)) as [Hr|Hr].
    + destruct (C k Hr) as (j & Hj & ?).
      { apply elem_of_dom. rewrite Hdom. by apply elem_of_dom. }
      exists j. split; [done|]. simpl. lia.
    + apply elem_of_cons in Hk as [->|Hk]; [|done].
      exists i. rewrite B by done. unfold m1.
      rewrite bool_decide_true by done. rewrite lookup_insert_eq.
      split; [done|]. simpl. lia.
  - intros k v [Hv|(j & -> & ?)]%V.
    + unfold m1 in Hv. case_bool_decide; [|by left].
      rewrite lookup_insert in Hv. case_decide; [|by left].
      injection Hv as <-. right. exists i. split; [done|]. simpl. lia.
    + right. exists j. split; [done|]. simpl. lia.
Qed.

(** The header loop of the generator. *)
Lemma generator_headerIndexes_spec cells i (m : gmap string Z) :
  (∀ k, is_Some (m !! k) → is_Some (headerIndexes cells i m !! k))
  ∧ (∀ k, k ∉ cells → headerIndexes cells i m !! k = m !! k)
  ∧ (∀ k, k ∈ cells → TrimSpace k = k → is_Some (m !! k) →
       ∃ j, headerIndexes cells i m !! k = Some (Z.of_nat j)
            ∧ i ≤ j < i + length cells)
  ∧ (∀ k v, headerIndexes cells i m !! k = Some v →
       m !! k = Some v
       ∨ ∃ j, v = Z.of_nat j ∧ i ≤ j < i + length cells).
Proof.
  revert i m. induction cells as [|cell r IH]; intros i m.
  { split; [done|]. split; [done|]. split; [|by left].
    by intros k H%elem_of_nil. }
  cbn [headerIndexes].
  set (m1 := if bool_decide (is_Some (m !! TrimSpace cell))
             then <[cell := Z.of_nat i]> m else m).
  destruct (IH (S i) m1) as (D & B & C & V).
  assert (Hgrow : ∀ k, is_Some (m !! k) → is_Some (m1 !! k)).
  { intros k Hk. unfold m1. case_bool_decide; [|done].
    rewrite lookup_insert. by case_decide. }
  assert (Hother : ∀ k, k ≠ cell → m1 !! k = m !! k).
  { intros k Hk. unfold m1. case_bool_decide; [|done].
    by rewrite lookup_insert_ne. }
  split; [by auto|]. split; [|split].
  - intros k Hk. rewrite not_elem_of_cons in Hk.
    destruct Hk as [Hk1 Hk2]. by rewrite B, Hother.
  - intros k Hk Htrim Hs.
    destruct (decide (k ∈ r)) as [Hr|Hr].
    + destruct (C k Hr Htrim (Hgrow k Hs)) as (j & Hj & ?).
      exists j. split; [done|]. simpl. lia.
    + apply elem_of_cons in Hk as [->|Hk]; [|done].
      exists i. rewrite B by done. unfold m1. rewrite Htrim.
      rewrite bool_decide_true by done. rewrite lookup_insert_eq.
      split; [done|]. simpl. lia.
  - intros k v [Hv|(j & -> & ?)]%V.
    + unfold m1 in Hv. case_bool_decide; [|by left].
      rewrite lookup_insert in Hv. case_decide; [|by left].
      injection Hv as <-. right. exists i. split; [done|]. simpl. lia.
    + right. exists j. split; [done|]. simpl. lia.
Qed.

Lemma cellAt_in_range (row : list string) (v : Z) n :
  (0 ≤ v < Z.of_nat n)%Z → n ≤ length row → is_Some (cellAt row v).
Proof.
  intros Hv Hn. unfold cellAt.
  replace (v <? 0)%Z with false by (symmetry; apply Z.ltb_ge; lia).
  apply lookup_lt_is_Some. lia.
Qed.

Lemma headers_in_range (m : gmap string Z) n h :
  (∀ k, is_Some (noIndexes !! k) → is_Some (m !! k)) →
  (∀ k v, m !! k = Some v →
     noIndexes !! k = Some v ∨ ∃ j, v = Z.of_nat j ∧ 0 ≤ j < 0 + n) →
  (∀ k, m !! k ≠ Some (-1)%Z) →
  h ∈ relationHeaders →
  (0 ≤ columnOf m h < Z.of_nat n)%Z.
Proof.
  intros Hdom Hval Hnone [Hh _]%noIndexes_headers.
  destruct (Hdom h) as [v Hv]; [by eexists|]. unfold columnOf.
  rewrite Hv. simpl.
  destruct (Hval h v Hv) as [H0|(j & -> & ?)]; [|lia].
  destruct (Hnone h). congruence.
Qed.

Lemma exporter_relationOfRow_total (m : gmap string Z) n row :
  (∀ h, h ∈ relationHeaders → (0 ≤ columnOf m h < Z.of_nat n)%Z) →
  n ≤ length row →
  is_Some (ExporterRelations.relationOfRow m row).
Proof.
  intros Hm Hn. unfold ExporterRelations.relationOfRow.
  destruct (cellAt_in_range row _ n (Hm "SourceTable" ltac:(in_list)) Hn)
    as [? ->].
  destruct (cellAt_in_range row _ n (Hm "TargetTable" ltac:(in_list)) Hn)
    as [? ->].
  destruct (cellAt_in_range row _ n (Hm "RelationType" ltac:(in_list)) Hn)
    as [? ->].
  destruct (cellAt_in_range row _ n (Hm "ForeignKey" ltac:(in_list)) Hn)
    as [? ->].
  destruct (cellAt_in_range row _ n (Hm "ReferenceKey" ltac:(in_list)) Hn)
    as [? ->].
  simpl. by eexists.
Qed.

Lemma exporter_relationOfRow_ok (m : gmap string Z) row relation :
  ExporterRelations.relationOfRow m row = Some relation →
  ExporterRelations.normalizeRelationType (Exporter.RelationType relation)
  = Exporter.RelationType relation
  ∧ Exporter.ForeignKey relation ≠ EmptyString
  ∧ Exporter.ReferenceKey relation ≠ EmptyString.
Proof.
  unfold ExporterRelations.relationOfRow.
  destruct (cellAt row (columnOf m "SourceTable")) as [source|];
    cbn [mbind option_bind]; [|done].
  destruct (cellAt row (columnOf m "TargetTable")) as [target|];
    cbn [mbind option_bind]; [|done].
  destruct (cellAt row (columnOf m "RelationType")) as [relType|];
    cbn [mbind option_bind]; [|done].
  destruct (cellAt row (columnOf m "ForeignKey")) as [foreignKey|];
    cbn [mbind option_bind]; [|done].
  destruct (cellAt row (columnOf m "ReferenceKey")) as [referenceKey|];
    cbn [mbind option_bind]; [|done].
  intros [= <-]. simpl. split; [apply normalizeRelationType_idem|]. split.
  - destruct (isEmpty (TrimSpace foreignKey)) eqn:E.
    + by destruct (TrimSpace source).
    + by apply isEmpty_false.
  - destruct (isEmpty (TrimSpace referenceKey)) eqn:E; [done|].
    by apply isEmpty_false.
Qed.

Lemma exporter_relationRows_ok (m : gmap string Z) rows relations :
  size m = 5 →
  ExporterRelations.relationRows m rows = Some relations →
  length relations = length (filter (λ row, 5 ≤ length row) rows)
  ∧ Forall (λ relation,
      ExporterRelations.normalizeRelationType
        (Exporter.RelationType relation) = Exporter.RelationType relation
      ∧ Exporter.ForeignKey relation ≠ EmptyString
      ∧ Exporter.ReferenceKey relation ≠ EmptyString) relations.
Proof.
  intros Hsize. revert relations.
  induction rows as [|row r IH]; intros relations.
  { intros [= <-]. by split. }
  cbn [ExporterRelations.relationRows]. rewrite Hsize, filter_cons.
  destruct (Nat.ltb_spec (length row) 5) as [Hlt|Hge].
  - rewrite decide_False by lia. apply IH.
  - rewrite decide_True by lia.
    destruct (ExporterRelations.relationOfRow m row) as [relation|] eqn:E;
      [|done]. simpl.
    destruct (ExporterRelations.relationRows m r) as [rest|]; [|done].
    simpl. intros [= <-]. destruct (IH rest eq_refl) as [Hl Hf].
    split; [simpl; by rewrite Hl|]. constructor; [|done].
    by apply (exporter_relationOfRow_ok m row).
Qed.

Lemma exporter_relationRows_total (m : gmap string Z) n rows :
  (∀ h, h ∈ relationHeaders → (0 ≤ columnOf m h < Z.of_nat n)%Z) →
  Forall (λ row, n ≤ length row) rows →
  is_Some (ExporterRelations.relationRows m rows).
Proof.
  intros Hm. induction 1 as [|row r Hrow _ IH]; [by eexists|].
  cbn [ExporterRelations.relationRows].
  destruct (length row <? size m); [done|].
  destruct (exporter_relationOfRow_total m n row Hm Hrow) as [? ->].
  destruct IH as [? ->]. by eexists.
Qed.

(** X15. Package exporter reads the relation sheet as follows, when the
    workbook has one with a header row and a data row.  It returns an error
    exactly when one of the five headers is the trimmed text of no cell of
    the header row.  Otherwise a data row of fewer than five cells is left
    out and every other row gives one relation, whose type is normalized
    and whose foreign and reference keys are not empty; a source table, a
    target table and a type may be empty or unknown.  A row that is not
    shorter than the header row never reads beyond its end. *)
Theorem exporter_parseRelations_spec
    (rangeOrder : gmap string Z → list (string * Z))
    (sheetList : list string) (header row : list string)
    (rows : list (list string)) :
  (∀ m, rangeOrder m ≡ₚ map_to_list m) →
  ExporterRelations.contains sheetList "#Relation" = true →
  let result :=
    ExporterRelations.parseRelations rangeOrder sheetList
      (header :: row :: rows) in
  ((∃ msg, result = RelationsErr msg)
   ↔ ∃ h, h ∈ relationHeaders ∧ h ∉ TrimSpace <$> header)
  ∧ (∀ relations, result = RelationsOk relations →
       length relations
       = length (filter (λ r, 5 ≤ length r) (row :: rows))
       ∧ Forall (λ relation,
           ExporterRelations.normalizeRelationType
             (Exporter.RelationType relation)
           = Exporter.RelationType relation
           ∧ Exporter.ForeignKey relation ≠ EmptyString
           ∧ Exporter.ReferenceKey relation ≠ EmptyString) relations)
  ∧ (Forall (λ r, length header ≤ length r) (row :: rows) →
     result ≠ RelationsPanic).
Proof.
  intros Hp Hsheet result. subst result.
  unfold ExporterRelations.parseRelations. rewrite Hsheet.
  change (default [] ((header :: row :: rows) !! 0)) with header.
  change (drop 1 (header :: row :: rows)) with (row :: rows).
  change (length (header :: row :: rows) <? 2) with false. cbn [negb].
  set (m := ExporterRelations.headerIndexes header 0 noIndexes).
  destruct (exporter_headerIndexes_spec header 0 noIndexes)
    as (D & B & C & V). fold m in D, B, C, V.
  pose proof (missingColumn_spec rangeOrder m (Hp m)) as Hmiss.
  assert (Hsize : size m = 5).
  { by rewrite <- size_dom, D, size_dom. }
  assert (Hdom : ∀ k, is_Some (noIndexes !! k) → is_Some (m !! k)).
  { intros k Hk. apply elem_of_dom. rewrite D. by apply elem_of_dom. }
  destruct (missingColumn (rangeOrder m)) as [col|].
  - split; [|split; [done|done]]. split; [|by eexists]. intros _.
    exists col. destruct (V col _ Hmiss) as [H0|(j & ? & _)]; [|lia].
    apply relationHeaders_noIndexes in H0 as [_ Hcol]. split; [done|].
    intros Hin. destruct (C col Hin) as (j & Hj & _).
    { eexists. apply (noIndexes_headers col Hcol). }
    rewrite Hj in Hmiss. injection Hmiss. lia.
  - split; [|split].
    + split.
      * intros [msg H]. by destruct (ExporterRelations.relationRows m _).
      * intros (h & Hh & Hnot). destruct (Hmiss h).
        rewrite (B h Hnot). by apply noIndexes_headers.
    + intros relations.
      destruct (ExporterRelations.relationRows m (row :: rows)) as [rels|]
        eqn:E; [|done].
      intros [= <-]. by apply (exporter_relationRows_ok m).
    + intros Hall.
      destruct (exporter_relationRows_total m (length header) (row :: rows))
        as [rels ->]; [|done|done].
      intros h Hh. by apply headers_in_range.
Qed.

Lemma exporter_parseRelations_spec_witness :
  ExporterRelations.parseRelations map_to_list ["Item"; "#Relation"]
    [[" SourceTable"; "TargetTable "; "RelationType"; "ForeignKey";
      "ReferenceKey"];
     ["User"; "Post"; "Has_Many"; "UserID"; "ID"]]
  ≠ RelationsPanic.
Proof.
  apply (exporter_parseRelations_spec map_to_list ["Item"; "#Relation"]
    [" SourceTable"; "TargetTable "; "RelationType"; "ForeignKey";
      "ReferenceKey"]
    ["User"; "Post"; "Has_Many"; "UserID"; "ID"] []).
  - by intros m.
  - reflexivity.
  - repeat constructor.
Defined.

Lemma generator_relationOfRow_total (m : gmap string Z) n row :
  (∀ h, h ∈ relationHeaders → (0 ≤ columnOf m h < Z.of_nat n)%Z) →
  n ≤ length row →
  is_Some (relationOfRow m row).
Proof.
  intros Hm Hn. unfold relationOfRow.
  destruct ((length row <? 5) || isEmptyRow row); [by eexists|].
  destruct (cellAt_in_range row _ n (Hm "SourceTable" ltac:(in_list)) Hn)
    as [? ->].
  destruct (cellAt_in_range row _ n (Hm "TargetTable" ltac:(in_list)) Hn)
    as [? ->].
  destruct (cellAt_in_range row _ n (Hm "RelationType" ltac:(in_list)) Hn)
    as [? ->].
  destruct (cellAt_in_range row _ n (Hm "ForeignKey" ltac:(in_list)) Hn)
    as [? ->].
  destruct (cellAt_in_range row _ n (Hm "ReferenceKey" ltac:(in_list)) Hn)
    as [? ->].
  cbn [mbind option_bind].
  destruct (_ || _); [by eexists|].
  repeat (destruct (inList _ _); [by eexists|]). by eexists.
Qed.

Lemma generator_relationOfRow_ok (m : gmap string Z) row relation :
  relationOfRow m row = Some (Some relation) →
  RelationType relation ∈ ["hasOne"; "hasMany"; "belongsTo"]
  ∧ SourceTable relation ≠ EmptyString
  ∧ TargetTable relation ≠ EmptyString
  ∧ ForeignKey relation ≠ EmptyString
  ∧ ReferenceKey relation ≠ EmptyString.
Proof.
  unfold relationOfRow.
  destruct ((length row <? 5) || isEmptyRow row); [done|].
  destruct (cellAt row (columnOf m "SourceTable")) as [source|];
    cbn [mbind option_bind]; [|done].
  destruct (cellAt row (columnOf m "TargetTable")) as [target|];
    cbn [mbind option_bind]; [|done].
  destruct (cellAt row (columnOf m "RelationType")) as [relType|];
    cbn [mbind option_bind]; [|done].
  destruct (cellAt row (columnOf m "ForeignKey")) as [foreignKey|];
    cbn [mbind option_bind]; [|done].
  destruct (cellAt row (columnOf m "ReferenceKey")) as [referenceKey|];
    cbn [mbind option_bind]; [|done].
  destruct (isEmpty (TrimSpace source)) eqn:Es; [done|].
  destruct (isEmpty (TrimSpace target)) eqn:Et; [done|].
  destruct (isEmpty (TrimSpace relType)) eqn:Er; [done|]. cbn [orb].
  apply isEmpty_false in Es, Et.
  assert (Hf : (if isEmpty (TrimSpace foreignKey)
                then TrimSpace source +:+ "ID" else TrimSpace foreignKey)
               ≠ EmptyString).
  { destruct (isEmpty (TrimSpace foreignKey)) eqn:E.
    - by destruct (TrimSpace source).
    - by apply isEmpty_false. }
  assert (Hr : (if isEmpty (TrimSpace referenceKey)
                then "ID" else TrimSpace referenceKey) ≠ EmptyString).
  { destruct (isEmpty (TrimSpace referenceKey)) eqn:E; [done|].
    by apply isEmpty_false. }
  destruct (inList _ ["hasone"; "has_one"; "has-one"]).
  { intros [= <-]. simpl. split; [in_list|done]. }
  destruct (inList _ ["hasmany"; "has_many"; "has-many"]).
  { intros [= <-]. simpl. split; [in_list|done]. }
  destruct (inList _ ["belongsto"; "belongs_to"; "belongs-to"]); [|done].
  intros [= <-]. simpl. split; [in_list|done].
Qed.

Lemma generator_relationRows_ok (m : gmap string Z) rows old relations :
  relationRows m rows old = Some relations →
  ∃ new, relations = old ++ new ∧ length new ≤ length rows
    ∧ Forall (λ relation,
        RelationType relation ∈ ["hasOne"; "hasMany"; "belongsTo"]
        ∧ SourceTable relation ≠ EmptyString
        ∧ TargetTable relation ≠ EmptyString
        ∧ ForeignKey relation ≠ EmptyString
        ∧ ReferenceKey relation ≠ EmptyString) new.
Proof.
  revert old. induction rows as [|row r IH]; intros old.
  { intros [= <-]. exists []. by rewrite app_nil_r. }
  cbn [relationRows].
  destruct (relationOfRow m row) as [[relation|]|] eqn:E; [| |done].
  - intros (new & -> & Hl & Hf)%IH. exists (relation :: new).
    split; [by rewrite <- app_assoc|]. split; [simpl; lia|].
    constructor; [|done]. by apply (generator_relationOfRow_ok m row).
  - intros (new & -> & Hl & Hf)%IH. exists new.
    split; [done|]. split; [simpl; lia|done].
Qed.

Lemma generator_relationRows_total (m : gmap string Z) n rows old :
  (∀ h, h ∈ relationHeaders → (0 ≤ columnOf m h < Z.of_nat n)%Z) →
  Forall (λ row, n ≤ length row) rows →
  is_Some (relationRows m rows old).
Proof.
  intros Hm H. revert old. induction H as [|row r Hrow _ IH]; intros old;
    [by eexists|].
  cbn [relationRows].
  destruct (generator_relationOfRow_total m n row Hm Hrow) as [[?|] ->];
    apply IH.
Qed.

(** X16. The generator reads the relation sheet as follows, when the sheet
    has a header row and a data row.  It returns an error exactly when one
    of the five headers is no cell of the header row as it stands: a header
    cell that differs from the header by white space around it does not
    count, though the loop looks the trimmed cell up.  Otherwise the
    relations it had are kept and at most one is added for each data row;
    every relation added has one of the three relation types and no empty
    field.  A row that is not shorter than the header row never reads
    beyond its end. *)
Theorem generator_parseRelations_spec
    (rangeOrder : gmap string Z → list (string * Z))
    (header row : list string) (rows : list (list string))
    (old : list Relation) :
  (∀ m, rangeOrder m ≡ₚ map_to_list m) →
  let result := parseRelations rangeOrder (header :: row :: rows) old in
  ((∃ msg, result = RelationsErr msg)
   ↔ ∃ h, h ∈ relationHeaders ∧ h ∉ header)
  ∧ (∀ relations, result = RelationsOk relations →
       ∃ new, relations = old ++ new
         ∧ length new ≤ length (row :: rows)
         ∧ Forall (λ relation,
             RelationType relation ∈ ["hasOne"; "hasMany"; "belongsTo"]
             ∧ SourceTable relation ≠ EmptyString
             ∧ TargetTable relation ≠ EmptyString
             ∧ ForeignKey relation ≠ EmptyString
             ∧ ReferenceKey relation ≠ EmptyString) new)
  ∧ (Forall (λ r, length header ≤ length r) (row :: rows) →
     result ≠ RelationsPanic).
Proof.
  intros Hp result. subst result. unfold parseRelations.
  change (default [] ((header :: row :: rows) !! 0)) with header.
  change (drop 1 (header :: row :: rows)) with (row :: rows).
  change (length (header :: row :: rows) <? 2) with false. cbv iota.
  set (m := headerIndexes header 0 noIndexes).
  destruct (generator_headerIndexes_spec header 0 noIndexes)
    as (D & B & C & V). fold m in D, B, C, V.
  pose proof (missingColumn_spec rangeOrder m (Hp m)) as Hmiss.
  destruct (missingColumn (rangeOrder m)) as [col|].
  - split; [|split; [done|done]]. split; [|by eexists]. intros _.
    exists col. destruct (V col _ Hmiss) as [H0|(j & ? & _)]; [|lia].
    apply relationHeaders_noIndexes in H0 as [_ Hcol]. split; [done|].
    intros Hin. destruct (noIndexes_headers col Hcol) as [H0 Htrim].
    destruct (C col Hin Htrim) as (j & Hj & _); [by eexists|].
    rewrite Hj in Hmiss. injection Hmiss. lia.
  - split; [|split].
    + split.
      * intros [msg H]. by destruct (relationRows m _ _).
      * intros (h & Hh & Hnot). destruct (Hmiss h).
        rewrite (B h Hnot). by apply noIndexes_headers.
    + intros relations.
      destruct (relationRows m (row :: rows) old) as [rels|] eqn:E; [|done].
      intros [= <-]. by apply (generator_relationRows_ok m).
    + intros Hall.
      destruct (generator_relationRows_total m (length header) (row :: rows)
                  old) as [rels ->]; [|done|done].
      intros h Hh. by apply headers_in_range.
Qed.

Lemma generator_parseRelations_spec_witness :
  ∃ msg,
    parseRelations map_to_list
      [[" SourceTable"; "TargetTable"; "RelationType"; "ForeignKey";
        "ReferenceKey"];
       ["User"; "Post"; "hasMany"; "UserID"; "ID"]] []
    = RelationsErr msg.
Proof.
  apply (proj1 (generator_parseRelations_spec map_to_list
    [" SourceTable"; "TargetTable"; "RelationType"; "ForeignKey";
     "ReferenceKey"]
    ["User"; "Post"; "hasMany"; "UserID"; "ID"] [] []
    (λ m, reflexivity (map_to_list m)))).
  exists "SourceTable". split; [in_list|].
  intros H. apply list_elem_of_In in H. simpl in H.
  intuition discriminate.
Defined.

(** ** The registry of exporters *)

Lemma mergeOptions_shared {V : Type}
    (defaultOpts userOpts : ExporterRegistry.Options)
    (h : gmap nat (gmap string V)) a :
  ExporterRegistry.ExtraOptions defaultOpts = Some a →
  ExporterRegistry.mergeOptions defaultOpts userOpts h
  = (ExporterRegistry.mkOptions
       (ExporterRegistry.orDefault (ExporterRegistry.OutputDir userOpts)
          (ExporterRegistry.OutputDir defaultOpts))
       (ExporterRegistry.orDefault (ExporterRegistry.PackageName userOpts)
          (ExporterRegistry.PackageName defaultOpts))
       (Some a)
       (ExporterRegistry.orDefault (ExporterRegistry.TemplateDir userOpts)
          (ExporterRegistry.TemplateDir defaultOpts))
       (ExporterRegistry.orDefault (ExporterRegistry.DBDriver userOpts)
          (ExporterRegistry.DBDriver defaultOpts))
       (ExporterRegistry.orDefault (ExporterRegistry.DBName userOpts)
          (ExporterRegistry.DBName defaultOpts)),
     <[a := ExporterRegistry.mapAt h (ExporterRegistry.ExtraOptions userOpts)
            ∪ ExporterRegistry.mapAt h (Some a)]> h).
Proof. intros E. unfold ExporterRegistry.mergeOptions. by rewrite E. Qed.

Lemma mapAt_insert_eq {V : Type} (h : gmap nat (gmap string V)) a x :
  ExporterRegistry.mapAt (<[a := x]> h) (Some a) = x.
Proof. unfold ExporterRegistry.mapAt. by rewrite lookup_insert_eq. Qed.

Lemma mapAt_insert_ne {V : Type} (h : gmap nat (gmap string V)) a x
    ref :
  ref ≠ Some a →
  ExporterRegistry.mapAt (<[a := x]> h) ref = ExporterRegistry.mapAt h ref.
Proof.
  intros Hne. destruct ref as [b|]; [|done]. unfold ExporterRegistry.mapAt.
  rewrite lookup_insert_ne; [done|congruence].
Qed.

(** X17. [mergeOptions] writes the user's extra options into the map of the
    default options it is given, not into a copy.  When a language is
    registered with a map of extra options, the options handed to its
    exporter by a call of [Registry.Export] therefore hold the extra
    options of every earlier call for that language, unless a later caller
    overrides them; the other fields come from the present caller and the
    registered defaults only. *)
Theorem Registry_Export_keeps_earlier_extra_options {V : Type}
    (r : ExporterRegistry.Registry) (lang : string)
    (defaultOpts opts1 opts2 : ExporterRegistry.Options)
    (h : gmap nat (gmap string V)) (a : nat) :
  lang ∈ ExporterRegistry.factories r →
  ExporterRegistry.GetOptions r lang = Some defaultOpts →
  ExporterRegistry.ExtraOptions defaultOpts = Some a →
  ExporterRegistry.ExtraOptions opts2 ≠ Some a →
  ∃ merged1 h1 merged2 h2,
    ExporterRegistry.Export r lang opts1 h = (inl merged1, h1)
    ∧ ExporterRegistry.Export r lang opts2 h1 = (inl merged2, h2)
    ∧ ExporterRegistry.mapAt h2 (ExporterRegistry.ExtraOptions merged2)
      = ExporterRegistry.mapAt h (ExporterRegistry.ExtraOptions opts2)
        ∪ (ExporterRegistry.mapAt h (ExporterRegistry.ExtraOptions opts1)
           ∪ ExporterRegistry.mapAt h
               (ExporterRegistry.ExtraOptions defaultOpts))
    ∧ ExporterRegistry.mapAt h2 (ExporterRegistry.ExtraOptions defaultOpts)
      = ExporterRegistry.mapAt h2 (ExporterRegistry.ExtraOptions merged2)
    ∧ ExporterRegistry.OutputDir merged2
      = ExporterRegistry.orDefault (ExporterRegistry.OutputDir opts2)
          (ExporterRegistry.OutputDir defaultOpts)
    ∧ ExporterRegistry.PackageName merged2
      = ExporterRegistry.orDefault (ExporterRegistry.PackageName opts2)
          (ExporterRegistry.PackageName defaultOpts)
    ∧ ExporterRegistry.TemplateDir merged2
      = ExporterRegistry.orDefault (ExporterRegistry.TemplateDir opts2)
          (ExporterRegistry.TemplateDir defaultOpts)
    ∧ ExporterRegistry.DBDriver merged2
      = ExporterRegistry.orDefault (ExporterRegistry.DBDriver opts2)
          (ExporterRegistry.DBDriver defaultOpts)
    ∧ ExporterRegistry.DBName merged2
      = ExporterRegistry.orDefault (ExporterRegistry.DBName opts2)
          (ExporterRegistry.DBName defaultOpts).
Proof.
  intros Hlang Hopts Ha Hne. unfold ExporterRegistry.Export.
  rewrite bool_decide_true by done. rewrite Hopts. cbn [default].
  rewrite !(mergeOptions_shared _ _ _ a Ha).
  eexists _, _, _, _. split; [done|].
  rewrite !(mergeOptions_shared _ _ _ a Ha).
  split; [done|]. rewrite Ha. cbn [ExporterRegistry.ExtraOptions].
  split; [|done].
  by rewrite !mapAt_insert_eq, (mapAt_insert_ne _ _ _ _ Hne).
Qed.

Lemma Registry_Export_keeps_earlier_extra_options_witness :
  ∃ merged1 h1 merged2 h2,
    ExporterRegistry.Export
      (ExporterRegistry.Register ExporterRegistry.NewRegistry "go"
         (ExporterRegistry.mkOptions EmptyString "models" (Some 0)
            EmptyString EmptyString EmptyString))
      "go"
      (ExporterRegistry.mkOptions "out" EmptyString (Some 1) EmptyString
         EmptyString EmptyString)
      (<[0 := {["useGorm" := true]}]> (<[1 := {["debug" := true]}]> ∅))
    = (inl merged1, h1)
    ∧ ExporterRegistry.Export
        (ExporterRegistry.Register ExporterRegistry.NewRegistry "go"
           (ExporterRegistry.mkOptions EmptyString "models" (Some 0)
              EmptyString EmptyString EmptyString))
        "go"
        (ExporterRegistry.mkOptions "out" EmptyString None EmptyString
           EmptyString EmptyString) h1
      = (inl merged2, h2)
    ∧ ExporterRegistry.mapAt h2 (ExporterRegistry.ExtraOptions merged2)
        !! "debug" = Some true.
Proof.
  destruct (Registry_Export_keeps_earlier_extra_options (V := bool)
    (ExporterRegistry.Register ExporterRegistry.NewRegistry "go"
       (ExporterRegistry.mkOptions EmptyString "models" (Some 0)
          EmptyString EmptyString EmptyString))
    "go"
    (ExporterRegistry.mkOptions EmptyString "models" (Some 0)
       EmptyString EmptyString EmptyString)
    (ExporterRegistry.mkOptions "out" EmptyString (Some 1) EmptyString
       EmptyString EmptyString)
    (ExporterRegistry.mkOptions "out" EmptyString None EmptyString
       EmptyString EmptyString)
    (<[0 := {["useGorm" := true]}]> (<[1 := {["debug" := true]}]> ∅)) 0)
    as (merged1 & h1 & merged2 & h2 & E1 & E2 & Hm & _).
  - by vm_compute.
  - reflexivity.
  - reflexivity.
  - discriminate.
  - exists merged1, h1, merged2, h2. split; [done|]. split; [done|].
    rewrite Hm. reflexivity.
Defined.

(** ** Default values in the schema *)

Lemma Index_takeBytes s (c : ascii) e :
  Index s (String c EmptyString) = Some e →
  Index (takeBytes e s) (String c EmptyString) = None.
Proof.
  revert e. induction s as [|d s IH]; intros e; [done|].
  cbn [Index HasPrefix].
  destruct (Ascii.eqb d c) eqn:E.
  - destruct s; intros [= <-]; done.
  - destruct (Index s (String c EmptyString)) as [e'|] eqn:Ei; [|done].
    intros [= <-]. cbn [takeBytes Index HasPrefix]. rewrite E.
    by rewrite (IH e' eq_refl).
Qed.

Lemma Index_none_append s (c d : ascii) :
  ContainsAny s (String c EmptyString) = false → Ascii.eqb d c = false →
  Index (s +:+ String d EmptyString) (String c EmptyString) = None.
Proof.
  intros Hs Hd. induction s as [|x s IH].
  - simpl. by rewrite Hd.
  - rewrite append_cons. cbn [Index HasPrefix].
    cbn [ContainsAny containsByte] in Hs.
    apply orb_false_iff in Hs as [Hx Hs]. rewrite orb_false_r in Hx.
    rewrite Hx. by rewrite (IH Hs).
Qed.

Lemma ContainsAny_weaken s chars c :
  ContainsAny s chars = false → containsByte chars c = true →
  ContainsAny s (String c EmptyString) = false.
Proof.
  intros Hs Hc. induction s as [|x s IH]; [done|].
  cbn [ContainsAny containsByte] in *.
  apply orb_false_iff in Hs as [Hx Hs]. rewrite (IH Hs), !orb_false_r.
  destruct (Ascii.eqb_spec x c) as [->|]; [congruence|done].
Qed.

Lemma splitFrom_no_sep s (sep : ascii) :
  ContainsAny s (String sep EmptyString) = false → splitFrom sep s = (s, []).
Proof.
  induction s as [|x s IH]; [done|]. cbn [ContainsAny containsByte splitFrom].
  intros [Hx Hs]%orb_false_iff. rewrite orb_false_r in Hx.
  by rewrite (IH Hs), Hx.
Qed.

Lemma trimRight_fixed v : TrimSpace v = v → trimRight v = v.
Proof.
  unfold TrimSpace. intros H. rewrite <- H at 1. rewrite trimRight_idem.
  exact H.
Qed.

Lemma gormTagOf_default v :
  TrimSpace v = v →
  gormTagOf ("default=" +:+ v) = Some ("default:" +:+ v).
Proof.
  intros Hv. unfold gormTagOf.
  assert (Ht : TrimSpace ("default=" +:+ v) = "default=" +:+ v).
  { unfold TrimSpace. simpl.
    by rewrite !append_empty_l, (trimRight_fixed v Hv). }
  rewrite Ht. simpl. rewrite !append_empty_l, Hv. by destruct v.
Qed.

(** X18. The default value [generateSQLSchema] takes from the tag text of
    a column holds no semicolon.  For a column whose tag cell is
    [default=v], it is
    [v] followed by the double quote that closes the gorm tag, and the
    column definition of the schema ends with it. *)
Theorem default_value_keeps_closing_quote (tags : list string) (i : nat)
    (name ty v : string) :
  tagAt tags i = "default=" +:+ v →
  ContainsAny v ",;" = false →
  TrimSpace v = v →
  let col := regularColumn tags i name ty in
  (∀ tagText, Index (extractDefaultValue tagText) ";" = None)
  ∧ extractDefaultValue (Tags col) = v +:+ String dquote EmptyString
  ∧ HasSuffix (defRest (scalarDef col))
      (" DEFAULT " +:+ v +:+ String dquote EmptyString) = true.
Proof.
  intros Htag Hv Htrim col.
  assert (Hd : extractDefaultValue (Tags col)
               = v +:+ String dquote EmptyString).
  { unfold col, regularColumn. cbn [Tags]. rewrite Htag.
    unfold parseTagToGORMTag, Split.
    rewrite splitFrom_no_sep.
    2:{ cbn [ContainsAny containsByte HasPrefix append].
        apply (ContainsAny_weaken _ ",;"); [exact Hv|reflexivity]. }
    cbn [omap list_omap]. rewrite (gormTagOf_default v Htrim).
    cbn [Join]. unfold extractDefaultValue, gormWrap, quoted.
    rewrite (append_assoc "default:" v).
    set (rest := v +:+ String dquote EmptyString).
    replace (Index ("gorm:" +:+ String dquote ("default:" +:+ rest))
               "default:") with (Some 6) by (by destruct rest).
    change (dropBytes (6 + String.length "default:")
              ("gorm:" +:+ String dquote ("default:" +:+ rest))) with rest.
    unfold rest. rewrite Index_none_append; [done| |reflexivity].
    apply (ContainsAny_weaken _ ",;"); [exact Hv|reflexivity]. }
  split; [|split; [exact Hd|]].
  - intros tagText. unfold extractDefaultValue.
    destruct (Index tagText "default:") as [idx|]; [|done].
    destruct (Index (dropBytes _ tagText) ";") as [e|] eqn:E; [|done].
    by apply Index_takeBytes.
  - unfold scalarDef. cbn [defRest]. rewrite Hd.
    replace (isEmpty (v +:+ String dquote EmptyString)) with false
      by (by destruct v).
    cbn iota. generalize (" DEFAULT " +:+ v +:+ String dquote EmptyString).
    intros suffix. rewrite <- !append_assoc. apply HasSuffix_append.
Qed.

Lemma default_value_keeps_closing_quote_witness :
  extractDefaultValue (Tags (regularColumn ["default=0"] 0 "Level" "int"))
  = "0" +:+ String dquote EmptyString.
Proof.
  apply (proj1 (proj2 (default_value_keeps_closing_quote ["default=0"] 0
                         "Level" "int" "0" eq_refl eq_refl eq_refl))).
Defined.

(** ** The values [generateDatabase] inserts *)

Lemma headerPositions_spec cells i (m : gmap string nat) k j :
  headerPositions cells i m !! k = Some j
  ↔ (∃ p cell, cells !! p = Some cell ∧ TrimSpace cell = k
       ∧ k ≠ EmptyString ∧ j = i + p
       ∧ ∀ q cell', cells !! q = Some cell' → TrimSpace cell' = k → q ≤ p)
    ∨ ((∀ cell, cell ∈ cells → TrimSpace cell = k → k = EmptyString)
       ∧ m !! k = Some j).
Proof.
  revert i m. induction cells as [|c r IH]; intros i m.
  { simpl. split; [intros H; right; split; [|done]|].
    - by intros cell Hc%elem_of_nil.
    - by intros [(p & cell & H & _)|[_ H]]. }
  cbn [headerPositions]. rewrite IH. clear IH. split.
  - intros [(p & cell & Hp & Hk & Hne & -> & Hlast)|[Hnone Hm]].
    + left. exists (S p), cell. split; [done|]. split; [done|].
      split; [done|]. split; [lia|].
      intros [|q] cell' Hq Hk'; [lia|]. simpl in Hq.
      specialize (Hlast q cell' Hq Hk'). lia.
    + destruct (isEmpty (TrimSpace c)) eqn:Ee.
      * right. split; [|done]. intros cell [->|Hc]%elem_of_cons Hk.
        -- apply isEmpty_true in Ee. congruence.
        -- by apply (Hnone cell).
      * apply isEmpty_false in Ee. rewrite lookup_insert in Hm.
        case_decide as Hk.
        -- injection Hm as <-. left. exists 0, c. split; [done|].
           split; [done|]. split; [congruence|]. split; [lia|].
           intros [|q] cell' Hq Hk'; [lia|]. simpl in Hq.
           apply list_elem_of_lookup_2 in Hq.
           specialize (Hnone cell' Hq Hk'). congruence.
        -- right. split; [|done]. intros cell [->|Hc]%elem_of_cons Hk'.
           ++ done.
           ++ by apply (Hnone cell).
  - intros [(p & cell & Hp & Hk & Hne & -> & Hlast)|[Hnone Hm]].
    + destruct p as [|p]; simpl in Hp.
      * injection Hp as ->. right. split.
        -- intros cell' Hc Hk'. apply list_elem_of_lookup_1 in Hc as [q Hq].
           specialize (Hlast (S q) cell' Hq Hk'). lia.
        -- replace (isEmpty (TrimSpace cell)) with false
             by (symmetry; apply not_true_is_false;
                 intros H%isEmpty_true; congruence).
           rewrite Hk, lookup_insert_eq. f_equal. lia.
      * left. exists p, cell. split; [done|]. split; [done|].
        split; [done|]. split; [lia|].
        intros q cell' Hq Hk'. specialize (Hlast (S q) cell' Hq Hk'). lia.
    + right. split.
      * intros cell Hc. apply Hnone. by right.
      * destruct (isEmpty (TrimSpace c)) eqn:Ee; [done|].
        apply isEmpty_false in Ee. rewrite lookup_insert_ne; [done|].
        intros Hk. apply Ee. rewrite Hk. apply (Hnone c); [by left|done].
Qed.

Lemma parserColumn_found columns col :
  col ∈ columns →
  ∃ parserCol, parserColumn columns (Name col) = Some parserCol
    ∧ parserCol ∈ columns ∧ Name parserCol = Name col
    ∧ (NoDup (Name <$> columns) → parserCol = col).
Proof.
  unfold parserColumn. induction columns as [|c r IH]; [by intros H%elem_of_nil|].
  intros Hc. cbn [List.find].
  destruct (String.eqb_spec (Name c) (Name col)) as [E|E].
  - exists c. split; [done|]. split; [by left|]. split; [done|].
    rewrite fmap_cons. intros [Hnot _]%NoDup_cons.
    apply elem_of_cons in Hc as [->|Hc]; [done|].
    destruct Hnot. rewrite E. apply list_elem_of_fmap. by exists col.
  - apply elem_of_cons in Hc as [->|Hc]; [done|].
    destruct (IH Hc) as (pc & Hf & Hin & Hn & Hu). exists pc.
    split; [done|]. split; [by right|]. split; [done|].
    rewrite fmap_cons. intros [_ Hnd]%NoDup_cons. by apply Hu.
Qed.

(** X19. The value [generateDatabase] binds for a column of a row is read
    at the last position of the header row whose trimmed cell is the name
    of the column, the formatted name the builder gave it, and parsed by
    the parser of the first column of that name: the column itself when
    names are distinct.  When the header row has no such cell, or the row
    ends before that position, the value is [nil]. *)
Theorem generateDatabase_value_source {V : Type}
    (parse : Column → string → option V) (columns : list Column)
    (header row : list string) (col : Column) (v : V) :
  col ∈ columns →
  (rowValue parse columns (headerPositions header 0 ∅) row col = Some v
   ↔ ∃ j cell text parserCol,
       header !! j = Some cell ∧ TrimSpace cell = Name col
       ∧ Name col ≠ EmptyString
       ∧ (∀ j' cell', header !! j' = Some cell' →
            TrimSpace cell' = Name col → j' ≤ j)
       ∧ row !! j = Some text
       ∧ parserColumn columns (Name col) = Some parserCol
       ∧ parse parserCol text = Some v)
  ∧ (NoDup (Name <$> columns) →
     parserColumn columns (Name col) = Some col).
Proof.
  intros Hcol. unfold rowValue.
  destruct (parserColumn_found columns col Hcol)
    as (pc & Hpc & Hin & Hname & Huniq).
  rewrite Hpc. split; [|by intros ->%Huniq]. split.
  - destruct (headerPositions header 0 ∅ !! Name col) as [j|] eqn:E; [|done].
    apply headerPositions_spec in E
      as [(p & cell & Hp & Hk & Hne & -> & Hlast)|[_ E]];
      [|by rewrite lookup_empty in E].
    destruct (row !! (0 + p)) as [text|] eqn:Er; [|done].
    intros Hv. by exists p, cell, text, pc.
  - intros (j & cell & text & pc' & Hj & Hk & Hne & Hlast & Hr & [= <-] & Hv).
    assert (E : headerPositions header 0 ∅ !! Name col = Some j).
    { apply headerPositions_spec. left. by exists j, cell. }
    by rewrite E, Hr.
Qed.

Lemma generateDatabase_value_source_witness :
  rowValue (λ _ text, Some text) skillsColumns
    (headerPositions ["name"; "skills"] 0 ∅) ["Fire"; "1,2"]
    (arrayColumn "Skills" Int32Type)
  ≠ Some "1,2".
Proof.
  intros H.
  apply (proj1 (generateDatabase_value_source (λ _ text, Some text)
                  skillsColumns ["name"; "skills"] ["Fire"; "1,2"]
                  (arrayColumn "Skills" Int32Type) "1,2"
                  ltac:(vm_compute; in_list))) in H
    as (j & cell & _ & _ & Hj & Hk & _).
  destruct j as [|[|j]]; simpl in Hj; [| |done];
    injection Hj as <-; discriminate Hk.
Defined.

Lemma isLowerByte_toUpperByte c : isLowerByte (toUpperByte c) = false.
Proof. byte_cases c. Qed.

Lemma FormatColumnName_not_lower n : startsLower (FormatColumnName n) = false.
Proof.
  rewrite FormatColumnName_words. pose proof (Fields_words n) as H.
  destruct H as [|w ws [Hw _] _]; [done|].
  rewrite fmap_cons, Join_empty_cons. destruct w as [|c w]; [done|].
  simpl. apply isLowerByte_toUpperByte.
Qed.

Lemma formatted_or_empty_not_lower (pn : gmap string string) k :
  namesFormatted pn →
  startsLower (default EmptyString (pn !! k)) = false.
Proof.
  intros Hpn. destruct (pn !! k) as [v|] eqn:E; [|done]. simpl.
  rewrite (Hpn k v E). apply FormatColumnName_not_lower.
Qed.

Lemma elementName_not_lower fn i :
  startsLower fn = false → startsLower (elementName fn i) = false.
Proof. unfold elementName. by destruct fn. Qed.

(** A run of the builder that returns columns, loop by loop. *)
Lemma BuildColumnsIn_run rangeOrder fieldNames types tags columns :
  BuildColumnsIn rangeOrder fieldNames types tags = BuildOk columns →
  ∃ pn cnt m1 m,
    namesFormatted pn ∧ namesCollected fieldNames types pn
    ∧ rangeFrom (collectStep types) 0 fieldNames (∅, ∅) = inl (pn, cnt)
    ∧ rangeFrom (λ _, arrayStep fieldNames types pn) 0 (rangeOrder cnt) ∅
      = inl m1
    ∧ rangeFrom (regularStep types tags pn) 0 fieldNames m1 = inl m
    ∧ columns = sortColumns ((map_to_list m).*2).
Proof.
  unfold BuildColumnsIn.
  destruct (collect_spec fieldNames types) as (pn & cnt & E & Hpn & Hcol).
  rewrite E.
  destruct (rangeFrom _ 0 (rangeOrder cnt) ∅) as [m1|e] eqn:E1; [|discriminate].
  destruct (rangeFrom _ 0 fieldNames m1) as [m2|e] eqn:E2; [|discriminate].
  intros [= <-]. by exists pn, cnt, m1, m2.
Qed.

(** No column of the builder has a name that begins with a lower-case
    letter. *)
Lemma BuildColumnsIn_names_not_lower rangeOrder fieldNames types tags
    columns col :
  BuildColumnsIn rangeOrder fieldNames types tags = BuildOk columns →
  col ∈ columns → startsLower (Name col) = false.
Proof.
  intros Hb Hc.
  destruct (BuildColumnsIn_run _ _ _ _ _ Hb)
    as (pn & cnt & m1 & m & Hpn & Hcol & _ & E1 & E2 & ->).
  set (P := λ m : gmap string Column,
         ∀ k c, m !! k = Some c → Name c = k ∧ startsLower k = false).
  assert (H1 : P m1).
  { eapply (rangeFrom_invariant P); [| |exact E1].
    - intros k c. by rewrite lookup_empty.
    - intros j [origName count] s1 s2 _ Hs1. unfold arrayStep.
      pose proof (formatted_or_empty_not_lower pn origName Hpn) as Hfn.
      destruct (IsReservedColumnName _); [discriminate|].
      destruct (isEmpty _); [by intros [= <-]|]. intros [= <-].
      unfold addElementColumns. generalize (seq 0 count). intros l.
      assert (H0 : P (<[default EmptyString (pn !! origName) :=
                         arrayColumn (default EmptyString (pn !! origName))
                           (ParseColumnType
                              (findBaseTypeStr fieldNames types origName 0))]>
                        s1)).
      { intros k c. rewrite lookup_insert. case_decide; [|by apply Hs1].
        intros [= <-]. by subst k. }
      revert H0. generalize (<[default EmptyString (pn !! origName) :=
                         arrayColumn (default EmptyString (pn !! origName))
                           (ParseColumnType
                              (findBaseTypeStr fieldNames types origName 0))]>
                        s1).
      induction l as [|i l IH]; intros s Hs; [done|]. simpl. apply IH.
      intros k c. rewrite lookup_insert. case_decide; [|by apply Hs].
      intros [= <-]. subst k. split; [done|].
      by apply elementName_not_lower. }
  assert (H2 : P m).
  { eapply (rangeFrom_invariant P); [exact H1| |exact E2].
    intros j x s1 s2 _ Hs1. unfold regularStep.
    destruct (types !! _); [|by intros [= <-]].
    destruct (isEmpty _); [by intros [= <-]|].
    pose proof (formatted_or_empty_not_lower pn (TrimSpace x) Hpn) as Hfn.
    destruct (IsReservedColumnName _); [discriminate|].
    case_bool_decide; [by intros [= <-]|].
    destruct (Contains _ _); [by intros [= <-]|]. intros [= <-].
    intros k c. rewrite lookup_insert. case_decide; [|by apply Hs1].
    intros [= <-]. by subst k. }
  unfold sortColumns in Hc. rewrite merge_sort_Permutation in Hc.
  apply list_elem_of_fmap in Hc as ([k c] & -> & Hkc).
  apply elem_of_map_to_list in Hkc. destruct (H2 k c Hkc) as [Hn Hl].
  simpl. by rewrite Hn.
Qed.

(** X20. The builder never gives a column a name that begins with a
    lower-case letter, and [generateDatabase] looks a column up in the
    header row by that name.  For a sheet whose headers all begin with a
    lower-case letter, every value of every inserted row is therefore
    [nil]. *)
Theorem generateDatabase_lowercase_headers_all_nil {V : Type}
    (parse : Column → string → option V)
    (rangeOrder : gmap string nat → list (string * nat))
    (header tagRow typeRow : list string) (rows : list (list string))
    (columns : list Column) :
  BuildColumnsIn rangeOrder header typeRow tagRow = BuildOk columns →
  Forall (λ cell, TrimSpace cell = EmptyString
                  ∨ startsLower (TrimSpace cell) = true) header →
  (∀ col, col ∈ columns → startsLower (Name col) = false)
  ∧ ∃ values,
      insertedValues parse columns (header :: tagRow :: typeRow :: rows)
      = Some values
      ∧ length values = length (filter (λ row, isEmptyRow row = false) rows)
      ∧ ∀ rowValues value,
          rowValues ∈ values → value ∈ rowValues → value = None.
Proof.
  intros Hb Hlow.
  assert (Hnames : ∀ col, col ∈ columns → startsLower (Name col) = false).
  { intros col. by apply (BuildColumnsIn_names_not_lower _ _ _ _ _ _ Hb). }
  split; [done|]. unfold insertedValues. eexists. split; [done|].
  cbn [drop]. split; [by rewrite length_fmap|].
  intros rowValues value (row & -> & _)%list_elem_of_fmap
    (col & -> & Hcol)%list_elem_of_fmap.
  unfold rowValue.
  destruct (headerPositions header 0 ∅ !! Name col) as [j|] eqn:E; [|done].
  apply headerPositions_spec in E
    as [(p & cell & Hp & Hk & Hne & _)|[_ E]];
    [|by rewrite lookup_empty in E].
  rewrite Forall_forall in Hlow.
  destruct (Hlow cell (list_elem_of_lookup_2 _ _ _ Hp)) as [H0|H0].
  - congruence.
  - rewrite Hk, (Hnames col Hcol) in H0. discriminate.
Qed.

Lemma generateDatabase_lowercase_headers_all_nil_witness :
  ∃ columns values,
    BuildColumns ["name"; "skills"; "skills"] ["string"; "array<int>";
                                                "array<int>"] []
    = BuildOk columns
    ∧ insertedValues (λ _ text, Some text) columns
        [["name"; "skills"; "skills"]; [];
         ["string"; "array<int>"; "array<int>"]; ["Fire"; "1"; "2"]]
      = Some values
    ∧ ∀ rowValues value,
        rowValues ∈ values → value ∈ rowValues → value = None.
Proof.
  destruct (BuildColumns ["name"; "skills"; "skills"]
              ["string"; "array<int>"; "array<int>"] [])
    as [columns|e] eqn:E; [|by vm_compute in E].
  destruct (generateDatabase_lowercase_headers_all_nil
              (λ (_ : Column) (text : string), Some text) map_to_list
              ["name"; "skills"; "skills"] []
              ["string"; "array<int>"; "array<int>"] [["Fire"; "1"; "2"]]
              columns E)
    as (_ & values & Hv & _ & Hnil).
  - repeat constructor; right; reflexivity.
  - exists columns, values. split; [reflexivity|].
    split; [exact Hv|exact Hnil].
Defined.

(** ** The value parsers *)

Lemma isDigitByte_plain c :
  isDigitByte c = true → isSpaceByte c = false ∧ Ascii.eqb c "," = false.
Proof. byte_cases c. Qed.

Lemma digitsValue_plain s acc v :
  digitsValue s acc = Some v →
  hasSpace s = false ∧ ContainsAny s "," = false.
Proof.
  revert acc. induction s as [|c s IH]; intros acc; [done|].
  cbn [digitsValue hasSpace ContainsAny containsByte].
  destruct (isDigitByte c) eqn:Hc; [|done]. intros H.
  destruct (isDigitByte_plain c Hc) as [-> ->].
  by destruct (IH _ H) as [-> ->].
Qed.

Lemma digitsValue_Itoa i : digitsValue (Itoa i) 0 = Some (Z.of_nat i).
Proof.
  unfold Itoa, pretty, pretty_nat, pretty, pretty_N. case_decide as H0.
  - by assert (i = 0) as -> by lia.
  - rewrite digitsValue_pretty_N_go. simpl. by rewrite nat_N_Z.
Qed.

Lemma Itoa_head i : ∃ c r, Itoa i = String c r ∧ isDigitByte c = true.
Proof.
  unfold Itoa, pretty, pretty_nat, pretty, pretty_N. case_decide as H0.
  - by eexists _, _.
  - apply pretty_N_go_head. lia.
Qed.

Lemma showZ_plain n :
  hasSpace (showZ n) = false ∧ ContainsAny (showZ n) "," = false
  ∧ showZ n ≠ EmptyString.
Proof.
  unfold showZ.
  destruct (Itoa_head (Z.to_nat n)) as (c & r & E & _).
  destruct (digitsValue_plain _ _ _ (digitsValue_Itoa (Z.to_nat n)))
    as [H1 H2].
  destruct (digitsValue_plain _ _ _ (digitsValue_Itoa (Z.to_nat (- n))))
    as [H3 H4].
  destruct (n <? 0)%Z.
  - change ("-" +:+ Itoa (Z.to_nat (- n)))
      with (String "-" (Itoa (Z.to_nat (- n)))).
    cbn [hasSpace ContainsAny containsByte]. by rewrite H3, H4.
  - rewrite H1, H2. by rewrite E.
Qed.

Lemma ParseInt_showZ (n : Z) (bitSize : nat) :
  (- 2 ^ (Z.of_nat bitSize - 1) ≤ n < 2 ^ (Z.of_nat bitSize - 1))%Z →
  ParseInt (showZ n) bitSize = Some n.
Proof.
  intros Hn. unfold showZ.
  assert (Hrange : ((- 2 ^ (Z.of_nat bitSize - 1) <=? n)
                    && (n <? 2 ^ (Z.of_nat bitSize - 1)))%Z = true).
  { apply andb_true_iff. split; [apply Z.leb_le|apply Z.ltb_lt]; lia. }
  destruct (Z.ltb_spec n 0) as [Hneg|Hpos].
  - change ("-" +:+ Itoa (Z.to_nat (- n)))
      with (String "-" (Itoa (Z.to_nat (- n)))).
    cbn [ParseInt Ascii.eqb Bool.eqb orb].
    destruct (Itoa_head (Z.to_nat (- n))) as (c & r & E & _).
    rewrite digitsValue_Itoa. rewrite E at 1. cbn [isEmpty mbind option_bind].
    replace (- Z.of_nat (Z.to_nat (- n)))%Z with n by lia.
    by rewrite Hrange.
  - destruct (Itoa_head (Z.to_nat n)) as (c & r & E & Hc).
    pose proof (digitsValue_Itoa (Z.to_nat n)) as Hv. rewrite E in *.
    unfold ParseInt.
    destruct (isDigitByte_not_sign c Hc) as (-> & -> & _).
    cbn [orb isEmpty]. rewrite Hv. cbn [mbind option_bind].
    replace (Z.of_nat (Z.to_nat n)) with n by lia. by rewrite Hrange.
Qed.

Lemma Split_numerals (ns : list Z) :
  ns ≠ [] → Split (Join (showZ <$> ns) ",") "," = showZ <$> ns.
Proof.
  assert (H1 : ∀ n, Split (showZ n) "," = [showZ n]).
  { intros n. unfold Split. rewrite splitFrom_no_sep; [done|].
    apply (showZ_plain n). }
  induction ns as [|n ns IH]; [done|]. intros _.
  destruct ns as [|m ns]; [apply H1|].
  rewrite (fmap_cons showZ n).
  assert (E : Join (showZ n :: (showZ <$> (m :: ns))) ","
              = showZ n +:+ String "," (Join (showZ <$> (m :: ns)) ",")).
  { by rewrite fmap_cons. }
  rewrite E, Split_append_sep, H1, IH by done. done.
Qed.

Lemma hasSpace_numerals (ns : list Z) :
  hasSpace (Join (showZ <$> ns) ",") = false.
Proof.
  induction ns as [|n ns IH]; [done|].
  destruct ns as [|m ns]; [apply showZ_plain|].
  rewrite (fmap_cons showZ n).
  assert (E : Join (showZ n :: (showZ <$> (m :: ns))) ","
              = showZ n +:+ String "," (Join (showZ <$> (m :: ns)) ",")).
  { by rewrite fmap_cons. }
  rewrite E, hasSpace_append. cbn [hasSpace]. rewrite IH.
  by destruct (showZ_plain n) as [-> _].
Qed.

Lemma Join_numerals_nonempty (ns : list Z) :
  ns ≠ [] → isEmpty (Join (showZ <$> ns) ",") = false.
Proof.
  destruct ns as [|n ns]; [done|]. intros _.
  destruct (showZ_plain n) as (_ & _ & Hne).
  destruct ns as [|m ns]; simpl.
  - by destruct (showZ n).
  - by destruct (showZ n).
Qed.

Section ValueParserProperties.
Context {Float Time : Type}.
Variable parseFloat : string → option Float.
Variable timeParse : string → string → Time + string.
Variables Hour Minute Second : Time → nat.
Variable UTC : Time → Time.
Variable floatIsZero : Float → bool.
Variable timeIsZero : Time → bool.
Variable marshalFloat : Float → option string.
Variable marshalString : string → string.
Variable marshalTime : Time → option string.

Lemma int32_item_parsed name sqlType (n : Z) :
  (- 2 ^ 31 ≤ n < 2 ^ 31)%Z →
  (createValueParser parseFloat timeParse Hour Minute Second UTC
     (mkColumn name (mkColumnType TInt32 sqlType false None) EmptyString
        false)).2 (showZ n)
  = (mkTypedValue (mkColumnType TInt32 sqlType false None)
       (Some (PInt32 n)), None).
Proof.
  intros Hn. cbn [createValueParser ctType Type_ Name NewReflectParser snd].
  unfold ReflectParser_Parse.
  destruct (showZ_plain n) as (Hs & _ & Hne).
  rewrite (TrimSpace_noSpace _ Hs).
  replace (isEmpty (showZ n)) with false by (by destruct (showZ n)).
  by rewrite (ParseInt_showZ n 32 Hn).
Qed.

Lemma parseItems_int32 name sqlType (ns : list Z)
    (values : list (Parsed Float Time)) :
  Forall (λ n, (- 2 ^ 31 ≤ n < 2 ^ 31)%Z) ns →
  parseItems floatIsZero timeIsZero
    (createValueParser parseFloat timeParse Hour Minute Second UTC
       (mkColumn name (mkColumnType TInt32 sqlType false None) EmptyString
          false))
    (showZ <$> ns) values
  = inl (values ++ (PInt32 <$> filter (λ n, n ≠ 0%Z) ns)).
Proof.
  intros Hns. revert values.
  induction Hns as [|n ns Hn _ IH]; intros values.
  { simpl. by rewrite app_nil_r. }
  rewrite fmap_cons. cbn [parseItems].
  rewrite (int32_item_parsed name sqlType n Hn). rewrite IH, filter_cons.
  cbn [IsZero tvValue]. destruct (Z.eqb_spec n 0) as [->|Hne].
  - by rewrite decide_False by (by intros []).
  - rewrite decide_True by done. by rewrite fmap_cons, <- app_assoc.
Qed.

Lemma marshalValues_int32 (ns : list Z) :
  marshalValues marshalFloat marshalString marshalTime
    (PInt32 (Float := Float) (Time := Time) <$> ns)
  = Some ("[" +:+ Join (showZ <$> ns) "," +:+ "]").
Proof.
  unfold marshalValues.
  assert (E : mapM (marshalElement marshalFloat marshalString marshalTime)
                (PInt32 (Float := Float) (Time := Time) <$> ns)
              = Some (showZ <$> ns)).
  { induction ns as [|n ns IH]; [done|]. rewrite !fmap_cons.
    cbn [mapM]. rewrite IH. done. }
  by rewrite E.
Qed.

(** X21. The parser of an array column of 32-bit integers reads back the
    text of a list of integers, numeral after numeral with commas between,
    as the JSON text of the list without its zeros: an element that is
    zero is dropped, as a blank item is. *)
Theorem array_parser_drops_zero_elements (column : Column) (ns : list Z) :
  IsArray (Type_ column) = true →
  ctType (Type_ column) = TSliceOf TInt32 →
  ns ≠ [] →
  Forall (λ n, (- 2 ^ 31 ≤ n < 2 ^ 31)%Z) ns →
  ∃ parser,
    CreateParser parseFloat timeParse Hour Minute Second UTC floatIsZero
      timeIsZero marshalFloat marshalString marshalTime column
    = Some parser
    ∧ parser.1 = Type_ column
    ∧ parser.2 (Join (showZ <$> ns) ",")
      = (mkTypedValue (Type_ column)
           (Some (PString
                    ("[" +:+ Join (showZ <$> filter (λ n, n ≠ 0%Z) ns) ","
                     +:+ "]"))),
         None).
Proof.
  intros Harr Hty Hne Hns. unfold CreateParser, createArrayParser.
  rewrite Harr, Hty. eexists. split; [done|]. split; [done|].
  cbn [NewReflectParser snd]. unfold ReflectParser_Parse.
  rewrite (TrimSpace_noSpace _ (hasSpace_numerals ns)).
  rewrite (Join_numerals_nonempty ns Hne), (Split_numerals ns Hne).
  rewrite (parseItems_int32 _ _ ns [] Hns). cbn [app].
  by rewrite marshalValues_int32.
Qed.

(** X22. Every parser [CreateParser] returns reads a blank cell as the zero
    value of the parser's type, without an error and without calling the
    parse function.  For a column that is no array and whose Go type is a
    slice or a byte, [BytesType] among them, the parser is the string
    parser: its type is [StringType], not the type of the column, and a
    cell that is not blank gives its trimmed text. *)
Theorem CreateParser_blank_and_fallback (column : Column)
    (parser : ValueParser (Float := Float) (Time := Time)) (value : string) :
  CreateParser parseFloat timeParse Hour Minute Second UTC floatIsZero
    timeIsZero marshalFloat marshalString marshalTime column
  = Some parser →
  (allSpace value = true →
   parser.2 value = (mkTypedValue parser.1 None, None))
  ∧ (IsArray (Type_ column) = false →
     (ctType (Type_ column) = TUint8
      ∨ ∃ elem, ctType (Type_ column) = TSliceOf elem) →
     parser.1 = StringType
     ∧ (allSpace value = false →
        parser.2 value
        = (mkTypedValue StringType (Some (PString (TrimSpace value))),
           None))).
Proof.
  intros Hp.
  assert (Hblank : ∀ name ty parse,
    allSpace value = true →
    ReflectParser_Parse (Float := Float) (Time := Time) name ty parse value
    = (mkTypedValue ty None, None)).
  { intros name ty parse Hv. unfold ReflectParser_Parse.
    apply TrimSpace_empty_allSpace in Hv. by rewrite Hv. }
  assert (Hstring : ∀ name,
    allSpace value = false →
    ReflectParser_Parse (Float := Float) (Time := Time) name StringType
      (λ s, inl (PString s)) value
    = (mkTypedValue StringType (Some (PString (TrimSpace value))), None)).
  { intros name Hv. unfold ReflectParser_Parse.
    destruct (isEmpty (TrimSpace value)) eqn:E; [|done].
    apply isEmpty_true, TrimSpace_empty_allSpace in E. congruence. }
  unfold CreateParser in Hp.
  destruct (IsArray (Type_ column)) eqn:Harr.
  - split; [|done]. intros Hv. unfold createArrayParser in Hp.
    destruct (ctType (Type_ column)); try done.
    injection Hp as <-. by apply Hblank.
  - injection Hp as <-. split.
    + intros Hv. unfold createValueParser.
      destruct (ctType (Type_ column)); cbn [NewReflectParser fst snd];
        try (by apply Hblank).
      unfold NewTimeParser, TimeParser_Parse. cbn [fst snd].
      apply TrimSpace_empty_allSpace in Hv. by rewrite Hv.
    + intros _ Hty. unfold createValueParser.
      destruct Hty as [->|[elem ->]]; cbn [NewReflectParser fst snd];
        (split; [done|apply Hstring]).
Qed.

End ValueParserProperties.

Lemma array_parser_drops_zero_elements_witness :
  ∃ parser,
    CreateParser (Float := unit) (Time := unit) (λ _, None)
      (λ _ _, inr EmptyString) (λ _, 0) (λ _, 0) (λ _, 0) (λ t, t)
      (λ _, true) (λ _, true) (λ _, None) (λ s, s) (λ _, None)
      (arrayColumn "Skills" Int32Type)
    = Some parser
    ∧ parser.2 "3,0,-7"
      = (mkTypedValue (Type_ (arrayColumn "Skills" Int32Type))
           (Some (PString "[3,-7]")), None).
Proof.
  destruct (array_parser_drops_zero_elements (Float := unit) (Time := unit)
              (λ _, None) (λ _ _, inr EmptyString) (λ _, 0) (λ _, 0)
              (λ _, 0) (λ t, t) (λ _, true) (λ _, true) (λ _, None)
              (λ s, s) (λ _, None) (arrayColumn "Skills" Int32Type)
              [3; 0; -7]%Z eq_refl eq_refl)
    as (parser & Hp & _ & Hv).
  - done.
  - repeat constructor; lia.
  - exists parser. split; [exact Hp|exact Hv].
Defined.

Lemma CreateParser_blank_and_fallback_witness :
  (createValueParser (Float := unit) (Time := unit) (λ _, None)
     (λ _ _, inr EmptyString) (λ _, 0) (λ _, 0) (λ _, 0) (λ t, t)
     (mkColumn "Icon" BytesType EmptyString false)).1
  = StringType.
Proof.
  apply (proj2 (CreateParser_blank_and_fallback (Float := unit)
                  (Time := unit) (λ _, None) (λ _ _, inr EmptyString)
                  (λ _, 0) (λ _, 0) (λ _, 0) (λ t, t) (λ _, true)
                  (λ _, true) (λ _, None) (λ s, s) (λ _, None)
                  (mkColumn "Icon" BytesType EmptyString false) _
                  EmptyString eq_refl)).
  - reflexivity.
  - right. by exists TUint8.
Defined.
